(** * Interview-Agent: the audio pipeline and event router of [src/App.tsx]

    A shallow embedding of the stateful core of the voice-coach front end:
    the tool-call and transcript router ([onmessage]), the playback
    scheduler, the microphone callback ([onaudioprocess]) and the teardown
    routine ([cleanup]).

    Conventions of the embedding.
    - React state ([useState]) and refs ([useRef]) live in one record,
      [AppState]; a handler is a computation in a small state / output /
      exception monad [M].  [setX(prev => f prev)] is [modify]: React applies
      queued updaters in the order they were queued.
    - A callback reads the React state through the bindings of the render in
      which it was created.  [onmessage] is created inside [connectToGemini],
      so the identifier [centerPanel] in its body denotes the value captured
      when the microphone button was pressed; it is an explicit argument of
      the embedded [onmessage].
    - JavaScript numbers are idealised as exact rationals ([Q]); the only
      irrational operation, [Math.sqrt], lands in [R].
    - Values typed [any] in the source are [JsValue]s.
    - Fields that the live API leaves optional and the code reads without a
      guard ([msg.toolCall.functionCalls], [call.args]) are [option]s; using
      an absent one raises, as the [TypeError] does in the source. *)

From Stdlib Require Import List String Ascii Bool Arith ZArith Lia.
From Stdlib Require Import QArith Qminmax Qround Qabs.
From Stdlib Require Import Reals Qreals Psatz.
From Stdlib Require Import DecimalString.
Import ListNotations.

Local Close Scope R_scope.
Local Close Scope Q_scope.
Local Open Scope string_scope.
Local Open Scope list_scope.

(* ===================================================================== *)
(** * Part I: the embedding                                               *)
(* ===================================================================== *)

(** ** JavaScript values, for data typed [any] *)

Module Js.

#[local] Set Warnings "-register-all".

Inductive JsValue : Type :=
| JsUndefined
| JsNull
| JsBool (b : bool)
| JsNumber (q : Q)
| JsString (s : string)
| JsArray (items : list JsValue)
| JsObject (props : list (string * JsValue)).

(** [ToBoolean]: what [if (v)] tests.  (JSON carries no NaN.) *)
Definition truthy (v : JsValue) : bool :=
  match v with
  | JsUndefined | JsNull => false
  | JsBool b => b
  | JsNumber q => negb (Qnum q =? 0)%Z
  | JsString s => negb (s =? EmptyString)
  | JsArray _ | JsObject _ => true
  end.

(** Property read [o.k] on an object; an absent property is [undefined]. *)
Fixpoint prop (k : string) (props : list (string * JsValue)) : JsValue :=
  match props with
  | [] => JsUndefined
  | (k', v) :: rest => if k =? k' then v else prop k rest
  end.

(** Truthiness of a string (the empty string is the only falsy one). *)
Definition nonEmpty (s : string) : bool := negb (s =? EmptyString).

End Js.
Import Js.

(** ** Data model ([src/types.ts] and the state of [App]) *)

Inductive Role : Type := user | model.

(** [Message] of [src/types.ts]. *)
Record Message : Type := mkMessage {
  msg_id : string;
  msg_role : Role;
  msg_text : string;
  msg_timestamp : Z
}.

(** [AudioBlob] of [src/types.ts]. *)
Record AudioBlob : Type := mkBlob {
  data : string;
  mimeType : string
}.

(** The [centerPanel] state object. [question] and [status] receive values
    read from [call.args as any]. *)
Record CenterPanel : Type := mkCenterPanel {
  question : JsValue;
  status : JsValue;
  transcript : string
}.

(** Web Audio objects, as far as the code looks at them. *)
Record AudioContext : Type := mkContext { ctx_sampleRate : positive }.

Inductive AudioNode : Type :=
| MediaStreamSource
| ScriptProcessor (bufferSize : positive).

Record AudioBuffer : Type := mkBuffer {
  buf_length : N;
  buf_sampleRate : positive
}.

(** [AudioBuffer.duration], in seconds. *)
Definition duration (b : AudioBuffer) : Q := Z.of_N (buf_length b) # buf_sampleRate b.

(** A buffer source node; [src_id] stands for the object's identity, which
    [indexOf] compares. *)
Record AudioBufferSourceNode : Type := mkSource {
  src_id : nat;
  src_buffer : AudioBuffer
}.

(** The session object kept in [sessionRef]: its callbacks are closures over
    the render in which [connectToGemini] ran. *)
Record Session : Type := mkSession {
  closure_centerPanel : CenterPanel
}.

(** Messages of the live API, as far as [onmessage] reads them.  A call's
    [args] is optional in the API: [None] is a call that carries none. *)
Record FunctionCall : Type := mkCall {
  call_id : string;
  call_name : string;
  call_args : option (list (string * JsValue))
}.

Record FunctionResponse : Type := mkResponse {
  resp_id : string;
  resp_name : string;
  resp_response : JsValue
}.

Record Part : Type := mkPart { inlineData : option AudioBlob }.

Record ServerContent : Type := mkServerContent {
  modelTurn_parts : option (list Part);
  outputTranscription_text : option string;
  inputTranscription_text : option string;
  turnComplete : bool
}.

(** [msg.toolCall]; its [functionCalls] is optional as well. *)
Record LiveServerToolCall : Type := mkToolCall {
  functionCalls : option (list FunctionCall)
}.

Record LiveServerMessage : Type := mkLiveMessage {
  toolCall : option LiveServerToolCall;
  serverContent : option ServerContent
}.

(** ** Base64 ([btoa] / [atob]) over byte lists

    The standard alphabet with [=] padding, a byte being an integer below
    256. *)

Module Base64.

Definition alphabet : string :=
  "ABCDEFGHIJKLMNOPQRSTUVWXYZabcdefghijklmnopqrstuvwxyz0123456789+/".

Definition pad : ascii := "="%char.

(** The character of a 6-bit group. *)
Definition sextetChar (n : Z) : ascii :=
  nth (Z.to_nat n) (list_ascii_of_string alphabet) pad.

Fixpoint indexOf (c : ascii) (l : list ascii) (i : Z) : option Z :=
  match l with
  | [] => None
  | d :: rest => if Ascii.eqb c d then Some i else indexOf c rest (i + 1)%Z
  end.

(** The 6-bit group of a character of the alphabet. *)
Definition charSextet (c : ascii) : option Z :=
  indexOf c (list_ascii_of_string alphabet) 0%Z.

(** Three bytes become four characters; a tail of one or two bytes is padded. *)
Fixpoint btoa (bytes : list Z) : string :=
  match bytes with
  | [] => EmptyString
  | [a] =>
      String (sextetChar (a / 4)%Z)
     (String (sextetChar ((a mod 4) * 16)%Z)
     (String pad (String pad EmptyString)))
  | [a; b] =>
      String (sextetChar (a / 4)%Z)
     (String (sextetChar ((a mod 4) * 16 + b / 16)%Z)
     (String (sextetChar ((b mod 16) * 4)%Z)
     (String pad EmptyString)))
  | a :: b :: c :: rest =>
      String (sextetChar (a / 4)%Z)
     (String (sextetChar ((a mod 4) * 16 + b / 16)%Z)
     (String (sextetChar ((b mod 16) * 4 + c / 64)%Z)
     (String (sextetChar (c mod 64)%Z)
     (btoa rest))))
  end.

(** Four characters become three bytes; padding is accepted only at the end.
    [None]: the input is not the base64 text of a byte string.  This is the
    strict reading, enough for what [btoa] produces; the browser's [atob]
    also accepts text without its padding and skips white space. *)
Fixpoint atob (s : string) : option (list Z) :=
  match s with
  | EmptyString => Some []
  | String c0 (String c1 (String c2 (String c3 rest))) =>
      match charSextet c0, charSextet c1 with
      | Some s0, Some s1 =>
          let b0 := (s0 * 4 + s1 / 16)%Z in
          if Ascii.eqb c2 pad then
            if Ascii.eqb c3 pad && (rest =? EmptyString) then Some [b0] else None
          else
            match charSextet c2 with
            | Some s2 =>
                let b1 := ((s1 mod 16) * 16 + s2 / 4)%Z in
                if Ascii.eqb c3 pad then
                  if rest =? EmptyString then Some [b0; b1] else None
                else
                  match charSextet c3 with
                  | Some s3 =>
                      let b2 := ((s2 mod 4) * 64 + s3)%Z in
                      match atob rest with
                      | Some tail => Some (b0 :: b1 :: b2 :: tail)
                      | None => None
                      end
                  | None => None
                  end
            | None => None
            end
      | _, _ => None
      end
  | _ => None
  end.

End Base64.

(** ** PCM encoder ([createPcmBlob] of [utils/audioUtils]) *)

Module Pcm.

(** The encoder is [createPcmBlob] of [src/utils/audioUtils.ts], which is not
    among the sources; the definitions of this module follow section 4.1 of
    the specification: the input is a buffer of floating-point samples in
    [-1, 1]; the output is a 16-bit little-endian PCM encoding, base64-wrapped,
    tagged with a fixed mime descriptor; the only loss is the quantization to
    16-bit integers; an out-of-range sample is clamped, never an error. *)

(** Modelled from the spec: the scale of the quantization in [createPcmBlob],
    which the specification leaves open; 32767 is the largest 16-bit value, so
    that the sample 1.0 needs no wrap-around. *)
Definition fullScale : Z := 32767.

(** Modelled from the spec: the clamping of [createPcmBlob] ("out-of-range
    float must clamp rather than throw"), [Math.max(-1, Math.min(1, x))]. *)
Definition clamp (x : Q) : Q := Qmax (-1) (Qmin 1 x).

(** Modelled from the spec: the rounding of [createPcmBlob], which the
    specification leaves open; toward zero, as a typed-array store rounds. *)
Definition truncate (x : Q) : Z :=
  if Qle_bool 0 x then Qfloor x else Qceiling x.

(** Modelled from the spec: the "quantization to 16-bit integers" of
    [createPcmBlob]. *)
Definition quantize (x : Q) : Z := truncate (clamp x * inject_Z fullScale).

(** Modelled from the spec: the "16-bit little-endian" layout written by
    [createPcmBlob]: two's complement, low byte first. *)
Definition int16Bytes (n : Z) : list Z :=
  let u := (n mod 65536)%Z in [(u mod 256)%Z; (u / 256)%Z].

(** Modelled from the spec: the PCM bytes of a window in [createPcmBlob]. *)
Definition pcmBytes (samples : list Q) : list Z :=
  flat_map (fun x => int16Bytes (quantize x)) samples.

(** Modelled from the spec: the "fixed mime descriptor" of [createPcmBlob];
    the specification does not spell it, the rate is that of the capture
    context (App.tsx 121). *)
Definition pcmMimeType : string := "audio/pcm;rate=16000".

(** Modelled from the spec: [createPcmBlob] of [src/utils/audioUtils.ts],
    absent from the sources: "a byte-accurate 16-bit little-endian PCM
    encoding, base64-wrapped for transport, tagged with a fixed mime
    descriptor". *)
Definition createPcmBlob (samples : list Q) : AudioBlob :=
  {| data := Base64.btoa (pcmBytes samples); mimeType := pcmMimeType |}.

(** *** The decoder the round-trip property speaks of

    The inverse reading of the same layout: base64 text to bytes, byte pairs
    to signed 16-bit integers, integers back to the unit range. *)

Definition bytesInt16 (lo hi : Z) : Z :=
  let u := (lo + 256 * hi)%Z in if (u <? 32768)%Z then u else (u - 65536)%Z.

Fixpoint int16Samples (bytes : list Z) : option (list Z) :=
  match bytes with
  | [] => Some []
  | lo :: hi :: rest =>
      match int16Samples rest with
      | Some tail => Some (bytesInt16 lo hi :: tail)
      | None => None
      end
  | _ => None
  end.

Definition dequantize (n : Z) : Q := inject_Z n / inject_Z fullScale.

(** One quantization step: the distance between neighbouring decoded values. *)
Definition quantizationStep : Q := 1 / inject_Z fullScale.

Definition decodePcmBlob (blob : AudioBlob) : option (list Q) :=
  match Base64.atob (data blob) with
  | Some bytes =>
      match int16Samples bytes with
      | Some ints => Some (map dequantize ints)
      | None => None
      end
  | None => None
  end.

End Pcm.

(** ** Application state *)

Record AppState : Type := mkApp {
  active : bool;
  history : list Message;
  centerPanel : CenterPanel;
  feedback : JsValue;
  volume : R;
  inputAudioContextRef : option AudioContext;
  outputAudioContextRef : option AudioContext;
  inputSourceRef : option AudioNode;
  processorRef : option AudioNode;
  sessionRef : option Session;
  nextStartTimeRef : Q;
  audioQueueRef : list AudioBufferSourceNode;
  allocated : nat
}.

Definition initialState : AppState :=
  {| active := false;
     history := [];
     centerPanel := {| question := JsString "Ready to start?";
                       status := JsString "Click the mic to begin";
                       transcript := EmptyString |};
     feedback := JsNull;
     volume := 0%R;
     inputAudioContextRef := None;
     outputAudioContextRef := None;
     inputSourceRef := None;
     processorRef := None;
     sessionRef := None;
     nextStartTimeRef := 0%Q;
     audioQueueRef := [];
     allocated := 0 |}.

(** What a handler does to the outside world, in order.  [GetUserMedia] is
    the microphone stream obtained by [navigator.mediaDevices.getUserMedia];
    [TrackStop] is the call that would end such a stream
    ([stream.getTracks().forEach(t => t.stop())]). *)
Inductive Effect : Type :=
| GetUserMedia
| TrackStop
| SendRealtimeInput (media : AudioBlob)
| SendToolResponse (functionResponses : list FunctionResponse)
| SessionClose
| Disconnect (n : AudioNode)
| Connect (n : AudioNode)
| ContextClose (c : AudioContext)
| SourceConnect (s : AudioBufferSourceNode)
| SourceStart (s : AudioBufferSourceNode) (when : Q)
| SourceStop (s : AudioBufferSourceNode)
| Alert (text : string).

(** ** The handler monad: state, output log, exceptions *)

Module Handler.

(** [None] as value: the handler threw (or its promise rejected). *)
Definition Outcome (A : Type) : Type := (option A * AppState * list Effect)%type.

Definition M (A : Type) : Type := AppState -> Outcome A.

Definition ret {A} (a : A) : M A := fun s => (Some a, s, []).

Definition bind {A B} (m : M A) (f : A -> M B) : M B :=
  fun s =>
    match m s with
    | (Some a, s1, out1) =>
        match f a s1 with
        | (r, s2, out2) => (r, s2, out1 ++ out2)
        end
    | (None, s1, out1) => (None, s1, out1)
    end.

Definition throw {A} : M A := fun s => (None, s, []).
Definition gets {A} (f : AppState -> A) : M A := fun s => (Some (f s), s, []).
Definition modify (f : AppState -> AppState) : M unit := fun s => (Some tt, f s, []).
Definition emit (e : Effect) : M unit := fun s => (Some tt, s, [e]).

Definition value {A} (o : Outcome A) : option A := fst (fst o).
Definition state {A} (o : Outcome A) : AppState := snd (fst o).
Definition effects {A} (o : Outcome A) : list Effect := snd o.

End Handler.
Import Handler.

Declare Scope handler_scope.
Delimit Scope handler_scope with handler.
Notation "x <- m ;; k" := (bind m (fun x => k))
  (at level 61, m at next level, right associativity) : handler_scope.
Notation "m ;; k" := (bind m (fun _ => k))
  (at level 61, right associativity) : handler_scope.
Local Open Scope handler_scope.

(** [if (c) { body }] *)
Definition when (c : bool) (body : M unit) : M unit := if c then body else ret tt.

(** [for (const x of xs) body(x)] and [xs.forEach(body)] *)
Fixpoint forEach {A} (xs : list A) (body : A -> M unit) : M unit :=
  match xs with
  | [] => ret tt
  | x :: rest => body x ;; forEach rest body
  end.

(** *** State setters *)

Definition with_question (v : JsValue) (p : CenterPanel) : CenterPanel :=
  {| question := v; status := status p; transcript := transcript p |}.
Definition with_status (v : JsValue) (p : CenterPanel) : CenterPanel :=
  {| question := question p; status := v; transcript := transcript p |}.
Definition with_transcript (t : string) (p : CenterPanel) : CenterPanel :=
  {| question := question p; status := status p; transcript := t |}.

Definition setActive (b : bool) : M unit :=
  modify (fun s => mkApp b (history s) (centerPanel s) (feedback s) (volume s)
    (inputAudioContextRef s) (outputAudioContextRef s) (inputSourceRef s)
    (processorRef s) (sessionRef s) (nextStartTimeRef s) (audioQueueRef s) (allocated s)).

Definition setHistory (f : list Message -> list Message) : M unit :=
  modify (fun s => mkApp (active s) (f (history s)) (centerPanel s) (feedback s) (volume s)
    (inputAudioContextRef s) (outputAudioContextRef s) (inputSourceRef s)
    (processorRef s) (sessionRef s) (nextStartTimeRef s) (audioQueueRef s) (allocated s)).

Definition setCenterPanel (f : CenterPanel -> CenterPanel) : M unit :=
  modify (fun s => mkApp (active s) (history s) (f (centerPanel s)) (feedback s) (volume s)
    (inputAudioContextRef s) (outputAudioContextRef s) (inputSourceRef s)
    (processorRef s) (sessionRef s) (nextStartTimeRef s) (audioQueueRef s) (allocated s)).

Definition setFeedback (v : JsValue) : M unit :=
  modify (fun s => mkApp (active s) (history s) (centerPanel s) v (volume s)
    (inputAudioContextRef s) (outputAudioContextRef s) (inputSourceRef s)
    (processorRef s) (sessionRef s) (nextStartTimeRef s) (audioQueueRef s) (allocated s)).

Definition setVolume (v : R) : M unit :=
  modify (fun s => mkApp (active s) (history s) (centerPanel s) (feedback s) v
    (inputAudioContextRef s) (outputAudioContextRef s) (inputSourceRef s)
    (processorRef s) (sessionRef s) (nextStartTimeRef s) (audioQueueRef s) (allocated s)).

Definition setInputAudioContextRef (c : option AudioContext) : M unit :=
  modify (fun s => mkApp (active s) (history s) (centerPanel s) (feedback s) (volume s)
    c (outputAudioContextRef s) (inputSourceRef s)
    (processorRef s) (sessionRef s) (nextStartTimeRef s) (audioQueueRef s) (allocated s)).

Definition setOutputAudioContextRef (c : option AudioContext) : M unit :=
  modify (fun s => mkApp (active s) (history s) (centerPanel s) (feedback s) (volume s)
    (inputAudioContextRef s) c (inputSourceRef s)
    (processorRef s) (sessionRef s) (nextStartTimeRef s) (audioQueueRef s) (allocated s)).

Definition setInputSourceRef (n : option AudioNode) : M unit :=
  modify (fun s => mkApp (active s) (history s) (centerPanel s) (feedback s) (volume s)
    (inputAudioContextRef s) (outputAudioContextRef s) n
    (processorRef s) (sessionRef s) (nextStartTimeRef s) (audioQueueRef s) (allocated s)).

Definition setProcessorRef (n : option AudioNode) : M unit :=
  modify (fun s => mkApp (active s) (history s) (centerPanel s) (feedback s) (volume s)
    (inputAudioContextRef s) (outputAudioContextRef s) (inputSourceRef s)
    n (sessionRef s) (nextStartTimeRef s) (audioQueueRef s) (allocated s)).

Definition setSessionRef (x : option Session) : M unit :=
  modify (fun s => mkApp (active s) (history s) (centerPanel s) (feedback s) (volume s)
    (inputAudioContextRef s) (outputAudioContextRef s) (inputSourceRef s)
    (processorRef s) x (nextStartTimeRef s) (audioQueueRef s) (allocated s)).

Definition setNextStartTimeRef (t : Q) : M unit :=
  modify (fun s => mkApp (active s) (history s) (centerPanel s) (feedback s) (volume s)
    (inputAudioContextRef s) (outputAudioContextRef s) (inputSourceRef s)
    (processorRef s) (sessionRef s) t (audioQueueRef s) (allocated s)).

Definition setAudioQueueRef (f : list AudioBufferSourceNode -> list AudioBufferSourceNode) : M unit :=
  modify (fun s => mkApp (active s) (history s) (centerPanel s) (feedback s) (volume s)
    (inputAudioContextRef s) (outputAudioContextRef s) (inputSourceRef s)
    (processorRef s) (sessionRef s) (nextStartTimeRef s) (f (audioQueueRef s)) (allocated s)).

Definition setAllocated (n : nat) : M unit :=
  modify (fun s => mkApp (active s) (history s) (centerPanel s) (feedback s) (volume s)
    (inputAudioContextRef s) (outputAudioContextRef s) (inputSourceRef s)
    (processorRef s) (sessionRef s) (nextStartTimeRef s) (audioQueueRef s) n).

(** ** Event router, part 1: tool calls (App.tsx 178-212) *)

(** The acknowledgment pushed for a call (lines 202-206). *)
Definition acknowledgment (call : FunctionCall) : FunctionResponse :=
  {| resp_id := call_id call;
     resp_name := call_name call;
     resp_response := JsObject [("result", JsString "success")] |}.

(** Body of [if (call.name === "update_ui")] up to the push (lines 185-200). *)
Definition update_ui (args : list (string * JsValue)) : M unit :=
  when (truthy (prop "center_panel_question" args))
    (setCenterPanel (with_question (prop "center_panel_question" args))) ;;
  when (truthy (prop "status_message" args))
    (setCenterPanel (with_status (prop "status_message" args))) ;;
  when (truthy (prop "feedback" args))
    (setFeedback (prop "feedback" args)).

(** The loop [for (const call of calls)] with its local array [responses].
    [const args = call.args as any] is read without a guard: on a call that
    carries no [args], [args.center_panel_question] (line 188) raises a
    [TypeError], before the push of line 202. *)
Fixpoint forCalls (calls : list FunctionCall) (responses : list FunctionResponse)
  : M (list FunctionResponse) :=
  match calls with
  | [] => ret responses
  | call :: rest =>
      responses' <- (if call_name call =? "update_ui"
                     then match call_args call with
                          | Some args =>
                              update_ui args ;;
                              ret (responses ++ [acknowledgment call])
                          | None => throw
                          end
                     else ret responses) ;;
      forCalls rest responses'
  end.

(** [if (msg.toolCall) { ... }]: [for (const call of calls)] (line 183) raises
    a [TypeError] when [msg.toolCall.functionCalls] is absent; the responses
    are sent (line 211) only when the loop has run to its end. *)
Definition handleToolCall (msg : LiveServerMessage) : M unit :=
  match toolCall msg with
  | Some call =>
      match functionCalls call with
      | Some calls =>
          responses <- forCalls calls [] ;;
          emit (SendToolResponse responses)
      | None => throw
      end
  | None => ret tt
  end.

(** ** Playback scheduler (App.tsx 227-241) *)

(** What the handler asks of its surroundings while it runs: the clock of the
    output context ([ctx.currentTime]), the wall clock ([Date.now()]), and the
    decoding of an inline audio payload, that is the awaited expression
    [decodeAudioData(new Uint8Array(atob(data)...), ctx)] of lines 222-225
    ([decodeAudioData] belongs to [utils/audioUtils]); [None] when [atob]
    throws or the promise rejects. *)
Record Env : Type := mkEnv {
  currentTime : Q;
  dateNow : Z;
  decodeAudioData : string -> option AudioBuffer
}.

(** [ctx.createBufferSource()] followed by [source.buffer = buffer]. *)
Definition createBufferSource (buffer : AudioBuffer) : M AudioBufferSourceNode :=
  n <- gets allocated ;;
  setAllocated (S n) ;;
  ret {| src_id := n; src_buffer := buffer |}.

(** Lines 227-237: connect, start at [max(now, cursor)], advance the cursor,
    remember the source. *)
Definition scheduleChunk (now : Q) (buffer : AudioBuffer) : M unit :=
  source <- createBufferSource buffer ;;
  emit (SourceConnect source) ;;
  cursor <- gets nextStartTimeRef ;;
  let startTime := Qmax now cursor in
  emit (SourceStart source startTime) ;;
  setNextStartTimeRef (startTime + duration buffer)%Q ;;
  setAudioQueueRef (fun queue => queue ++ [source]).

(** [splice(idx, 1)] at the first index holding [source]. *)
Fixpoint removeFirst (source : AudioBufferSourceNode) (queue : list AudioBufferSourceNode)
  : list AudioBufferSourceNode :=
  match queue with
  | [] => []
  | s :: rest => if Nat.eqb (src_id s) (src_id source) then rest
                 else s :: removeFirst source rest
  end.

(** [source.onended] (lines 238-241). *)
Definition onended (source : AudioBufferSourceNode) : M unit :=
  setAudioQueueRef (removeFirst source).

Definition isSome {A} (o : option A) : bool :=
  match o with Some _ => true | None => false end.

(** Lines 217-243: the first part with inline data, if any, is decoded and
    scheduled, provided the output context exists.  A failed decoding ends
    the handler.  Handlers are taken to run one after the other: the [await]
    on the decoding is not a point where another handler gets in. *)
Definition handleAudio (env : Env) (content : ServerContent) : M unit :=
  match modelTurn_parts content with
  | None => ret tt
  | Some parts =>
      match find (fun p => isSome (inlineData p)) parts with
      | Some audioPart =>
          match inlineData audioPart with
          | Some blob =>
              ctx <- gets outputAudioContextRef ;;
              if isSome ctx then
                match decodeAudioData env (data blob) with
                | Some buffer => scheduleChunk (currentTime env) buffer
                | None => throw
                end
              else ret tt
          | None => ret tt
          end
      | None => ret tt
      end
  end.

(** ** Event router, part 2: transcripts (App.tsx 245-276) *)

(** [Date.now().toString()] *)
Definition dateString (t : Z) : string := NilZero.string_of_int (Z.to_int t).

Definition entry (env : Env) (r : Role) (t : string) : Message :=
  {| msg_id := dateString (dateNow env);
     msg_role := r;
     msg_text := t;
     msg_timestamp := dateNow env |}.

(** Lines 246-253. *)
Definition handleOutputTranscription (env : Env) (content : ServerContent) : M unit :=
  match outputTranscription_text content with
  | Some t => when (nonEmpty t) (setHistory (fun prev => prev ++ [entry env model t]))
  | None => ret tt
  end.

(** Lines 256-265. *)
Definition handleInputTranscription (content : ServerContent) : M unit :=
  match inputTranscription_text content with
  | Some t => when (nonEmpty t) (setCenterPanel (with_transcript t))
  | None => ret tt
  end.

(** Lines 267-276.  [centerPanel] is the binding of the enclosing render,
    not the state the updaters see. *)
Definition handleTurnComplete (centerPanel : CenterPanel) (env : Env)
  (content : ServerContent) : M unit :=
  when (turnComplete content && nonEmpty (transcript centerPanel))
    (setHistory (fun prev => prev ++ [entry env user (transcript centerPanel)]) ;;
     setCenterPanel (with_transcript EmptyString)).

(** Section 2 of the handler (lines 215-277): the four blocks run one after
    the other on the same message; they are not alternatives. *)
Definition handleServerContent (centerPanel : CenterPanel) (env : Env)
  (msg : LiveServerMessage) : M unit :=
  match serverContent msg with
  | Some content =>
      handleAudio env content ;;
      handleOutputTranscription env content ;;
      handleInputTranscription content ;;
      handleTurnComplete centerPanel env content
  | None => ret tt
  end.

(** The [onmessage] callback (lines 176-278); [centerPanel] is the render-time
    binding its body refers to. *)
Definition onmessage (centerPanel : CenterPanel) (env : Env) (msg : LiveServerMessage)
  : M unit :=
  handleToolCall msg ;;
  handleServerContent centerPanel env msg.

(** ** Teardown (App.tsx 301-320) *)

(** A method call through a ref: [ref.current.m()] raises a [TypeError] when
    the ref holds [null]. *)
Definition callOn {A} (ref : AppState -> option A) (m : A -> Effect) : M unit :=
  target <- gets ref ;;
  match target with
  | Some obj => emit (m obj)
  | None => throw
  end.

Definition cleanup : M unit :=
  (p <- gets processorRef ;;
   when (isSome p) (callOn processorRef Disconnect ;; setProcessorRef None)) ;;
  (i <- gets inputSourceRef ;;
   when (isSome i) (callOn inputSourceRef Disconnect ;; setInputSourceRef None)) ;;
  (c <- gets inputAudioContextRef ;;
   when (isSome c) (callOn inputAudioContextRef ContextClose ;; setInputAudioContextRef None)) ;;
  (c <- gets outputAudioContextRef ;;
   when (isSome c) (callOn outputAudioContextRef ContextClose ;; setOutputAudioContextRef None)) ;;
  (queue <- gets audioQueueRef ;;
   forEach queue (fun s => emit (SourceStop s))) ;;
  setAudioQueueRef (fun _ => []).

(** ** Capture pipeline (App.tsx 161-171) *)

(** [for (let i = 0; i < inputData.length; i++) sum += inputData[i] * inputData[i]] *)
Fixpoint sumLoop (inputData : list Q) (sum : Q) : Q :=
  match inputData with
  | [] => sum
  | x :: rest => sumLoop rest (sum + x * x)%Q
  end.

Definition lengthQ {A} (l : list A) : Q := inject_Z (Z.of_nat (List.length l)).

Definition onaudioprocess (inputData : list Q) : M unit :=
  let sum := sumLoop inputData 0%Q in
  setVolume (sqrt (Q2R (sum / lengthQ inputData))) ;;
  let pcmBlob := Pcm.createPcmBlob inputData in
  emit (SendRealtimeInput pcmBlob).

(** ** Session life cycle (App.tsx 114-175, 279-325) *)

(** [connectToGemini]; [apiKey]: the environment holds a key, [microphone]:
    [getUserMedia] resolves.  The stream it resolves to is a local constant
    of the call (line 135), held by no ref.  The callbacks handed to
    [ai.live.connect] close over the [centerPanel] of the render that is
    current at the click. *)
Definition connectToGemini (apiKey microphone : bool) : M unit :=
  if negb apiKey then emit (Alert "API_KEY is missing in environment variables.")
  else
    setInputAudioContextRef (Some {| ctx_sampleRate := 16000 |}) ;;
    setOutputAudioContextRef (Some {| ctx_sampleRate := 24000 |}) ;;
    if microphone then
      emit GetUserMedia ;;
      rendered <- gets centerPanel ;;
      setSessionRef (Some {| closure_centerPanel := rendered |})
    else emit (Alert "Could not access microphone or connect.").

Definition onopen : M unit :=
  setActive true ;;
  setCenterPanel (with_status (JsString "Connected. Listening...")) ;;
  ctx <- gets inputAudioContextRef ;;
  when (isSome ctx)
    (setInputSourceRef (Some MediaStreamSource) ;;
     setProcessorRef (Some (ScriptProcessor 4096)) ;;
     callOn inputSourceRef Connect ;;
     callOn processorRef Connect).

Definition onclose : M unit :=
  setActive false ;;
  setCenterPanel (with_status (JsString "Session Ended")) ;;
  cleanup.

Definition onerror : M unit :=
  setActive false ;;
  setCenterPanel (with_status (JsString "Error connecting")) ;;
  cleanup.

Definition handleEndSession : M unit :=
  (session <- gets sessionRef ;; when (isSome session) (emit SessionClose)) ;;
  setActive false.

(** ** The application as a transition system *)

(** What can happen to the running page.  Session callbacks exist only for
    the session held in [sessionRef], and see that session's closure. *)
Inductive Event : Type :=
| ClickMic (apiKey microphone : bool)
| SessionOpen
| SessionMessage (env : Env) (msg : LiveServerMessage)
| SessionClosed
| SessionError
| AudioProcess (inputData : list Q)
| SourceEnded (source : AudioBufferSourceNode).

Definition withSession (callback : Session -> M unit) : M unit :=
  session <- gets sessionRef ;;
  match session with
  | Some s => callback s
  | None => ret tt
  end.

Definition handle (e : Event) : M unit :=
  match e with
  | ClickMic apiKey microphone =>
      isActive <- gets active ;;
      if isActive then handleEndSession else connectToGemini apiKey microphone
  | SessionOpen => withSession (fun _ => onopen)
  | SessionMessage env msg =>
      withSession (fun s => onmessage (closure_centerPanel s) env msg)
  | SessionClosed => withSession (fun _ => onclose)
  | SessionError => withSession (fun _ => onerror)
  | AudioProcess inputData =>
      p <- gets processorRef ;; when (isSome p) (onaudioprocess inputData)
  | SourceEnded source => onended source
  end.

(** The state after a run of events (an exception ends its own handler only). *)
Fixpoint run (events : list Event) (s : AppState) : AppState :=
  match events with
  | [] => s
  | e :: rest => run rest (state (handle e s))
  end.

(** What the page did to the outside world during the run. *)
Fixpoint output (events : list Event) (s : AppState) : list Effect :=
  match events with
  | [] => []
  | e :: rest => effects (handle e s) ++ output rest (state (handle e s))
  end.

(** ** Vocabulary of the statements *)

(** Messages carrying only a transcript event or a turn-complete signal. *)
Definition inputTranscript (t : string) : LiveServerMessage :=
  {| toolCall := None;
     serverContent := Some {| modelTurn_parts := None;
                              outputTranscription_text := None;
                              inputTranscription_text := Some t;
                              turnComplete := false |} |}.

Definition outputTranscript (t : string) : LiveServerMessage :=
  {| toolCall := None;
     serverContent := Some {| modelTurn_parts := None;
                              outputTranscription_text := Some t;
                              inputTranscription_text := None;
                              turnComplete := false |} |}.

Definition turnCompleteSignal : LiveServerMessage :=
  {| toolCall := None;
     serverContent := Some {| modelTurn_parts := None;
                              outputTranscription_text := None;
                              inputTranscription_text := None;
                              turnComplete := true |} |}.

Definition toolCallMessage (calls : list FunctionCall) : LiveServerMessage :=
  {| toolCall := Some {| functionCalls := Some calls |}; serverContent := None |}.

(** An environment for examples: the clock reads [t], nothing decodes. *)
Definition envAt (t : Z) : Env :=
  {| currentTime := 0%Q; dateNow := t; decodeAudioData := fun _ => None |}.

(** The value a field holds after an update that offers [v]: the offered
    value when it is truthy, the old one otherwise. *)
Definition pick (v old : JsValue) : JsValue := if truthy v then v else old.

Definition isUpdateUi (call : FunctionCall) : bool := call_name call =? "update_ui".

(** The call carries an [args] object. *)
Definition carriesArgs (call : FunctionCall) : bool := isSome (call_args call).

(** [call.args.k], for a call that carries [args]. *)
Definition argument (k : string) (call : FunctionCall) : JsValue :=
  match call_args call with
  | Some args => prop k args
  | None => JsUndefined
  end.

(** The calls at which the loop raises: [update_ui] without [args]. *)
Definition raises (call : FunctionCall) : bool := isUpdateUi call && negb (carriesArgs call).

(** The calls of a batch that the loop gets through: those before the first
    one at which it raises. *)
Fixpoint reached (calls : list FunctionCall) : list FunctionCall :=
  match calls with
  | [] => []
  | call :: rest => if raises call then [] else call :: reached rest
  end.

(** The loop runs to the end of the batch. *)
Definition completes (calls : list FunctionCall) : bool :=
  forallb (fun call => negb (raises call)) calls.

Definition isSuccess (r : FunctionResponse) : Prop :=
  resp_response r = JsObject [("result", JsString "success")].

(** Reading an output log: the entries a selector picks, in order. *)
Fixpoint collect {X} (sel : Effect -> option X) (out : list Effect) : list X :=
  match out with
  | [] => []
  | e :: rest =>
      match sel e with
      | Some x => x :: collect sel rest
      | None => collect sel rest
      end
  end.

Definition asToolResponse (e : Effect) : option (list FunctionResponse) :=
  match e with SendToolResponse rs => Some rs | _ => None end.

(** A scheduled chunk: its start time and its duration. *)
Definition asScheduled (e : Effect) : option (Q * Q) :=
  match e with
  | SourceStart source when => Some (when, duration (src_buffer source))
  | _ => None
  end.

(** The batches of acknowledgments sent, and the chunks scheduled. *)
Definition toolResponses (out : list Effect) : list (list FunctionResponse) :=
  collect asToolResponse out.
Definition scheduled (out : list Effect) : list (Q * Q) :=
  collect asScheduled out.

(** The handler does not change the part [f] of the state. *)
Definition keeps {X A} (f : AppState -> X) (m : M A) : Prop :=
  forall s, f (state (m s)) = f s.

(** The handler produces no output that [sel] picks. *)
Definition mute {X A} (sel : Effect -> option X) (m : M A) : Prop :=
  forall s, collect sel (effects (m s)) = [].

(** The panels an [update_ui] call may write. *)
Definition panels (s : AppState) : JsValue * JsValue * JsValue :=
  (question (centerPanel s), status (centerPanel s), feedback s).

(** The handler leaves the history in place and adds at most [n] entries at
    its end. *)
Definition extends {A} (n : nat) (m : M A) : Prop :=
  forall s, exists added,
    history (state (m s)) = history s ++ added /\ List.length added <= n.

(** The history is as before, or as before with one entry more at the end. *)
Definition unchangedOrOneAppended (before after : list Message) : Prop :=
  after = before \/ exists e, after = before ++ [e].

(** A first session in which the user said "hi", closed, and a second
    session opened from the page as it then stands. *)
Definition secondSession : list Event :=
  [ ClickMic true true; SessionOpen;
    SessionMessage (envAt 1) (inputTranscript "hi");
    SessionClosed;
    ClickMic true true; SessionOpen ].

(** A first session hearing the partial transcripts "h", "he", "hello" and
    then the end of the turn. *)
Definition helloTurn : list Event :=
  [ ClickMic true true; SessionOpen;
    SessionMessage (envAt 1) (inputTranscript "h");
    SessionMessage (envAt 2) (inputTranscript "he");
    SessionMessage (envAt 3) (inputTranscript "hello");
    SessionMessage (envAt 4) turnCompleteSignal ].

(** The same partial transcripts and turn end, heard in a second session. *)
Definition helloTurnInSecondSession : list Event :=
  secondSession ++
  [ SessionMessage (envAt 1) (inputTranscript "h");
    SessionMessage (envAt 2) (inputTranscript "he");
    SessionMessage (envAt 3) (inputTranscript "hello");
    SessionMessage (envAt 4) turnCompleteSignal ].

(** One message with an output-transcript chunk and the turn-complete flag. *)
Definition lastChunkOfTurn (t : string) : LiveServerMessage :=
  {| toolCall := None;
     serverContent := Some {| modelTurn_parts := None;
                              outputTranscription_text := Some t;
                              inputTranscription_text := None;
                              turnComplete := true |} |}.

(** An output-transcript chunk that comes with inline audio. *)
Definition chunkWithAudio (payload t : string) : LiveServerMessage :=
  {| toolCall := None;
     serverContent := Some {| modelTurn_parts :=
                                Some [ {| inlineData := Some {| data := payload;
                                                                mimeType := "audio/pcm;rate=24000" |} |} ];
                              outputTranscription_text := Some t;
                              inputTranscription_text := None;
                              turnComplete := false |} |}.

(** The schedule the specification describes: each chunk starts at
    [max(currentTime, cursor)], and the cursor then moves on by the chunk's
    duration. *)
Fixpoint expectedSchedule (cursor : Q) (chunks : list (Q * AudioBuffer)) : list (Q * Q) :=
  match chunks with
  | [] => []
  | (now, buffer) :: rest =>
      (Qmax now cursor, duration buffer)
        :: expectedSchedule (Qmax now cursor + duration buffer)%Q rest
  end.

Fixpoint cursorAfter (cursor : Q) (chunks : list (Q * AudioBuffer)) : Q :=
  match chunks with
  | [] => cursor
  | (now, buffer) :: rest => cursorAfter (Qmax now cursor + duration buffer)%Q rest
  end.

(** A message like [msg] whose tool call holds [calls]. *)
Definition withCalls (calls : list FunctionCall) (msg : LiveServerMessage) : LiveServerMessage :=
  {| toolCall := Some {| functionCalls := Some calls |}; serverContent := serverContent msg |}.

(** Chunks handled one after the other, each with the clock reading at its
    turn. *)
Definition scheduleAll (chunks : list (Q * AudioBuffer)) : M unit :=
  forEach chunks (fun chunk => scheduleChunk (fst chunk) (snd chunk)).

(** A chunk that starts at [fst a] and lasts [snd a] is over when [b] starts. *)
Definition endsBefore (a b : Q * Q) : Prop := (fst a + snd a <= fst b)%Q.

(** The handler schedules nothing and leaves the cursor, or schedules one
    chunk at [max(now, cursor)] and moves the cursor to its end. *)
Definition schedulesAtMostOne {A} (m : M A) : Prop :=
  forall s,
    (scheduled (effects (m s)) = [] /\
     nextStartTimeRef (state (m s)) = nextStartTimeRef s) \/
    (exists now buffer,
       scheduled (effects (m s)) = [(Qmax now (nextStartTimeRef s), duration buffer)] /\
       nextStartTimeRef (state (m s)) = (Qmax now (nextStartTimeRef s) + duration buffer)%Q).

(** A message whose model turn carries one inline audio part. *)
Definition audioMessage (payload : string) : LiveServerMessage :=
  {| toolCall := None;
     serverContent := Some {| modelTurn_parts :=
                                Some [ {| inlineData := Some {| data := payload;
                                                                mimeType := "audio/pcm;rate=24000" |} |} ];
                              outputTranscription_text := None;
                              inputTranscription_text := None;
                              turnComplete := false |} |}.

(** An environment for examples, whose payloads are well-formed base64: each
    decodes to half a second of audio (12000 frames at 24 kHz). *)
Definition envPlaying (now : Q) : Env :=
  {| currentTime := now; dateNow := 0;
     decodeAudioData := fun _ => Some {| buf_length := 12000; buf_sampleRate := 24000 |} |}.

(** Three audio messages in one session: the second arrives while the first
    still plays, the third after a pause. *)
Definition threeChunks : list Event :=
  [ ClickMic true true; SessionOpen;
    SessionMessage (envPlaying 0) (audioMessage "Zmlyc3Q=");
    SessionMessage (envPlaying (1 # 10)) (audioMessage "c2Vjb25k");
    SessionMessage (envPlaying 3) (audioMessage "dGhpcmQ=") ].

(** The effect of a guarded call on a ref: one call when the ref is set. *)
Definition whenSet {A} (ref : option A) (m : A -> Effect) : list Effect :=
  match ref with
  | Some obj => [m obj]
  | None => []
  end.

(** The state with every audio ref cleared and the playback queue empty. *)
Definition tornDown (s : AppState) : AppState :=
  mkApp (active s) (history s) (centerPanel s) (feedback s) (volume s)
    None None None None (sessionRef s) (nextStartTimeRef s) [] (allocated s).

(** A page in mid-session with two chunks still queued for playback. *)
Definition midSession : AppState :=
  run [ ClickMic true true; SessionOpen;
        SessionMessage (envPlaying 0) (audioMessage "Zmlyc3Q=");
        SessionMessage (envPlaying (1 # 10)) (audioMessage "c2Vjb25k") ] initialState.

Definition asStopped (e : Effect) : option AudioBufferSourceNode :=
  match e with SourceStop source => Some source | _ => None end.

(** The root mean square of a window: [sqrt((x_0^2 + ... + x_{N-1}^2) / N)]. *)
Definition sumOfSquares (xs : list R) : R :=
  fold_right (fun x acc => x * x + acc)%R 0%R xs.

Definition rootMeanSquare (xs : list R) : R :=
  sqrt (sumOfSquares xs / INR (List.length xs)).

(** A byte. *)
Definition isByte (b : Z) : Prop := (0 <= b < 256)%Z.

(** A sample of the nominal range. *)
Definition inRange (x : Q) : Prop := (-1 <= x /\ x <= 1)%Q.

(** ** Vocabulary of the further properties *)

Definition isSessionMessage (e : Event) : bool :=
  match e with SessionMessage _ _ => true | _ => false end.

(** The handler leaves the history in place and adds at its end only entries
    that satisfy [P]. *)
Definition extendsWith {A} (P : Message -> Prop) (m : M A) : Prop :=
  forall s, exists added,
    history (state (m s)) = history s ++ added /\ Forall P added.

(** What a session whose callbacks captured [captured] can add to the
    history: a model entry, or a user entry with the captured transcript. *)
Definition committedBy (captured : CenterPanel) (m : Message) : Prop :=
  msg_role m = model \/
  (msg_role m = user /\ msg_text m = transcript captured /\
   transcript captured <> EmptyString).

(** The value of the argument [k] in the last [update_ui] call of a batch
    that offers a truthy one; [old] when no call does. *)
Fixpoint lastTruthy (k : string) (calls : list FunctionCall) (old : JsValue) : JsValue :=
  match calls with
  | [] => old
  | call :: rest =>
      lastTruthy k rest
        (if isUpdateUi call then pick (argument k call) old else old)
  end.

(** The last non-empty text of a list; [old] when there is none. *)
Fixpoint lastNonEmpty (texts : list string) (old : string) : string :=
  match texts with
  | [] => old
  | t :: rest => lastNonEmpty rest (if nonEmpty t then t else old)
  end.

(** Input-transcript messages, each with the environment it arrives in. *)
Definition inputTranscripts (texts : list (Env * string)) : list Event :=
  map (fun p => SessionMessage (fst p) (inputTranscript (snd p))) texts.

(** The sources of the playback queue are distinct objects, all created
    already. *)
Definition queueWellFormed (s : AppState) : Prop :=
  NoDup (map src_id (audioQueueRef s)) /\
  Forall (fun source => src_id source < allocated s) (audioQueueRef s).

Definition preservesQueue {A} (m : M A) : Prop :=
  forall s, queueWellFormed s -> queueWellFormed (state (m s)).

(** The queue and the allocation counter. *)
Definition playback (s : AppState) : list AudioBufferSourceNode * nat :=
  (audioQueueRef s, allocated s).

Definition isNot (source : AudioBufferSourceNode) (other : AudioBufferSourceNode) : bool :=
  negb (Nat.eqb (src_id other) (src_id source)).

Definition asStarted (e : Effect) : option AudioBufferSourceNode :=
  match e with SourceStart source _ => Some source | _ => None end.

(** Whatever the handler leaves in the queue was there before or was started
    by the handler. *)
Definition queuesOnlyStarted {A} (m : M A) : Prop :=
  forall s source,
    In source (audioQueueRef (state (m s))) ->
    In source (audioQueueRef s) \/ In source (collect asStarted (effects (m s))).

(** The first inline audio payload of a message content, the one
    [parts.find(p => p.inlineData)] picks. *)
Definition firstInline (content : ServerContent) : option AudioBlob :=
  match modelTurn_parts content with
  | Some parts =>
      match find (fun p => isSome (inlineData p)) parts with
      | Some audioPart => inlineData audioPart
      | None => None
      end
  | None => None
  end.

Definition asSessionClose (e : Effect) : option unit :=
  match e with SessionClose => Some tt | _ => None end.

(** The calls that end a microphone stream. *)
Definition asTrackStop (e : Effect) : option unit :=
  match e with TrackStop => Some tt | _ => None end.

(** Session messages, each with the environment it arrives in. *)
Definition sessionMessages (msgs : list (Env * LiveServerMessage)) : list Event :=
  map (fun p => SessionMessage (fst p) (snd p)) msgs.

(** A whole session: start, open, messages, stop click, close. *)
Definition wholeSession (msgs : list (Env * LiveServerMessage)) : list Event :=
  [ClickMic true true; SessionOpen] ++ sessionMessages msgs
    ++ [ClickMic true true; SessionClosed].

(** The end of one session and the start of the next. *)
Definition restart : list Event := [SessionClosed; ClickMic true true; SessionOpen].

Definition isSessionEvent (e : Event) : bool :=
  match e with
  | SessionOpen | SessionMessage _ _ | SessionClosed | SessionError => true
  | _ => false
  end.

(** The message without its model turn. *)
Definition withoutAudio (msg : LiveServerMessage) : LiveServerMessage :=
  {| toolCall := toolCall msg;
     serverContent :=
       match serverContent msg with
       | Some content =>
           Some {| modelTurn_parts := None;
                   outputTranscription_text := outputTranscription_text content;
                   inputTranscription_text := inputTranscription_text content;
                   turnComplete := turnComplete content |}
       | None => None
       end |}.

(** ** Configuration (App.tsx 79-83 and 328-330) *)

(** The [config] state object: its keys in order, with their values. *)
Definition Config : Type := list (string * string).

Definition initialConfig : Config :=
  [("role", "Software Engineer"); ("difficulty", "Medium"); ("mode", "hr_interview")].

(** The object literal [{ ...o, [k]: v }]: the properties of [o] in their
    order, [k] taking the value [v] in place, or added at the end when [o] has
    no such key.  (The keys here are the names of the [select]s, none of them
    integer-like; JavaScript would list an integer-like key first.) *)
Fixpoint assign (k v : string) (o : Config) : Config :=
  match o with
  | [] => [(k, v)]
  | (k', v') :: rest => if k =? k' then (k', v) :: rest else (k', v') :: assign k v rest
  end.

(** [handleConfigChange], for the event of a [select] named [name] whose
    chosen value is [value]. *)
Definition handleConfigChange (name value : string) (config : Config) : Config :=
  assign name value config.

(** The property read [o[k]]. *)
Fixpoint readKey (k : string) (o : Config) : option string :=
  match o with
  | [] => None
  | (k', v) :: rest => if k =? k' then Some v else readKey k rest
  end.

(** Change events handled one after the other, each on the result of the
    one before. *)
Definition changeAll (changes : list (string * string)) (config : Config) : Config :=
  fold_left (fun c change => handleConfigChange (fst change) (snd change) c) changes config.

(** The value of the last change that names [k]; [initial] when none does. *)
Definition lastChange (k : string) (changes : list (string * string))
  (initial : option string) : option string :=
  fold_left (fun acc change => if k =? fst change then Some (snd change) else acc)
            changes initial.

(** ** The visualizer ([Visualizer], lines 26-87 of the second source file) *)

Module Visualizer.

(** A call [ctx.roundRect(x, y, w, h, 4)]. *)
Record Rect : Type := mkRect {
  rect_x : Q;
  rect_y : Q;
  rect_w : Q;
  rect_h : Q
}.

(** [Array(20).fill(10)] *)
Definition initialBars : list Q := repeat 10%Q 20.

(** [bars.map(() => Math.random() * (height * 0.8) + 5)]; [random i] is what
    the [i]-th call of [Math.random] in the frame returns. *)
Fixpoint randomize (random : nat -> Q) (i : nat) (height : Q) (bars : list Q) : list Q :=
  match bars with
  | [] => []
  | _ :: rest =>
      (random i * (height * (8 # 10)) + 5)%Q :: randomize random (S i) height rest
  end.

(** [bars.map(h => Math.max(4, h * 0.9))] *)
Definition decay (bars : list Q) : list Q :=
  map (fun h => Qmax 4 (h * (9 # 10))%Q) bars.

(** The [forEach] that draws the bars, from index [i] on. *)
Fixpoint draw (i : nat) (barWidth height : Q) (bars : list Q) : list Rect :=
  match bars with
  | [] => []
  | h :: rest =>
      {| rect_x := (inject_Z (Z.of_nat i) * (barWidth + 4) + 2)%Q;
         rect_y := ((height - h) / 2)%Q;
         rect_w := barWidth;
         rect_h := h |} :: draw (S i) barWidth height rest
  end.

(** One call of [animate] on a canvas of the given size: the new bars and
    the rectangles drawn. *)
Definition animate (isActive : bool) (random : nat -> Q) (width height : Q)
  (bars : list Q) : list Q * list Rect :=
  let barWidth := (width / lengthQ bars - 4)%Q in
  let bars' := if isActive then randomize random 0 height bars else decay bars in
  (bars', draw 0 barWidth height bars').

(** What drives the component: the effect starts (on mount, and again when
    [isActive] or [color] changes), which resets the bars and draws a first
    frame at once, or the browser calls [animate] for the next frame.  Each
    carries the random draws of its frame. *)
Inductive Tick : Type :=
| EffectStart (isActive : bool) (random : nat -> Q)
| NextFrame (random : nat -> Q).

Definition draws (t : Tick) : nat -> Q :=
  match t with EffectStart _ random => random | NextFrame random => random end.

(** The bars after a sequence of ticks; [isActive] is the prop the running
    effect closed over. *)
Fixpoint animateAll (ticks : list Tick) (width height : Q)
  (isActive : bool) (bars : list Q) : list Q :=
  match ticks with
  | [] => bars
  | EffectStart isActive' random :: rest =>
      animateAll rest width height isActive'
        (fst (animate isActive' random width height initialBars))
  | NextFrame random :: rest =>
      animateAll rest width height isActive
        (fst (animate isActive random width height bars))
  end.

(** What [Math.random] may return. *)
Definition unitInterval (random : nat -> Q) : Prop :=
  forall i, (0 <= random i /\ random i < 1)%Q.

(** The heights the code produces on a canvas of height [height]. *)
Definition inBand (height : Q) (h : Q) : Prop :=
  (4 <= h /\ h <= height * (8 # 10) + 5)%Q.

End Visualizer.

(* ===================================================================== *)
(** * Part II: properties                                                 *)
(* ===================================================================== *)

(** ** Running handlers *)

Lemma run_bind {A B} (m : M A) (k : A -> M B) s a s1 out1 :
  m s = (Some a, s1, out1) ->
  bind m k s = (value (k a s1), state (k a s1), out1 ++ effects (k a s1)).
Proof.
  intros E. unfold bind, value, state, effects. rewrite E.
  destruct (k a s1) as [[r s2] out2]. reflexivity.
Qed.


(** A step that returns hands over to its continuation. *)
Lemma bind_returned {A B} (m : M A) (k : A -> M B) s a :
  value (m s) = Some a ->
  value (bind m k s) = value (k a (state (m s))) /\
  state (bind m k s) = state (k a (state (m s))) /\
  effects (bind m k s) = effects (m s) ++ effects (k a (state (m s))).
Proof.
  unfold bind, value, state, effects.
  destruct (m s) as [[r s1] out1]. simpl. intros ->.
  destruct (k a s1) as [[r s2] out2]. repeat split.
Qed.

Lemma bind_returns {A B} (m : M A) (k : A -> M B) s b :
  value (bind m k s) = Some b ->
  exists a, value (m s) = Some a /\
            value (k a (state (m s))) = Some b /\
            state (bind m k s) = state (k a (state (m s))).
Proof.
  unfold bind, value, state. destruct (m s) as [[[a |] s1] out1]; simpl.
  - intros H. exists a. destruct (k a s1) as [[r s2] out2]. simpl in *.
    repeat split. exact H.
  - discriminate.
Qed.

(** ** Tool calls *)

Lemma pick_falsy v old : truthy v = false -> pick v old = old.
Proof. unfold pick. intros ->. reflexivity. Qed.


Lemma pick_not_empty v old :
  old <> JsString EmptyString -> pick v old <> JsString EmptyString.
Proof.
  intros Hold. unfold pick. destruct (truthy v) eqn:T; [| exact Hold].
  intros ->. discriminate T.
Qed.

Lemma prop_absent k args : ~ In k (map fst args) -> prop k args = JsUndefined.
Proof.
  induction args as [| [k' v] rest IH]; simpl; intros H; [reflexivity |].
  destruct (String.eqb_spec k k') as [-> | _].
  - exfalso. apply H. left. reflexivity.
  - apply IH. intros Hin. apply H. right. exact Hin.
Qed.

(** What one [update_ui] call does, field by field. *)
Lemma update_ui_run args s :
  update_ui args s =
  (Some tt,
   mkApp (active s) (history s)
     {| question := pick (prop "center_panel_question" args) (question (centerPanel s));
        status := pick (prop "status_message" args) (status (centerPanel s));
        transcript := transcript (centerPanel s) |}
     (pick (prop "feedback" args) (feedback s))
     (volume s) (inputAudioContextRef s) (outputAudioContextRef s)
     (inputSourceRef s) (processorRef s) (sessionRef s) (nextStartTimeRef s)
     (audioQueueRef s) (allocated s),
   []).
Proof.
  unfold update_ui, pick, when, bind, setCenterPanel, setFeedback, modify, ret,
    with_question, with_status.
  destruct s as [a h [q st t] f v ic oc isr pr sr ns aq al]; simpl.
  destruct (truthy (prop "center_panel_question" args));
    destruct (truthy (prop "status_message" args));
    destruct (truthy (prop "feedback" args)); reflexivity.
Qed.

(** C10: an [update_ui] call changes the question, the status and the
    feedback only where its argument is present and truthy; an absent
    argument or an empty string leaves the field as it was, so a non-empty
    question or status never becomes the empty string; the transcript, the
    history and every other piece of state are untouched, and each of the
    three state updates changes its own field only. *)
Theorem update_ui_changes_only_truthy_fields (args : list (string * JsValue)) (s : AppState) :
  let s' := state (update_ui args s) in
  value (update_ui args s) = Some tt /\
  effects (update_ui args s) = [] /\
  question (centerPanel s') = pick (prop "center_panel_question" args) (question (centerPanel s)) /\
  status (centerPanel s') = pick (prop "status_message" args) (status (centerPanel s)) /\
  feedback s' = pick (prop "feedback" args) (feedback s) /\
  (forall k, ~ In k (map fst args) -> prop k args = JsUndefined) /\
  (forall old, pick JsUndefined old = old /\ pick (JsString EmptyString) old = old) /\
  (forall v old, truthy v = false -> pick v old = old) /\
  (question (centerPanel s) <> JsString EmptyString -> question (centerPanel s') <> JsString EmptyString) /\
  (status (centerPanel s) <> JsString EmptyString -> status (centerPanel s') <> JsString EmptyString) /\
  transcript (centerPanel s') = transcript (centerPanel s) /\
  s' = mkApp (active s) (history s) (centerPanel s') (feedback s') (volume s)
         (inputAudioContextRef s) (outputAudioContextRef s) (inputSourceRef s)
         (processorRef s) (sessionRef s) (nextStartTimeRef s) (audioQueueRef s)
         (allocated s) /\
  (forall v p, status (with_question v p) = status p /\ transcript (with_question v p) = transcript p) /\
  (forall v p, question (with_status v p) = question p /\ transcript (with_status v p) = transcript p).
Proof.
  intros s'. subst s'. rewrite update_ui_run. unfold value, state, effects. simpl.
  repeat split; try reflexivity.
  - intros k. apply prop_absent.
  - intros v old. apply pick_falsy.
  - apply pick_not_empty.
  - apply pick_not_empty.
Qed.

(** An update that offers the empty string for the question, on the page as
    first rendered. *)
Lemma update_ui_changes_only_truthy_fields_witness :
  question (centerPanel (state (update_ui
     [("center_panel_question", JsString EmptyString); ("status_message", JsString "Evaluating...")]
     initialState))) <> JsString EmptyString /\
  status (centerPanel (state (update_ui
     [("center_panel_question", JsString EmptyString); ("status_message", JsString "Evaluating...")]
     initialState))) = JsString "Evaluating...".
Proof.
  pose proof (update_ui_changes_only_truthy_fields
     [("center_panel_question", JsString EmptyString); ("status_message", JsString "Evaluating...")]
     initialState) as H.
  cbv zeta in H.
  destruct H as (_ & _ & _ & Hs & _ & _ & _ & _ & Hq & _).
  split.
  - apply Hq. simpl. discriminate.
  - rewrite Hs. reflexivity.
Defined.

(** The loop, call by call. *)
Lemma forCalls_cons call rest responses s :
  forCalls (call :: rest) responses s =
  if isUpdateUi call
  then match call_args call with
       | Some args =>
           forCalls rest (responses ++ [acknowledgment call]) (state (update_ui args s))
       | None => (None, s, [])
       end
  else forCalls rest responses s.
Proof.
  unfold isUpdateUi. simpl forCalls.
  destruct (call_name call =? "update_ui").
  - destruct (call_args call) as [args |].
    + unfold bind. rewrite update_ui_run. unfold ret, state. simpl.
      destruct (forCalls rest (responses ++ [acknowledgment call]) _) as [[r s2] out2].
      reflexivity.
    + reflexivity.
  - unfold bind, ret.
    destruct (forCalls rest responses s) as [[r s2] out2]. reflexivity.
Qed.

Lemma raises_args call args : call_args call = Some args -> raises call = false.
Proof. intros H. unfold raises, carriesArgs. rewrite H. apply andb_false_r. Qed.

Lemma raises_no_args call :
  isUpdateUi call = true -> call_args call = None -> raises call = true.
Proof. intros U H. unfold raises, carriesArgs. rewrite U, H. reflexivity. Qed.

Lemma raises_other_name call : isUpdateUi call = false -> raises call = false.
Proof. intros U. unfold raises. rewrite U. reflexivity. Qed.

(** The loop sends nothing itself.  When every [update_ui] call carries
    [args] it returns the acknowledgments of the [update_ui] calls, in order;
    otherwise it raises. *)
Lemma forCalls_run calls : forall responses s,
  value (forCalls calls responses s) =
    (if completes calls
     then Some (responses ++ map acknowledgment (filter isUpdateUi calls))
     else None) /\
  effects (forCalls calls responses s) = [].
Proof.
  induction calls as [| call rest IH]; intros responses s.
  - simpl. unfold ret, value, effects. simpl. rewrite app_nil_r. split; reflexivity.
  - rewrite forCalls_cons. simpl filter. simpl completes.
    destruct (isUpdateUi call) eqn:U.
    + destruct (call_args call) as [args |] eqn:A.
      * rewrite (raises_args call args A). simpl negb. simpl andb.
        destruct (IH (responses ++ [acknowledgment call]) (state (update_ui args s)))
          as [Hv He].
        rewrite Hv, He. simpl map. rewrite <- app_assoc. split; reflexivity.
      * rewrite (raises_no_args call U A). split; reflexivity.
    + rewrite (raises_other_name call U). apply IH.
Qed.

(** Calls with another name do not take part in the loop. *)
Lemma forCalls_filter calls : forall responses s,
  forCalls calls responses s = forCalls (filter isUpdateUi calls) responses s.
Proof.
  induction calls as [| call rest IH]; intros responses s; [reflexivity |].
  rewrite forCalls_cons. simpl filter.
  destruct (isUpdateUi call) eqn:E.
  - rewrite forCalls_cons, E. destruct (call_args call); [apply IH | reflexivity].
  - apply IH.
Qed.

Lemma completes_filter calls : completes (filter isUpdateUi calls) = completes calls.
Proof.
  induction calls as [| call rest IH]; [reflexivity |].
  simpl. destruct (isUpdateUi call) eqn:U.
  - simpl. rewrite IH. reflexivity.
  - rewrite (raises_other_name call U). exact IH.
Qed.

Lemma reached_completes calls : completes calls = true -> reached calls = calls.
Proof.
  induction calls as [| call rest IH]; [reflexivity |].
  simpl. destruct (raises call); simpl; [discriminate |].
  intros H. rewrite (IH H). reflexivity.
Qed.

(** The tool-call block on a batch: the batch of acknowledgments goes out
    when the loop has run to its end, and only then. *)
Lemma handleToolCall_run calls s :
  handleToolCall (toolCallMessage calls) s =
  (if completes calls then Some tt else None,
   state (forCalls calls [] s),
   if completes calls
   then [SendToolResponse (map acknowledgment (filter isUpdateUi calls))]
   else []).
Proof.
  unfold handleToolCall, toolCallMessage. simpl.
  destruct (forCalls_run calls [] s) as [Hv He].
  unfold bind, emit, value, state, effects in *.
  destruct (forCalls calls [] s) as [[r s1] out1]. simpl in *.
  subst r out1. destruct (completes calls); reflexivity.
Qed.

(** ** Frames: what a handler leaves alone *)

Section Frames.

Context {X : Type} (f : AppState -> X).

Lemma keeps_ret {A} (a : A) : keeps f (ret a).
Proof. intros s. reflexivity. Qed.

Lemma keeps_throw {A} : keeps f (@throw A).
Proof. intros s. reflexivity. Qed.

Lemma keeps_gets {A} (g : AppState -> A) : keeps f (gets g).
Proof. intros s. reflexivity. Qed.

Lemma keeps_emit e : keeps f (emit e).
Proof. intros s. reflexivity. Qed.

Lemma keeps_bind {A B} (m : M A) (k : A -> M B) :
  keeps f m -> (forall a, keeps f (k a)) -> keeps f (bind m k).
Proof.
  intros Hm Hk s. specialize (Hm s). unfold bind, state in *.
  destruct (m s) as [[[a |] s1] out1]; simpl in *; [| exact Hm].
  specialize (Hk a s1). unfold state in Hk.
  destruct (k a s1) as [[r s2] out2]. simpl in *. congruence.
Qed.

Lemma keeps_when c (body : M unit) : keeps f body -> keeps f (when c body).
Proof. intros H. destruct c; [exact H | apply keeps_ret]. Qed.

Lemma keeps_forEach {A} (xs : list A) (body : A -> M unit) :
  (forall x, keeps f (body x)) -> keeps f (forEach xs body).
Proof.
  intros H. induction xs as [| x rest IH]; simpl.
  - apply keeps_ret.
  - apply keeps_bind; [apply H | intros _; exact IH].
Qed.

Lemma keeps_callOn {A} (ref : AppState -> option A) (m : A -> Effect) : keeps f (callOn ref m).
Proof.
  unfold callOn. apply keeps_bind; [apply keeps_gets |].
  intros [obj |]; [apply keeps_emit | apply keeps_throw].
Qed.

End Frames.

Section Mute.

Context {X : Type} (sel : Effect -> option X).

Lemma collect_app out1 out2 : collect sel (out1 ++ out2) = collect sel out1 ++ collect sel out2.
Proof.
  induction out1 as [| e rest IH]; simpl; [reflexivity |].
  destruct (sel e); simpl; rewrite IH; reflexivity.
Qed.

Lemma mute_ret {A} (a : A) : mute sel (ret a).
Proof. intros s. reflexivity. Qed.

Lemma mute_throw {A} : mute sel (@throw A).
Proof. intros s. reflexivity. Qed.

Lemma mute_gets {A} (g : AppState -> A) : mute sel (gets g).
Proof. intros s. reflexivity. Qed.

Lemma mute_modify g : mute sel (modify g).
Proof. intros s. reflexivity. Qed.

Lemma mute_emit e : sel e = None -> mute sel (emit e).
Proof. intros H s. unfold emit, effects. simpl. rewrite H. reflexivity. Qed.

Lemma mute_bind {A B} (m : M A) (k : A -> M B) :
  mute sel m -> (forall a, mute sel (k a)) -> mute sel (bind m k).
Proof.
  intros Hm Hk s. specialize (Hm s). unfold bind, effects in *.
  destruct (m s) as [[[a |] s1] out1]; simpl in *; [| exact Hm].
  specialize (Hk a s1). unfold effects in Hk.
  destruct (k a s1) as [[r s2] out2]. simpl in *.
  rewrite collect_app, Hm, Hk. reflexivity.
Qed.

Lemma mute_when c (body : M unit) : mute sel body -> mute sel (when c body).
Proof. intros H. destruct c; [exact H | apply mute_ret]. Qed.

Lemma mute_forEach {A} (xs : list A) (body : A -> M unit) :
  (forall x, mute sel (body x)) -> mute sel (forEach xs body).
Proof.
  intros H. induction xs as [| x rest IH]; simpl.
  - apply mute_ret.
  - apply mute_bind; [apply H | intros _; exact IH].
Qed.

Lemma mute_callOn {A} (ref : AppState -> option A) (m : A -> Effect) :
  (forall obj, sel (m obj) = None) -> mute sel (callOn ref m).
Proof.
  intros H. unfold callOn. apply mute_bind; [apply mute_gets |].
  intros [obj |]; [apply mute_emit, H | apply mute_throw].
Qed.

End Mute.

(** Splitting a handler into its steps. *)
Ltac step_frames :=
  repeat first
    [ apply keeps_bind; [| intros ?]
    | apply mute_bind; [| intros ?]
    | apply keeps_when | apply mute_when
    | apply keeps_ret | apply mute_ret
    | apply keeps_throw | apply mute_throw
    | apply keeps_gets | apply mute_gets
    | apply keeps_emit
    | apply keeps_callOn
    | apply mute_modify
    | apply mute_emit; reflexivity
    | apply mute_callOn; intros ?; reflexivity
    | apply keeps_forEach; intros ?
    | apply mute_forEach; intros ? ].

Ltac case_frames :=
  match goal with
  | |- keeps _ (match ?x with _ => _ end) => destruct x
  | |- mute _ (match ?x with _ => _ end) => destruct x
  | |- keeps _ (if ?x then _ else _) => destruct x
  | |- mute _ (if ?x then _ else _) => destruct x
  end.

Ltac frames :=
  repeat (step_frames; try case_frames);
  try (intros ?; reflexivity).

Ltac open_handlers :=
  unfold handleServerContent, handleAudio, handleOutputTranscription,
    handleInputTranscription, handleTurnComplete, scheduleChunk, createBufferSource.

Lemma handleServerContent_keeps_panels cp env msg :
  keeps panels (handleServerContent cp env msg).
Proof. open_handlers. frames. Qed.

Lemma handleServerContent_mute_toolResponses cp env msg :
  mute asToolResponse (handleServerContent cp env msg).
Proof. open_handlers. frames. Qed.

Lemma handleToolCall_reads_calls msg calls :
  toolCall msg = Some {| functionCalls := Some calls |} ->
  handleToolCall msg = handleToolCall (toolCallMessage calls).
Proof. intros H. unfold handleToolCall. rewrite H. reflexivity. Qed.

(** A message with a tool call: when the loop runs to the end of the batch,
    the acknowledgments go out first and the rest of the handler neither
    sends another batch nor touches the panels; when it raises, the handler
    stops there and nothing is sent. *)
Lemma onmessage_toolCall cp env msg calls s :
  toolCall msg = Some {| functionCalls := Some calls |} ->
  toolResponses (effects (onmessage cp env msg s)) =
    (if completes calls then [map acknowledgment (filter isUpdateUi calls)] else []) /\
  panels (state (onmessage cp env msg s)) = panels (state (forCalls calls [] s)) /\
  (completes calls = false ->
   onmessage cp env msg s = (None, state (forCalls calls [] s), [])).
Proof.
  intros H. unfold onmessage.
  pose proof (handleToolCall_run calls s) as E.
  rewrite <- (handleToolCall_reads_calls msg calls H) in E.
  destruct (completes calls).
  - rewrite (run_bind _ _ _ _ _ _ E). unfold effects at 1, state at 1. simpl.
    split; [| split; [| discriminate]].
    + unfold toolResponses. simpl. f_equal.
      apply handleServerContent_mute_toolResponses.
    + apply handleServerContent_keeps_panels.
  - unfold bind. rewrite E. repeat split.
Qed.

Lemma filter_idem {A} (f : A -> bool) (l : list A) : filter f (filter f l) = filter f l.
Proof.
  induction l as [| x rest IH]; simpl; [reflexivity |].
  destruct (f x) eqn:E; simpl; [rewrite E, IH |]; auto.
Qed.

(** C4: a batch of two [update_ui] calls of which the second carries no
    [args] (the declaration of the tool requires none).  The first call's
    question is applied; reading the second call's [args] then raises, so
    the handler stops before the acknowledgments are sent: no tool response
    goes out at all, where the claim has exactly two. *)
Theorem update_ui_call_without_args_leaves_the_batch_unacknowledged :
  let c1 := {| call_id := "call-1"; call_name := "update_ui";
               call_args := Some [("center_panel_question", JsString "Tell me about yourself")] |} in
  let c2 := {| call_id := "call-2"; call_name := "update_ui"; call_args := None |} in
  let o := onmessage (centerPanel initialState) (envAt 0) (toolCallMessage [c1; c2]) initialState in
  value o = None /\
  effects o = [] /\
  toolResponses (effects o) = [] /\
  question (centerPanel (state o)) = JsString "Tell me about yourself".
Proof. repeat split. Qed.

(** C9: a batch that holds a call of another name and one [update_ui] call
    without [args].  The call of the other name is skipped, as the claim
    says; the [update_ui] call makes the loop raise, so no acknowledgment is
    sent, where the claim has as many as there are [update_ui] calls, here
    one. *)
Theorem update_ui_call_without_args_is_not_acknowledged :
  let calls := [ {| call_id := "a"; call_name := "open_url";
                    call_args := Some [("url", JsString "https://example.org")] |};
                 {| call_id := "b"; call_name := "update_ui"; call_args := None |} ] in
  let o := onmessage (centerPanel initialState) (envAt 0) (toolCallMessage calls) initialState in
  List.length (filter isUpdateUi calls) = 1 /\
  value o = None /\
  toolResponses (effects o) = [] /\
  panels (state o) = panels initialState.
Proof. repeat split. Qed.

(** ** The history *)

Lemma forCalls_keeps {X} (f : AppState -> X) calls :
  (forall args, keeps f (update_ui args)) ->
  forall responses, keeps f (forCalls calls responses).
Proof.
  intros Hf. induction calls as [| call rest IH]; intros responses; simpl.
  - apply keeps_ret.
  - apply keeps_bind; [| intros ?; apply IH].
    destruct (call_name call =? "update_ui"); [| apply keeps_ret].
    destruct (call_args call) as [args |]; [| apply keeps_throw].
    apply keeps_bind; [apply Hf | intros ?; apply keeps_ret].
Qed.

Lemma forCalls_mute {X} (sel : Effect -> option X) calls :
  forall responses, mute sel (forCalls calls responses).
Proof.
  induction calls as [| call rest IH]; intros responses; simpl.
  - apply mute_ret.
  - apply mute_bind; [| intros ?; apply IH].
    destruct (call_name call =? "update_ui"); [| apply mute_ret].
    destruct (call_args call) as [args |]; [| apply mute_throw].
    apply mute_bind; [| intros ?; apply mute_ret].
    unfold update_ui. frames.
Qed.

Lemma handleToolCall_keeps {X} (f : AppState -> X) msg :
  (forall args, keeps f (update_ui args)) -> keeps f (handleToolCall msg).
Proof.
  intros Hf. unfold handleToolCall.
  destruct (toolCall msg) as [[[calls |]] |]; [| frames | frames].
  apply keeps_bind; [apply forCalls_keeps, Hf | intros ?; frames].
Qed.

(** The tool-call block sends tool responses and nothing else. *)
Lemma handleToolCall_mute {X} (sel : Effect -> option X) msg :
  (forall responses, sel (SendToolResponse responses) = None) ->
  mute sel (handleToolCall msg).
Proof.
  intros H. unfold handleToolCall.
  destruct (toolCall msg) as [[[calls |]] |]; [| frames | frames].
  apply mute_bind; [apply forCalls_mute | intros ?; apply mute_emit, H].
Qed.

Lemma update_ui_keeps_history args : keeps history (update_ui args).
Proof. unfold update_ui. frames. Qed.

Lemma cleanup_keeps_history : keeps history cleanup.
Proof. unfold cleanup. frames. Qed.

Lemma extends_of_keeps {A} (m : M A) : keeps history m -> extends 0 m.
Proof.
  intros H s. exists []. rewrite H, app_nil_r. split; [reflexivity | apply Nat.le_refl].
Qed.

Lemma extends_mono {A} (m : M A) n n' : n <= n' -> extends n m -> extends n' m.
Proof.
  intros Hle H s. destruct (H s) as (added & E & L).
  exists added. split; [exact E | lia].
Qed.

Lemma extends_bind {A B} (m : M A) (k : A -> M B) n1 n2 :
  extends n1 m -> (forall a, extends n2 (k a)) -> extends (n1 + n2) (bind m k).
Proof.
  intros Hm Hk s. destruct (Hm s) as (added1 & E1 & L1).
  unfold bind, state in *.
  destruct (m s) as [[[a |] s1] out1]; simpl in *.
  - destruct (Hk a s1) as (added2 & E2 & L2). unfold state in E2.
    destruct (k a s1) as [[r s2] out2]. simpl in *.
    exists (added1 ++ added2). rewrite E2, E1, <- app_assoc, length_app.
    split; [reflexivity | lia].
  - exists added1. split; [exact E1 | lia].
Qed.

Lemma handleAudio_keeps_history env content : keeps history (handleAudio env content).
Proof. open_handlers. frames. Qed.

Lemma handleInputTranscription_keeps_history content :
  keeps history (handleInputTranscription content).
Proof. open_handlers. frames. Qed.

Lemma handleOutputTranscription_extends env content :
  extends 1 (handleOutputTranscription env content).
Proof.
  unfold handleOutputTranscription.
  destruct (outputTranscription_text content) as [t |];
    [| apply (extends_mono _ 0 1); [lia | apply extends_of_keeps; frames]].
  destruct (nonEmpty t); simpl.
  - intros s. exists [entry env model t]. split; [reflexivity | apply Nat.le_refl].
  - apply (extends_mono _ 0 1); [lia | apply extends_of_keeps; frames].
Qed.

Lemma handleTurnComplete_extends cp env content :
  extends 1 (handleTurnComplete cp env content).
Proof.
  unfold handleTurnComplete.
  destruct (turnComplete content && nonEmpty (transcript cp)); simpl.
  - intros s. exists [entry env user (transcript cp)]. split; [reflexivity | apply Nat.le_refl].
  - apply (extends_mono _ 0 1); [lia | apply extends_of_keeps; frames].
Qed.

Lemma onmessage_extends cp env msg : extends 2 (onmessage cp env msg).
Proof.
  unfold onmessage.
  apply (extends_bind _ _ 0 2).
  { apply extends_of_keeps, handleToolCall_keeps, update_ui_keeps_history. }
  intros _. unfold handleServerContent.
  destruct (serverContent msg) as [content |];
    [| apply (extends_mono _ 0 2); [lia | apply extends_of_keeps; frames]].
  apply (extends_bind _ _ 0 2).
  { apply extends_of_keeps, handleAudio_keeps_history. }
  intros _. apply (extends_bind _ _ 1 1).
  { apply handleOutputTranscription_extends. }
  intros _. apply (extends_bind _ _ 0 1).
  { apply extends_of_keeps, handleInputTranscription_keeps_history. }
  intros _. apply handleTurnComplete_extends.
Qed.

Lemma handle_extends e : extends 2 (handle e).
Proof.
  destruct e as [apiKey microphone | | env msg | | | inputData | source]; simpl;
    try (apply (extends_mono _ 0 2); [lia |]; apply extends_of_keeps;
         unfold withSession, handleEndSession, connectToGemini, onopen, onclose,
           onerror, onaudioprocess, onended;
         frames; apply cleanup_keeps_history).
  unfold withSession. apply (extends_bind _ _ 0 2).
  { apply extends_of_keeps. frames. }
  intros [session |]; [apply onmessage_extends |].
  apply (extends_mono _ 0 2); [lia | apply extends_of_keeps; frames].
Qed.


Lemma run_extends events : forall s, exists added, history (run events s) = history s ++ added.
Proof.
  induction events as [| e rest IH]; intros s.
  - exists []. simpl. rewrite app_nil_r. reflexivity.
  - destruct (handle_extends e s) as (added1 & E1 & _).
    destruct (IH (state (handle e s))) as (added2 & E2).
    exists (added1 ++ added2). simpl. rewrite E2, E1, app_assoc. reflexivity.
Qed.

Lemma one_step_unchangedOrOneAppended {A} (m : M A) :
  extends 1 m -> forall s, unchangedOrOneAppended (history s) (history (state (m s))).
Proof.
  intros H s. destruct (H s) as ([| e [| e' rest]] & E & L); simpl in L.
  - left. rewrite E, app_nil_r. reflexivity.
  - right. exists e. exact E.
  - lia.
Qed.

Lemma onmessage_outputTranscript cp env c t s :
  history (state (onmessage cp env (outputTranscript (String c t)) s)) =
  history s ++ [entry env model (String c t)].
Proof. reflexivity. Qed.

(** The three blocks after the audio, on a message with a non-empty output
    transcript. *)
Lemma transcripts_history cp env content c t s :
  outputTranscription_text content = Some (String c t) ->
  history (state (bind (handleOutputTranscription env content)
                    (fun _ => bind (handleInputTranscription content)
                                (fun _ => handleTurnComplete cp env content)) s)) =
  history s ++ entry env model (String c t)
    :: (if turnComplete content && nonEmpty (transcript cp)
        then [entry env user (transcript cp)] else []).
Proof.
  intros H.
  unfold handleOutputTranscription, handleInputTranscription, handleTurnComplete,
    bind, when. rewrite H.
  destruct (inputTranscription_text content) as [t' |]; [destruct (nonEmpty t') |];
    destruct (turnComplete content && nonEmpty (transcript cp)); simpl;
    rewrite <- ?app_assoc; reflexivity.
Qed.

(** A message handled to the end that carries a non-empty output transcript:
    wherever the chunk comes from (alone, after tool calls, with audio, with
    the turn-complete flag), its entry is the first one added. *)
Lemma onmessage_appends_the_chunk cp env msg content c t s :
  serverContent msg = Some content ->
  outputTranscription_text content = Some (String c t) ->
  value (onmessage cp env msg s) = Some tt ->
  exists rest,
    history (state (onmessage cp env msg s)) =
      history s ++ entry env model (String c t) :: rest /\
    List.length rest <= 1.
Proof.
  intros Hc Ht Hv. unfold onmessage in *.
  destruct (bind_returns _ _ _ _ Hv) as (u & _ & Hv1 & Hs1). rewrite Hs1.
  pose proof (handleToolCall_keeps history msg update_ui_keeps_history s) as K1.
  unfold handleServerContent in *. rewrite Hc in *.
  destruct (bind_returns _ _ _ _ Hv1) as (u' & _ & _ & Hs2). rewrite Hs2.
  pose proof (handleAudio_keeps_history env content (state (handleToolCall msg s))) as K2.
  rewrite (transcripts_history cp env content c t _ Ht), K2, K1.
  eexists. split; [reflexivity |].
  destruct (turnComplete content && nonEmpty (transcript cp)); simpl; lia.
Qed.

(** C7, as the code has it: the history is append-only.  Every transition
    of the page, and so every [onmessage], keeps the entries that are there
    in place and in order and adds at its end no entry, one entry, or two (the
    model entry of an output-transcript chunk and then a user entry on
    turn-complete); each of the two history updates taken alone adds at most
    one entry; a chunk with non-empty text, in whatever message the handler
    processes to its end, becomes a model entry of its own, added right
    after the entries that were there, so two chunks leave two entries. *)
Theorem history_is_append_only :
  (forall e s, exists added,
      history (state (handle e s)) = history s ++ added /\ List.length added <= 2) /\
  (forall cp env msg s, exists added,
      history (state (onmessage cp env msg s)) = history s ++ added /\
      List.length added <= 2) /\
  (forall events s, exists added, history (run events s) = history s ++ added) /\
  (forall env content s,
      unchangedOrOneAppended (history s)
        (history (state (handleOutputTranscription env content s)))) /\
  (forall cp env content s,
      unchangedOrOneAppended (history s)
        (history (state (handleTurnComplete cp env content s)))) /\
  (forall cp env c t s,
      history (state (onmessage cp env (outputTranscript (String c t)) s)) =
      history s ++ [entry env model (String c t)] /\
      msg_role (entry env model (String c t)) = model /\
      msg_text (entry env model (String c t)) = String c t) /\
  (forall cp env1 env2 c1 t1 c2 t2 s,
      history (state (onmessage cp env2 (outputTranscript (String c2 t2))
                 (state (onmessage cp env1 (outputTranscript (String c1 t1)) s)))) =
      history s ++ [entry env1 model (String c1 t1); entry env2 model (String c2 t2)]) /\
  (forall cp env msg content c t s,
      serverContent msg = Some content ->
      outputTranscription_text content = Some (String c t) ->
      value (onmessage cp env msg s) = Some tt ->
      exists rest,
        history (state (onmessage cp env msg s)) =
          history s ++ entry env model (String c t) :: rest /\
        List.length rest <= 1 /\
        msg_role (entry env model (String c t)) = model /\
        msg_text (entry env model (String c t)) = String c t).
Proof.
  split; [exact handle_extends |].
  split; [exact onmessage_extends |].
  split; [intros events; apply run_extends |].
  split; [intros env content; apply one_step_unchangedOrOneAppended,
            handleOutputTranscription_extends |].
  split; [intros cp env content; apply one_step_unchangedOrOneAppended,
            handleTurnComplete_extends |].
  split; [intros cp env c t s; repeat split |].
  split.
  - intros cp env1 env2 c1 t1 c2 t2 s.
    rewrite !onmessage_outputTranscript, <- app_assoc. reflexivity.
  - intros cp env msg content c t s Hc Ht Hv.
    destruct (onmessage_appends_the_chunk cp env msg content c t s Hc Ht Hv)
      as (rest & E & L).
    exists rest. repeat split; assumption.
Qed.

(** In the second session: a chunk that arrives with audio that decodes and
    with tool calls before it is appended as a model entry. *)
Lemma history_is_append_only_witness :
  let s := run secondSession initialState in
  let msg := withCalls [ {| call_id := "1"; call_name := "update_ui";
                            call_args := Some [("status_message", JsString "Speaking...")] |} ]
              (chunkWithAudio "AAAA" "Good.") in
  exists rest,
    history (state (onmessage (centerPanel s) (envPlaying 7) msg s)) =
      history s ++ entry (envPlaying 7) model "Good." :: rest /\
    List.length rest <= 1.
Proof.
  intros s msg.
  destruct history_is_append_only as (_ & _ & _ & _ & _ & _ & _ & H).
  destruct (H (centerPanel s) (envPlaying 7) msg
              {| modelTurn_parts :=
                   Some [ {| inlineData := Some {| data := "AAAA";
                                                   mimeType := "audio/pcm;rate=24000" |} |} ];
                 outputTranscription_text := Some "Good.";
                 inputTranscription_text := None;
                 turnComplete := false |}
              "G"%char "ood." s eq_refl eq_refl eq_refl)
    as (rest & E & L & _).
  exists rest. split; [exact E | exact L].
Defined.

(** C7, as stated, fails in three ways, here in a second session whose
    callbacks captured the transcript "hi".  One message that carries an
    output-transcript chunk and the turn-complete flag adds two entries, not
    one.  A chunk whose text is empty is not appended (the guard of line 246).
    A chunk that arrives with inline audio that does not decode is not
    appended either: the handler has raised at line 222. *)
Lemma history_grows_by_two_and_chunks_can_be_skipped :
  let s := run secondSession initialState in
  ~ unchangedOrOneAppended (history s)
      (history (state (handle (SessionMessage (envAt 7) (lastChunkOfTurn "Good.")) s))) /\
  history (state (handle (SessionMessage (envAt 7) (outputTranscript EmptyString)) s))
    = history s /\
  (value (handle (SessionMessage (envAt 7) (chunkWithAudio "%%%" "Good.")) s) = None /\
   history (state (handle (SessionMessage (envAt 7) (chunkWithAudio "%%%" "Good.")) s))
     = history s).
Proof.
  intros s. subst s. split; [| split; [| split]].
  - intros [H | [e H]]; vm_compute in H; discriminate H.
  - vm_compute. reflexivity.
  - vm_compute. reflexivity.
  - vm_compute. reflexivity.
Qed.

(** C1, on the code: the guard of the commit reads the [centerPanel] of the
    render in which the session was started, not the live buffer.  A session
    started with an empty transcript therefore never commits: after "h",
    "he", "hello" and turn-complete on a fresh page the history is still empty
    and the buffer still holds "hello".  In a session started while the
    buffer held "hi", the same messages commit "hi". *)
Theorem turn_complete_commits_nothing_in_first_session :
  (forall cp env s,
      history (state (onmessage (with_transcript EmptyString cp) env turnCompleteSignal s)) = history s /\
      transcript (centerPanel (state (onmessage (with_transcript EmptyString cp) env turnCompleteSignal s)))
        = transcript (centerPanel s)) /\
  transcript (closure_centerPanel
     (match sessionRef (run helloTurn initialState) with
      | Some session => session
      | None => {| closure_centerPanel := with_transcript "?" (centerPanel initialState) |}
      end)) = EmptyString /\
  history (run helloTurn initialState) = [] /\
  transcript (centerPanel (run helloTurn initialState)) = "hello" /\
  history (run helloTurnInSecondSession initialState) = [entry (envAt 4) user "hi"].
Proof.
  split; [intros cp env s; split; reflexivity |].
  repeat split; vm_compute; reflexivity.
Qed.

(** C3, on the code: in a session whose callbacks captured a non-empty
    transcript, two turn-complete signals with no transcript update between
    them both append: the guard still reads the captured "hi" after the first
    commit has cleared the buffer. *)
Theorem second_turn_complete_appends_again :
  let s0 := run secondSession initialState in
  let s1 := state (handle (SessionMessage (envAt 8) turnCompleteSignal) s0) in
  let s2 := state (handle (SessionMessage (envAt 9) turnCompleteSignal) s1) in
  history s0 = [] /\
  history s1 = [entry (envAt 8) user "hi"] /\
  transcript (centerPanel s1) = EmptyString /\
  history s2 = [entry (envAt 8) user "hi"; entry (envAt 9) user "hi"].
Proof.
  repeat split; vm_compute; reflexivity.
Qed.

(** ** The playback cursor *)

Local Open Scope Q_scope.

Lemma duration_nonneg buffer : 0 <= duration buffer.
Proof. unfold duration, Qle. simpl. lia. Qed.

Lemma scheduleChunk_run now buffer s :
  value (scheduleChunk now buffer s) = Some tt /\
  scheduled (effects (scheduleChunk now buffer s)) =
    [(Qmax now (nextStartTimeRef s), duration buffer)] /\
  nextStartTimeRef (state (scheduleChunk now buffer s)) =
    Qmax now (nextStartTimeRef s) + duration buffer /\
  audioQueueRef (state (scheduleChunk now buffer s)) =
    (audioQueueRef s ++ [ {| src_id := allocated s; src_buffer := buffer |} ])%list.
Proof. repeat split. Qed.

Lemma cursor_advances now cursor d : 0 <= d -> cursor <= Qmax now cursor + d.
Proof.
  intros Hd. apply Qle_trans with (Qmax now cursor); [apply Q.le_max_r |].
  rewrite <- (Qplus_0_r (Qmax now cursor)) at 1.
  apply Qplus_le_compat; [apply Qle_refl | exact Hd].
Qed.

Lemma schedulesAtMostOne_quiet {A} (m : M A) :
  keeps nextStartTimeRef m -> mute asScheduled m -> schedulesAtMostOne m.
Proof. intros K Q s. left. split; [apply Q | apply K]. Qed.

Lemma schedulesAtMostOne_after {A B} (m : M A) (k : A -> M B) :
  keeps nextStartTimeRef m -> mute asScheduled m ->
  (forall a, schedulesAtMostOne (k a)) -> schedulesAtMostOne (bind m k).
Proof.
  intros K Q Hk s. specialize (K s). specialize (Q s).
  unfold bind, state, effects, scheduled in *.
  destruct (m s) as [[[a |] s1] out1]; simpl in *; [| left; split; assumption].
  specialize (Hk a s1). unfold state, effects, scheduled in Hk.
  destruct (k a s1) as [[r s2] out2]. simpl in *.
  rewrite collect_app, Q. rewrite K in Hk. exact Hk.
Qed.

Lemma schedulesAtMostOne_before {A B} (m : M A) (k : A -> M B) :
  schedulesAtMostOne m ->
  (forall a, keeps nextStartTimeRef (k a)) -> (forall a, mute asScheduled (k a)) ->
  schedulesAtMostOne (bind m k).
Proof.
  intros Hm K Q s. specialize (Hm s).
  unfold bind, state, effects, scheduled in *.
  destruct (m s) as [[[a |] s1] out1]; simpl in *; [| exact Hm].
  specialize (K a s1). specialize (Q a s1). unfold state, effects in K, Q.
  destruct (k a s1) as [[r s2] out2]. simpl in *.
  rewrite collect_app, Q, K, app_nil_r. exact Hm.
Qed.

Lemma scheduleChunk_schedulesAtMostOne now buffer : schedulesAtMostOne (scheduleChunk now buffer).
Proof. intros s. right. exists now, buffer. split; reflexivity. Qed.

Lemma handleAudio_schedulesAtMostOne env content : schedulesAtMostOne (handleAudio env content).
Proof.
  unfold handleAudio.
  destruct (modelTurn_parts content) as [parts |];
    [| apply schedulesAtMostOne_quiet; frames].
  destruct (find _ parts) as [audioPart |]; [| apply schedulesAtMostOne_quiet; frames].
  destruct (inlineData audioPart) as [blob |]; [| apply schedulesAtMostOne_quiet; frames].
  apply schedulesAtMostOne_after; [frames | frames |]. intros ctx.
  destruct (isSome ctx); [| apply schedulesAtMostOne_quiet; frames].
  destruct (decodeAudioData env (data blob)) as [buffer |];
    [apply scheduleChunk_schedulesAtMostOne | apply schedulesAtMostOne_quiet; frames].
Qed.

Lemma update_ui_keeps_cursor args : keeps nextStartTimeRef (update_ui args).
Proof. unfold update_ui. frames. Qed.

Lemma onmessage_schedulesAtMostOne cp env msg : schedulesAtMostOne (onmessage cp env msg).
Proof.
  unfold onmessage. apply schedulesAtMostOne_after.
  - apply handleToolCall_keeps, update_ui_keeps_cursor.
  - apply handleToolCall_mute. reflexivity.
  - intros _. unfold handleServerContent.
    destruct (serverContent msg) as [content |]; [| apply schedulesAtMostOne_quiet; frames].
    apply schedulesAtMostOne_before; [apply handleAudio_schedulesAtMostOne | |];
      intros _; open_handlers; frames.
Qed.

Lemma cleanup_keeps_cursor : keeps nextStartTimeRef cleanup.
Proof. unfold cleanup. frames. Qed.

Lemma cleanup_mute_scheduled : mute asScheduled cleanup.
Proof. unfold cleanup. frames. Qed.

Lemma handle_schedulesAtMostOne e : schedulesAtMostOne (handle e).
Proof.
  destruct e as [apiKey microphone | | env msg | | | inputData | source]; simpl;
    try (apply schedulesAtMostOne_quiet;
         unfold withSession, handleEndSession, connectToGemini, onopen, onclose,
           onerror, onaudioprocess, onended;
         frames; first [apply cleanup_keeps_cursor | apply cleanup_mute_scheduled]).
  unfold withSession. apply schedulesAtMostOne_after; [frames | frames |].
  intros [session |]; [apply onmessage_schedulesAtMostOne |].
  apply schedulesAtMostOne_quiet; frames.
Qed.

(** One transition never moves the cursor back. *)
Lemma handle_cursor_monotone e s :
  nextStartTimeRef s <= nextStartTimeRef (state (handle e s)).
Proof.
  destruct (handle_schedulesAtMostOne e s) as [[_ E] | (now & buffer & _ & E)]; rewrite E.
  - apply Qle_refl.
  - apply cursor_advances, duration_nonneg.
Qed.

Lemma run_cursor_monotone events : forall s,
  nextStartTimeRef s <= nextStartTimeRef (run events s).
Proof.
  induction events as [| e rest IH]; intros s; simpl.
  - apply Qle_refl.
  - eapply Qle_trans; [apply handle_cursor_monotone | apply IH].
Qed.

(** Every chunk of a run starts at or after the cursor the run began with,
    and is over before any later chunk starts. *)
Lemma output_ordered events : forall s,
  Forall (fun b => nextStartTimeRef s <= fst b) (scheduled (output events s)) /\
  ForallOrdPairs endsBefore (scheduled (output events s)).
Proof.
  induction events as [| e rest IH]; intros s; simpl.
  - split; constructor.
  - unfold scheduled in *. rewrite collect_app.
    destruct (IH (state (handle e s))) as [Hfrom Hord].
    destruct (handle_schedulesAtMostOne e s) as [[E C] | (now & buffer & E & C)];
      unfold scheduled in E; rewrite E; rewrite C in Hfrom; simpl.
    + split; assumption.
    + split.
      * constructor; [apply Q.le_max_r |].
        eapply Forall_impl; [| exact Hfrom]. simpl. intros b Hb.
        eapply Qle_trans; [apply cursor_advances, duration_nonneg | exact Hb].
      * constructor; [| exact Hord].
        eapply Forall_impl; [| exact Hfrom]. intros b Hb. exact Hb.
Qed.

Lemma ForallOrdPairs_nth {A} (R : A -> A -> Prop) l :
  ForallOrdPairs R l ->
  forall i j a b, (i < j)%nat -> nth_error l i = Some a -> nth_error l j = Some b -> R a b.
Proof.
  induction 1 as [| x l Hx Hl IH]; intros i j a b Hij Hi Hj.
  - destruct i; discriminate Hi.
  - destruct j as [| j]; [lia |]. simpl in Hj.
    destruct i as [| i]; simpl in Hi.
    + injection Hi as <-. rewrite Forall_forall in Hx.
      apply Hx. eapply nth_error_In, Hj.
    + apply (IH i j); [lia | assumption | assumption].
Qed.

Lemma scheduleAll_run chunks : forall s,
  value (scheduleAll chunks s) = Some tt /\
  scheduled (effects (scheduleAll chunks s)) = expectedSchedule (nextStartTimeRef s) chunks /\
  nextStartTimeRef (state (scheduleAll chunks s)) = cursorAfter (nextStartTimeRef s) chunks.
Proof.
  induction chunks as [| [now buffer] rest IH]; intros s.
  - repeat split.
  - unfold scheduleAll in *. simpl forEach.
    destruct (scheduleChunk_run now buffer s) as (Hv & Hs & Hc & _).
    destruct (bind_returned (scheduleChunk now buffer)
                (fun _ => forEach rest (fun chunk => scheduleChunk (fst chunk) (snd chunk)))
                s tt Hv) as (Bv & Bs & Be).
    destruct (IH (state (scheduleChunk now buffer s))) as (IHv & IHs & IHc).
    simpl fst. simpl snd. rewrite Bv, Bs, Be.
    unfold scheduled in *. rewrite collect_app, Hs, IHs, IHc, Hc.
    repeat split. exact IHv.
Qed.

Lemma expectedSchedule_ordered chunks : forall cursor,
  Forall (fun b => cursor <= fst b) (expectedSchedule cursor chunks) /\
  ForallOrdPairs endsBefore (expectedSchedule cursor chunks) /\
  cursor <= cursorAfter cursor chunks.
Proof.
  induction chunks as [| [now buffer] rest IH]; intros cursor; simpl.
  - repeat split; try constructor. apply Qle_refl.
  - destruct (IH (Qmax now cursor + duration buffer)) as (Hfrom & Hord & Hc).
    split; [| split].
    + constructor; [apply Q.le_max_r |].
      eapply Forall_impl; [| exact Hfrom]. simpl. intros b Hb.
      eapply Qle_trans; [apply cursor_advances, duration_nonneg | exact Hb].
    + constructor; [| exact Hord].
      eapply Forall_impl; [| exact Hfrom]. intros b Hb. exact Hb.
    + eapply Qle_trans; [apply cursor_advances, duration_nonneg | exact Hc].
Qed.

Lemma onmessage_audioMessage cp env payload buffer ctx s :
  outputAudioContextRef s = Some ctx ->
  decodeAudioData env payload = Some buffer ->
  scheduled (effects (onmessage cp env (audioMessage payload) s)) =
    [(Qmax (currentTime env) (nextStartTimeRef s), duration buffer)] /\
  nextStartTimeRef (state (onmessage cp env (audioMessage payload) s)) =
    Qmax (currentTime env) (nextStartTimeRef s) + duration buffer.
Proof.
  intros Hctx Hdec.
  unfold onmessage, handleToolCall, handleServerContent, handleAudio,
    handleOutputTranscription, handleInputTranscription, handleTurnComplete,
    audioMessage, bind, gets, ret, when. simpl.
  rewrite Hctx, Hdec. simpl. split; reflexivity.
Qed.

(** C2: chunks handled in arrival order are each started at
    [max(currentTime, cursor)], after which the cursor is that start plus the
    chunk's duration, both for a bare sequence of chunks and for an audio
    message going through [onmessage]; no transition of the page and no run
    of transitions moves the cursor back; and of any two chunks scheduled in
    the course of a run, the later starts no earlier than the start of the
    earlier plus its duration. *)
Theorem playback_cursor_never_rewinds_and_chunks_do_not_overlap :
  (forall chunks s,
      value (scheduleAll chunks s) = Some tt /\
      scheduled (effects (scheduleAll chunks s))
        = expectedSchedule (nextStartTimeRef s) chunks /\
      nextStartTimeRef (state (scheduleAll chunks s))
        = cursorAfter (nextStartTimeRef s) chunks /\
      nextStartTimeRef s <= nextStartTimeRef (state (scheduleAll chunks s))) /\
  (forall chunks s i j a b,
      (i < j)%nat ->
      nth_error (scheduled (effects (scheduleAll chunks s))) i = Some a ->
      nth_error (scheduled (effects (scheduleAll chunks s))) j = Some b ->
      fst a + snd a <= fst b) /\
  (forall cp env payload buffer ctx s,
      outputAudioContextRef s = Some ctx ->
      decodeAudioData env payload = Some buffer ->
      scheduled (effects (onmessage cp env (audioMessage payload) s)) =
        [(Qmax (currentTime env) (nextStartTimeRef s), duration buffer)] /\
      nextStartTimeRef (state (onmessage cp env (audioMessage payload) s)) =
        Qmax (currentTime env) (nextStartTimeRef s) + duration buffer) /\
  (forall e s, nextStartTimeRef s <= nextStartTimeRef (state (handle e s))) /\
  (forall events s, nextStartTimeRef s <= nextStartTimeRef (run events s)) /\
  (forall events s i j a b,
      (i < j)%nat ->
      nth_error (scheduled (output events s)) i = Some a ->
      nth_error (scheduled (output events s)) j = Some b ->
      fst a + snd a <= fst b).
Proof.
  split; [| split; [| split; [| split; [| split]]]].
  - intros chunks s. destruct (scheduleAll_run chunks s) as (Hv & Hs & Hc).
    repeat split; try assumption.
    rewrite Hc. apply expectedSchedule_ordered.
  - intros chunks s i j a b Hij Ha Hb.
    destruct (scheduleAll_run chunks s) as (_ & Hs & _). rewrite Hs in Ha, Hb.
    destruct (expectedSchedule_ordered chunks (nextStartTimeRef s)) as (_ & Hord & _).
    exact (ForallOrdPairs_nth _ _ Hord i j a b Hij Ha Hb).
  - exact onmessage_audioMessage.
  - exact handle_cursor_monotone.
  - intros events s. apply run_cursor_monotone.
  - intros events s i j a b Hij Ha Hb.
    destruct (output_ordered events s) as [_ Hord].
    exact (ForallOrdPairs_nth _ _ Hord i j a b Hij Ha Hb).
Qed.

(** The second of three chunks arrives at 0.1 s while the first (0.5 s long,
    started at 0) still plays: it starts when the first is over. *)
Lemma playback_cursor_never_rewinds_and_chunks_do_not_overlap_witness :
  nth_error (scheduled (output threeChunks initialState)) 0 = Some (0, 12000 # 24000) /\
  nth_error (scheduled (output threeChunks initialState)) 1
    = Some (12000 # 24000, 12000 # 24000) /\
  0 + (12000 # 24000) <= 12000 # 24000 /\
  scheduled (effects (onmessage (centerPanel initialState) (envPlaying (1 # 10))
                        (audioMessage "c2Vjb25k")
                        (run [ClickMic true true; SessionOpen] initialState)))
    = [(Qmax (1 # 10) 0, 12000 # 24000)].
Proof.
  destruct playback_cursor_never_rewinds_and_chunks_do_not_overlap
    as (_ & _ & Haudio & _ & _ & Hpairs).
  assert (H0 : nth_error (scheduled (output threeChunks initialState)) 0
               = Some (0, 12000 # 24000)) by (vm_compute; reflexivity).
  assert (H1 : nth_error (scheduled (output threeChunks initialState)) 1
               = Some (12000 # 24000, 12000 # 24000)) by (vm_compute; reflexivity).
  split; [exact H0 |]. split; [exact H1 |]. split.
  - exact (Hpairs threeChunks initialState 0%nat 1%nat _ _ (Nat.lt_0_succ 0) H0 H1).
  - exact (proj1 (Haudio (centerPanel initialState) (envPlaying (1 # 10)) "c2Vjb25k"
                    {| buf_length := 12000; buf_sampleRate := 24000 |}
                    {| ctx_sampleRate := 24000 |}
                    (run [ClickMic true true; SessionOpen] initialState)
                    eq_refl eq_refl)).
Defined.

Local Close Scope Q_scope.

(** ** Teardown *)

Lemma forEach_emit {A} (xs : list A) (f : A -> Effect) s :
  forEach xs (fun x => emit (f x)) s = (Some tt, s, map f xs).
Proof.
  induction xs as [| x rest IH]; simpl; [reflexivity |].
  unfold bind, emit at 1. rewrite IH. reflexivity.
Qed.

(** [cleanup] in one piece: it returns, clears the four refs and the queue,
    and calls [disconnect], [close] and [stop] on what was there. *)
Lemma cleanup_run s :
  cleanup s =
  (Some tt, tornDown s,
   whenSet (processorRef s) Disconnect ++ whenSet (inputSourceRef s) Disconnect ++
   whenSet (inputAudioContextRef s) ContextClose ++
   whenSet (outputAudioContextRef s) ContextClose ++
   map SourceStop (audioQueueRef s)).
Proof.
  destruct s as [a h cp f v ic oc isr pr sr ns aq al].
  unfold cleanup, tornDown.
  destruct pr, isr, ic, oc;
    unfold bind, gets, when, callOn, isSome, ret, modify,
      setProcessorRef, setInputSourceRef, setInputAudioContextRef,
      setOutputAudioContextRef, setAudioQueueRef; simpl;
    rewrite forEach_emit; simpl; rewrite app_nil_r; reflexivity.
Qed.


Lemma collect_whenSet_stopped {A} (ref : option A) (m : A -> Effect) :
  (forall obj, asStopped (m obj) = None) -> collect asStopped (whenSet ref m) = [].
Proof. intros H. destruct ref as [obj |]; simpl; [rewrite H |]; reflexivity. Qed.

Lemma collect_stops queue : collect asStopped (map SourceStop queue) = queue.
Proof. induction queue as [| x rest IH]; simpl; [| rewrite IH]; reflexivity. Qed.

Lemma onclose_run s :
  value (onclose s) = Some tt /\
  audioQueueRef (state (onclose s)) = [] /\
  processorRef (state (onclose s)) = None /\
  inputSourceRef (state (onclose s)) = None /\
  inputAudioContextRef (state (onclose s)) = None /\
  outputAudioContextRef (state (onclose s)) = None.
Proof.
  unfold onclose, bind, setActive, setCenterPanel, modify.
  rewrite cleanup_run. repeat split.
Qed.

(** C6: [cleanup] called twice in a row raises no exception either time;
    the first call stops every queued source and leaves the four refs null and
    the queue empty; the second call finds nothing to do: it makes no call on
    any audio object, changes nothing, and the queue is still empty.  The same
    holds when the two calls come from the error callback and the close
    callback. *)
Theorem cleanup_twice_is_safe (s : AppState) :
  let first := cleanup s in
  let second := cleanup (state first) in
  value first = Some tt /\
  value second = Some tt /\
  collect asStopped (effects first) = audioQueueRef s /\
  effects second = [] /\
  state second = state first /\
  audioQueueRef (state second) = [] /\
  processorRef (state second) = None /\
  inputSourceRef (state second) = None /\
  inputAudioContextRef (state second) = None /\
  outputAudioContextRef (state second) = None /\
  value (bind cleanup (fun _ => cleanup) s) = Some tt /\
  value (onclose (state (onerror s))) = Some tt /\
  audioQueueRef (state (onclose (state (onerror s)))) = [].
Proof.
  intros first second. subst first second.
  rewrite !cleanup_run. unfold value, state, effects. simpl.
  repeat split.
  - rewrite !collect_app, !collect_whenSet_stopped by reflexivity.
    apply collect_stops.
  - unfold bind. rewrite !cleanup_run. reflexivity.
  - apply (onclose_run (snd (fst (onerror s)))).
  - apply (onclose_run (snd (fst (onerror s)))).
Qed.

Example cleanup_midSession :
  List.length (collect asStopped (effects (cleanup midSession))) = 2 /\
  effects (cleanup (state (cleanup midSession))) = [].
Proof. split; vm_compute; reflexivity. Qed.

(** ** Capture *)

Lemma Q2R_sumLoop inputData : forall sum,
  Q2R (sumLoop inputData sum) = (Q2R sum + sumOfSquares (map Q2R inputData))%R.
Proof.
  induction inputData as [| x rest IH]; intros sum; simpl.
  - ring.
  - rewrite IH, Q2R_plus, Q2R_mult. ring.
Qed.

Lemma Q2R_lengthQ {A} (l : list A) : Q2R (lengthQ l) = INR (List.length l).
Proof.
  unfold lengthQ, Q2R. simpl. rewrite INR_IZR_INZ. field.
Qed.

Lemma lengthQ_nonzero {A} (l : list A) : l <> [] -> ~ (lengthQ l == 0)%Q.
Proof.
  intros Hl. destruct l as [| x rest]; [contradiction |].
  unfold lengthQ, Qeq. simpl. lia.
Qed.

(** C8: on every invocation of the microphone callback with a window
    [x_0 .. x_{N-1}] (N > 0) the volume becomes the root mean square of the
    window, whatever it was before, nothing else in the state changes, and
    the encoded window is what is sent to the session. *)
Theorem onaudioprocess_sets_volume_to_rms_and_forwards
  (inputData : list Q) (s : AppState) :
  inputData <> [] ->
  let o := onaudioprocess inputData s in
  value o = Some tt /\
  volume (state o) = rootMeanSquare (map Q2R inputData) /\
  state o = mkApp (active s) (history s) (centerPanel s) (feedback s)
              (rootMeanSquare (map Q2R inputData))
              (inputAudioContextRef s) (outputAudioContextRef s) (inputSourceRef s)
              (processorRef s) (sessionRef s) (nextStartTimeRef s) (audioQueueRef s)
              (allocated s) /\
  effects o = [SendRealtimeInput (Pcm.createPcmBlob inputData)].
Proof.
  intros Hne o. subst o.
  assert (E : sqrt (Q2R (sumLoop inputData 0 / lengthQ inputData))
              = rootMeanSquare (map Q2R inputData)).
  { unfold rootMeanSquare. f_equal.
    rewrite Q2R_div by (apply lengthQ_nonzero, Hne).
    rewrite Q2R_sumLoop, Q2R_lengthQ, length_map, RMicromega.Q2R_0. f_equal. ring. }
  unfold onaudioprocess, bind, setVolume, modify, emit, value, state, effects. simpl.
  rewrite E. repeat split.
Qed.

(** The window [1/2, -1/2] has root mean square [sqrt (1/4)]. *)
Lemma onaudioprocess_sets_volume_to_rms_and_forwards_witness :
  volume (state (onaudioprocess [1 # 2; - (1 # 2)]%Q initialState))
    = rootMeanSquare [Q2R (1 # 2); Q2R (- (1 # 2))] /\
  effects (onaudioprocess [1 # 2; - (1 # 2)]%Q initialState)
    = [SendRealtimeInput {| data := "/z8BwA=="; mimeType := "audio/pcm;rate=16000" |}].
Proof.
  assert (Hne : [1 # 2; - (1 # 2)]%Q <> []) by discriminate.
  destruct (onaudioprocess_sets_volume_to_rms_and_forwards
              [1 # 2; - (1 # 2)]%Q initialState Hne) as (_ & Hv & _ & He).
  split; [exact Hv | exact He].
Defined.

(** ** Base64 *)

Module Base64Facts.
Import Base64.

Lemma sextet_round_trip n :
  (0 <= n < 64)%Z ->
  charSextet (sextetChar n) = Some n /\ Ascii.eqb (sextetChar n) pad = false.
Proof.
  intros Hn. rewrite <- (Z2Nat.id n) by lia.
  assert (Hk : (Z.to_nat n < 64)%nat) by lia.
  generalize dependent (Z.to_nat n). clear n Hn. intros k Hk.
  do 64 (destruct k as [| k]; [split; vm_compute; reflexivity |]).
  lia.
Qed.

Lemma sextets_of_bytes a b c :
  isByte a -> isByte b -> isByte c ->
  ((0 <= a / 4 < 64) /\
   (0 <= a mod 4 * 16 + b / 16 < 64) /\
   (0 <= b mod 16 * 4 + c / 64 < 64) /\
   (0 <= c mod 64 < 64) /\
   a / 4 * 4 + (a mod 4 * 16 + b / 16) / 16 = a /\
   (a mod 4 * 16 + b / 16) mod 16 * 16 + (b mod 16 * 4 + c / 64) / 4 = b /\
   (b mod 16 * 4 + c / 64) mod 4 * 64 + c mod 64 = c)%Z.
Proof.
  unfold isByte. intros Ha Hb Hc.
  Z.div_mod_to_equations. lia.
Qed.

Lemma isByte_0 : isByte 0.
Proof. unfold isByte. lia. Qed.

Ltac use_sextet n :=
  let H1 := fresh "Hs" in
  let H2 := fresh "Hp" in
  destruct (sextet_round_trip n) as [H1 H2]; [lia |]; rewrite ?H1, ?H2.

(** Decoding what [btoa] wrote gives the bytes back. *)
Lemma atob_btoa_bounded n : forall bytes,
  (List.length bytes <= n)%nat -> Forall isByte bytes -> atob (btoa bytes) = Some bytes.
Proof.
  induction n as [| n IH]; intros bytes Hlen Hbytes.
  - destruct bytes; [reflexivity | simpl in Hlen; lia].
  - destruct bytes as [| a [| b [| c rest]]]; [reflexivity | | |].
    + inversion Hbytes as [| ? ? Ha _]; subst.
      destruct (sextets_of_bytes a 0 0 Ha isByte_0 isByte_0) as (H0 & H1 & _ & _ & E0 & _).
      replace (0 / 16)%Z with 0%Z in * by reflexivity.
      rewrite Z.add_0_r in *.
      simpl btoa. simpl atob.
      use_sextet (a / 4)%Z. use_sextet (a mod 4 * 16)%Z.
      rewrite E0. reflexivity.
    + inversion Hbytes as [| ? ? Ha Hrest]; subst.
      inversion Hrest as [| ? ? Hb _]; subst.
      destruct (sextets_of_bytes a b 0 Ha Hb isByte_0) as (H0 & H1 & H2 & _ & E0 & E1 & _).
      replace (0 / 64)%Z with 0%Z in * by reflexivity.
      rewrite Z.add_0_r in *.
      simpl btoa. simpl atob.
      use_sextet (a / 4)%Z. use_sextet (a mod 4 * 16 + b / 16)%Z.
      use_sextet (b mod 16 * 4)%Z.
      rewrite E0, E1. reflexivity.
    + inversion Hbytes as [| ? ? Ha Hrest]; subst.
      inversion Hrest as [| ? ? Hb Hrest']; subst.
      inversion Hrest' as [| ? ? Hc Hrest'']; subst.
      destruct (sextets_of_bytes a b c Ha Hb Hc)
        as (H0 & H1 & H2 & H3 & E0 & E1 & E2).
      simpl btoa. simpl atob.
      use_sextet (a / 4)%Z. use_sextet (a mod 4 * 16 + b / 16)%Z.
      use_sextet (b mod 16 * 4 + c / 64)%Z. use_sextet (c mod 64)%Z.
      rewrite IH; [| simpl in Hlen; lia | assumption].
      rewrite E0, E1, E2. reflexivity.
Qed.

Lemma atob_btoa bytes : Forall isByte bytes -> atob (btoa bytes) = Some bytes.
Proof. apply (atob_btoa_bounded (List.length bytes)). apply Nat.le_refl. Qed.

End Base64Facts.

(** ** PCM encoder *)

Module PcmFacts.
Import Pcm.

Local Open Scope Q_scope.

Lemma clamp_bounds x : -1 <= clamp x /\ clamp x <= 1.
Proof.
  unfold clamp. split; [apply Q.le_max_l |].
  apply Q.max_lub; [discriminate | apply Q.le_min_l].
Qed.

Lemma clamp_inRange x : inRange x -> clamp x == x.
Proof.
  intros [Hlo Hhi]. unfold clamp.
  rewrite (Q.min_r 1 x Hhi). apply Q.max_r, Hlo.
Qed.

Lemma clamp_above x : 1 <= x -> clamp x == 1.
Proof.
  intros H. unfold clamp. rewrite (Q.min_l 1 x H). apply Q.max_r. discriminate.
Qed.

Lemma clamp_below x : x <= -1 -> clamp x == -1.
Proof.
  intros H. unfold clamp. apply Q.max_l.
  eapply Qle_trans; [apply Q.le_min_r | exact H].
Qed.

Lemma truncate_near y :
  inject_Z (truncate y) - 1 < y /\ y < inject_Z (truncate y) + 1.
Proof.
  unfold truncate. destruct (Qle_bool 0 y).
  - pose proof (Qfloor_le y) as Hlo. pose proof (Qlt_floor y) as Hhi.
    rewrite inject_Z_plus in Hhi. change (inject_Z 1) with 1 in Hhi. lra.
  - pose proof (Qle_ceiling y) as Hhi. pose proof (Qceiling_lt y) as Hlo.
    replace (Qceiling y - 1)%Z with (Qceiling y + -1)%Z in Hlo by lia.
    rewrite inject_Z_plus in Hlo. change (inject_Z (-1)) with (-1 # 1) in Hlo. lra.
Qed.

Lemma truncate_inject_Z y z : y == inject_Z z -> truncate y = z.
Proof.
  intros E. unfold truncate.
  rewrite (Qfloor_comp _ _ E), (Qceiling_comp _ _ E), Qfloor_Z, Qceiling_Z.
  destruct (Qle_bool 0 y); reflexivity.
Qed.

Lemma quantize_near x :
  inject_Z (quantize x) - 1 < clamp x * (32767 # 1) /\
  clamp x * (32767 # 1) < inject_Z (quantize x) + 1.
Proof. exact (truncate_near (clamp x * inject_Z fullScale)). Qed.

(** The quantized sample needs no wrap-around. *)
Lemma quantize_range x : (-32767 <= quantize x <= 32767)%Z.
Proof.
  destruct (quantize_near x) as [Hlo Hhi]. destruct (clamp_bounds x) as [Clo Chi].
  assert (Hup : inject_Z (quantize x) < 32768 # 1) by lra.
  assert (Hdown : - (32768 # 1) < inject_Z (quantize x)) by lra.
  unfold Qlt in Hup, Hdown. simpl in Hup, Hdown. lia.
Qed.

Lemma quantize_above x : 1 <= x -> quantize x = 32767%Z.
Proof.
  intros H. apply truncate_inject_Z. rewrite (clamp_above x H). reflexivity.
Qed.

Lemma quantize_below x : x <= -1 -> quantize x = (-32767)%Z.
Proof.
  intros H. apply truncate_inject_Z. rewrite (clamp_below x H). reflexivity.
Qed.

(** The quantization error stays below one step. *)
Lemma quantize_error x : Qabs (dequantize (quantize x) - clamp x) < quantizationStep.
Proof.
  destruct (quantize_near x) as [Hlo Hhi].
  apply Qabs_Qlt_condition.
  unfold dequantize, quantizationStep, Qdiv.
  change (/ inject_Z fullScale) with (1 # 32767). lra.
Qed.

Lemma quantize_error_inRange x :
  inRange x -> Qabs (dequantize (quantize x) - x) < quantizationStep.
Proof.
  intros Hx. pose proof (clamp_inRange x Hx) as E.
  pose proof (quantize_error x) as H.
  apply Qabs_Qlt_condition in H. apply Qabs_Qlt_condition. lra.
Qed.

Lemma quantizationStep_spacing n :
  dequantize (n + 1) - dequantize n == quantizationStep.
Proof.
  unfold dequantize, quantizationStep, Qdiv. rewrite inject_Z_plus.
  change (/ inject_Z fullScale) with (1 # 32767). change (inject_Z 1) with 1. lra.
Qed.

(** Little-endian two's complement and back. *)
Lemma int16_round_trip n :
  (-32768 <= n <= 32767)%Z ->
  exists lo hi, int16Bytes n = [lo; hi] /\ isByte lo /\ isByte hi /\
                (lo + 256 * hi = n mod 65536)%Z /\ bytesInt16 lo hi = n.
Proof.
  intros Hn. exists ((n mod 65536) mod 256)%Z, ((n mod 65536) / 256)%Z.
  unfold int16Bytes, bytesInt16, isByte. cbv zeta.
  split; [reflexivity |].
  destruct (Z.ltb_spec ((n mod 65536) mod 256 + 256 * (n mod 65536 / 256)) 32768);
    Z.div_mod_to_equations; lia.
Qed.

Lemma pcmBytes_cons x rest : pcmBytes (x :: rest) = (int16Bytes (quantize x) ++ pcmBytes rest)%list.
Proof. reflexivity. Qed.

Lemma pcmBytes_are_bytes samples :
  Forall isByte (pcmBytes samples) /\
  List.length (pcmBytes samples) = (2 * List.length samples)%nat.
Proof.
  induction samples as [| x rest [IHb IHl]]; [split; [constructor | reflexivity] |].
  rewrite pcmBytes_cons.
  assert (Hq : (-32768 <= quantize x <= 32767)%Z) by (pose proof (quantize_range x); lia).
  destruct (int16_round_trip (quantize x) Hq) as (lo & hi & E & Hlo & Hhi & _).
  rewrite E. simpl. split; [| rewrite IHl; lia].
  constructor; [exact Hlo |]. constructor; [exact Hhi | exact IHb].
Qed.

Lemma int16Samples_pcmBytes samples :
  int16Samples (pcmBytes samples) = Some (map quantize samples).
Proof.
  induction samples as [| x rest IH]; [reflexivity |].
  rewrite pcmBytes_cons.
  assert (Hq : (-32768 <= quantize x <= 32767)%Z) by (pose proof (quantize_range x); lia).
  destruct (int16_round_trip (quantize x) Hq) as (lo & hi & E & _ & _ & _ & Eq).
  rewrite E. simpl. rewrite IH, Eq. reflexivity.
Qed.

Lemma decode_createPcmBlob samples :
  decodePcmBlob (createPcmBlob samples) =
  Some (map (fun x => dequantize (quantize x)) samples).
Proof.
  unfold decodePcmBlob, createPcmBlob. simpl.
  rewrite Base64Facts.atob_btoa by apply pcmBytes_are_bytes.
  rewrite int16Samples_pcmBytes, map_map. reflexivity.
Qed.

Lemma Forall2_map_r {A B} (P : A -> B -> Prop) (f : A -> B) l :
  (forall x, P x (f x)) -> Forall2 P l (map f l).
Proof. intros H. induction l; simpl; constructor; auto. Qed.

End PcmFacts.

(** C5, for the encoder as the specification describes it: for every
    buffer of samples [createPcmBlob] yields a blob with the fixed mime
    descriptor whose data is the base64 text of two bytes per sample, the
    16-bit two's-complement value low byte first; it is defined on every
    input, an out-of-range sample being clamped to full scale instead of
    wrapping or failing; decoding the blob succeeds and gives, sample by
    sample, a value less than one quantization step away from the clamped
    input, hence from the input itself when that lies in [-1, 1]. *)
Theorem createPcmBlob_round_trip (samples : list Q) :
  mimeType (Pcm.createPcmBlob samples) = Pcm.pcmMimeType /\
  data (Pcm.createPcmBlob samples) = Base64.btoa (Pcm.pcmBytes samples) /\
  Forall isByte (Pcm.pcmBytes samples) /\
  List.length (Pcm.pcmBytes samples) = 2 * List.length samples /\
  Forall (fun x => exists lo hi,
            Pcm.int16Bytes (Pcm.quantize x) = [lo; hi] /\
            (lo + 256 * hi = Pcm.quantize x mod 65536)%Z) samples /\
  Forall (fun x => (-32768 <= Pcm.quantize x <= 32767)%Z /\
                   ((1 <= x)%Q -> Pcm.quantize x = 32767%Z) /\
                   ((x <= -1)%Q -> Pcm.quantize x = (-32767)%Z)) samples /\
  (forall n, (Pcm.dequantize (n + 1) - Pcm.dequantize n == Pcm.quantizationStep)%Q) /\
  exists decoded,
    Pcm.decodePcmBlob (Pcm.createPcmBlob samples) = Some decoded /\
    Forall2 (fun x y =>
               (Qabs (y - Pcm.clamp x) < Pcm.quantizationStep)%Q /\
               (inRange x -> (Qabs (y - x) < Pcm.quantizationStep)%Q))
            samples decoded.
Proof.
  split; [reflexivity |]. split; [reflexivity |].
  split; [apply PcmFacts.pcmBytes_are_bytes |].
  split; [apply PcmFacts.pcmBytes_are_bytes |].
  split; [| split; [| split; [exact PcmFacts.quantizationStep_spacing |]]].
  - apply Forall_forall. intros x _.
    assert (Hq : (-32768 <= Pcm.quantize x <= 32767)%Z)
      by (pose proof (PcmFacts.quantize_range x); lia).
    destruct (PcmFacts.int16_round_trip (Pcm.quantize x) Hq) as (lo & hi & E & _ & _ & L & _).
    exists lo, hi. split; assumption.
  - apply Forall_forall. intros x _. split; [| split].
    + pose proof (PcmFacts.quantize_range x). lia.
    + apply PcmFacts.quantize_above.
    + apply PcmFacts.quantize_below.
  - exists (map (fun x => Pcm.dequantize (Pcm.quantize x)) samples).
    split; [apply PcmFacts.decode_createPcmBlob |].
    apply PcmFacts.Forall2_map_r. intros x. split.
    + apply PcmFacts.quantize_error.
    + apply PcmFacts.quantize_error_inRange.
Qed.

(** A window with an in-range sample and two out-of-range ones. *)
Lemma createPcmBlob_round_trip_witness :
  inRange (1 # 2) /\
  Pcm.decodePcmBlob (Pcm.createPcmBlob [1 # 2; 2; -3]%Q)
    = Some [16383 # 32767; 32767 # 32767; -32767 # 32767]%Q /\
  (Qabs ((16383 # 32767) - (1 # 2)) < Pcm.quantizationStep)%Q /\
  Pcm.quantize 2 = 32767%Z.
Proof.
  assert (Hin : inRange (1 # 2)) by (unfold inRange, Qle; simpl; lia).
  destruct (createPcmBlob_round_trip [1 # 2; 2; -3]%Q)
    as (_ & _ & _ & _ & _ & Hclamp & _ & decoded & Hdec & Hnear).
  assert (E : decoded = [16383 # 32767; 32767 # 32767; -32767 # 32767]%Q).
  { assert (C : Pcm.decodePcmBlob (Pcm.createPcmBlob [1 # 2; 2; -3]%Q)
                = Some [16383 # 32767; 32767 # 32767; -32767 # 32767]%Q)
      by (vm_compute; reflexivity).
    rewrite C in Hdec. injection Hdec as <-. reflexivity. }
  subst decoded.
  split; [exact Hin |]. split; [exact Hdec |]. split.
  - inversion Hnear as [| x y l l' [_ Hx] _]. exact (Hx Hin).
  - inversion Hclamp as [| x l _ Hrest]. inversion Hrest as [| x' l' [_ [Habove _]] _].
    apply Habove. unfold Qle. simpl. lia.
Defined.

(* ===================================================================== *)
(** * Part III: further properties of the code                            *)
(* ===================================================================== *)

(** ** Session callbacks *)

Lemma withSession_run callback s session :
  sessionRef s = Some session -> withSession callback s = callback session s.
Proof.
  intros H. unfold withSession, bind, gets. rewrite H.
  destruct (callback session s) as [[r s2] out2]. reflexivity.
Qed.

Lemma withSession_none callback s :
  sessionRef s = None -> withSession callback s = (Some tt, s, []).
Proof. intros H. unfold withSession, bind, gets. rewrite H. reflexivity. Qed.

Lemma update_ui_keeps_session args : keeps (fun s => (active s, sessionRef s)) (update_ui args).
Proof. unfold update_ui. frames. Qed.

Lemma onmessage_keeps_session cp env msg :
  keeps (fun s => (active s, sessionRef s)) (onmessage cp env msg).
Proof.
  unfold onmessage. apply keeps_bind.
  - apply handleToolCall_keeps, update_ui_keeps_session.
  - intros _. open_handlers. frames.
Qed.

(** ** Who writes user entries *)

Lemma extendsWith_of_keeps {A} P (m : M A) : keeps history m -> extendsWith P m.
Proof. intros H s. exists []. rewrite H, app_nil_r. split; [reflexivity | constructor]. Qed.

Lemma extendsWith_bind {A B} P (m : M A) (k : A -> M B) :
  extendsWith P m -> (forall a, extendsWith P (k a)) -> extendsWith P (bind m k).
Proof.
  intros Hm Hk s. destruct (Hm s) as (added1 & E1 & F1).
  unfold bind, state in *.
  destruct (m s) as [[[a |] s1] out1]; simpl in *.
  - destruct (Hk a s1) as (added2 & E2 & F2). unfold state in E2.
    destruct (k a s1) as [[r s2] out2]. simpl in *.
    exists (added1 ++ added2). rewrite E2, E1, <- app_assoc.
    split; [reflexivity | apply Forall_app; split; assumption].
  - exists added1. split; assumption.
Qed.

Lemma onmessage_extendsWith cp env msg : extendsWith (committedBy cp) (onmessage cp env msg).
Proof.
  unfold onmessage. apply extendsWith_bind.
  { apply extendsWith_of_keeps, handleToolCall_keeps, update_ui_keeps_history. }
  intros _. unfold handleServerContent.
  destruct (serverContent msg) as [content |]; [| apply extendsWith_of_keeps; frames].
  apply extendsWith_bind.
  { apply extendsWith_of_keeps, handleAudio_keeps_history. }
  intros _. apply extendsWith_bind.
  { unfold handleOutputTranscription.
    destruct (outputTranscription_text content) as [t |];
      [| apply extendsWith_of_keeps; frames].
    destruct (nonEmpty t); simpl; [| apply extendsWith_of_keeps; frames].
    intros s. exists [entry env model t]. split; [reflexivity |].
    constructor; [left; reflexivity | constructor]. }
  intros _. apply extendsWith_bind.
  { apply extendsWith_of_keeps, handleInputTranscription_keeps_history. }
  intros _. unfold handleTurnComplete.
  destruct (turnComplete content); simpl; [| apply extendsWith_of_keeps; frames].
  destruct (nonEmpty (transcript cp)) eqn:N; simpl; [| apply extendsWith_of_keeps; frames].
  intros s. exists [entry env user (transcript cp)]. split; [reflexivity |].
  constructor; [| constructor]. right. repeat split.
  intros E. rewrite E in N. discriminate N.
Qed.

(** X1: during a session, whatever messages arrive, every user entry added
    to the history carries the transcript that the page held when the session
    was started (the value the callbacks captured), never what was heard
    since; a session started with an empty transcript adds model entries
    only. *)
Theorem user_entries_carry_the_transcript_captured_at_session_start
  (events : list Event) (s : AppState) (session : Session) :
  sessionRef s = Some session ->
  forallb isSessionMessage events = true ->
  exists added,
    history (run events s) = history s ++ added /\
    Forall (committedBy (closure_centerPanel session)) added /\
    (transcript (closure_centerPanel session) = EmptyString ->
     Forall (fun m => msg_role m = model) added).
Proof.
  revert s. induction events as [| e rest IH]; intros s Hs Hall.
  - exists []. simpl. rewrite app_nil_r. repeat split; constructor.
  - simpl in Hall. apply andb_prop in Hall. destruct Hall as [He Hrest].
    destruct e as [| | env msg | | | |]; try discriminate He.
    simpl run. simpl handle. rewrite (withSession_run _ s session Hs).
    destruct (onmessage_extendsWith (closure_centerPanel session) env msg s)
      as (added1 & E1 & F1).
    assert (Hs' : sessionRef (state (onmessage (closure_centerPanel session) env msg s))
                  = Some session).
    { pose proof (onmessage_keeps_session (closure_centerPanel session) env msg s) as K.
      simpl in K. injection K as _ K. rewrite K. exact Hs. }
    destruct (IH _ Hs' Hrest) as (added2 & E2 & F2 & M2).
    exists (added1 ++ added2). rewrite E2, E1, <- app_assoc.
    split; [reflexivity |]. split; [apply Forall_app; split; assumption |].
    intros Hempty. apply Forall_app. split; [| apply M2, Hempty].
    eapply Forall_impl; [| exact F1]. intros m [Hm | (_ & _ & Hne)];
      [exact Hm | contradiction].
Qed.

(** In the second session, which captured "hi": a turn end, then a last
    chunk with the turn-complete flag. *)
Lemma user_entries_carry_the_transcript_captured_at_session_start_witness :
  exists added,
    history (run [ SessionMessage (envAt 8) (inputTranscript "hello");
                   SessionMessage (envAt 9) (lastChunkOfTurn "Good.") ]
                 (run secondSession initialState))
      = history (run secondSession initialState) ++ added /\
    Forall (committedBy {| question := JsString "Ready to start?";
                           status := JsString "Session Ended";
                           transcript := "hi" |}) added.
Proof.
  destruct (user_entries_carry_the_transcript_captured_at_session_start
              [ SessionMessage (envAt 8) (inputTranscript "hello");
                SessionMessage (envAt 9) (lastChunkOfTurn "Good.") ]
              (run secondSession initialState)
              {| closure_centerPanel := {| question := JsString "Ready to start?";
                                           status := JsString "Session Ended";
                                           transcript := "hi" |} |}
              eq_refl eq_refl) as (added & E & F & _).
  exists added. split; [exact E | exact F].
Defined.

(** ** Batches of tool calls *)

Lemma forCalls_panels calls : forall responses s,
  panels (state (forCalls calls responses s)) =
  (lastTruthy "center_panel_question" (reached calls) (question (centerPanel s)),
   lastTruthy "status_message" (reached calls) (status (centerPanel s)),
   lastTruthy "feedback" (reached calls) (feedback s)).
Proof.
  induction calls as [| call rest IH]; intros responses s; [reflexivity |].
  rewrite forCalls_cons. simpl reached.
  destruct (isUpdateUi call) eqn:U.
  - destruct (call_args call) as [args |] eqn:A.
    + rewrite (raises_args call args A). simpl lastTruthy. unfold argument.
      rewrite U, A, IH, update_ui_run. reflexivity.
    + rewrite (raises_no_args call U A). reflexivity.
  - rewrite (raises_other_name call U). simpl lastTruthy. rewrite U. apply IH.
Qed.

Lemma lastTruthy_app k calls1 calls2 old :
  lastTruthy k (calls1 ++ calls2) old = lastTruthy k calls2 (lastTruthy k calls1 old).
Proof.
  revert old. induction calls1 as [| call rest IH]; intros old; simpl; [reflexivity |].
  apply IH.
Qed.

Lemma reached_raises before call rest :
  completes before = true -> raises call = true ->
  reached (before ++ call :: rest) = before.
Proof.
  intros Hb Hc. induction before as [| b more IH]; simpl.
  - rewrite Hc. reflexivity.
  - simpl in Hb. destruct (raises b); simpl in *; [discriminate |].
    rewrite (IH Hb). reflexivity.
Qed.

(** X2: for a batch of any size the last writer wins, field by field, among
    the calls the loop gets through: after the message the question (status,
    feedback) is the argument of the last such [update_ui] call that offers a
    truthy one, and the old value when none does; calls that offer nothing
    for the field do not reset it.  The loop gets through the whole batch
    when every [update_ui] call carries [args]; otherwise through the calls
    before the first [update_ui] call without [args], where the handler
    raises, and the calls after that one are never applied. *)
Theorem last_truthy_argument_of_a_batch_wins
  (cp : CenterPanel) (env : Env) (msg : LiveServerMessage)
  (calls : list FunctionCall) (s : AppState) :
  toolCall msg = Some {| functionCalls := Some calls |} ->
  let s' := state (onmessage cp env msg s) in
  question (centerPanel s') =
    lastTruthy "center_panel_question" (reached calls) (question (centerPanel s)) /\
  status (centerPanel s') =
    lastTruthy "status_message" (reached calls) (status (centerPanel s)) /\
  feedback s' = lastTruthy "feedback" (reached calls) (feedback s) /\
  (completes calls = true -> reached calls = calls) /\
  (forall before call rest,
      calls = before ++ call :: rest ->
      completes before = true -> raises call = true ->
      reached calls = before /\ value (onmessage cp env msg s) = None) /\
  (forall k before call old,
      lastTruthy k (before ++ [call]) old =
      if isUpdateUi call && truthy (argument k call)
      then argument k call
      else lastTruthy k before old).
Proof.
  intros Hcalls s'. subst s'.
  destruct (onmessage_toolCall cp env msg calls s Hcalls) as (_ & Hpanels & Hraise).
  rewrite forCalls_panels in Hpanels. unfold panels in Hpanels.
  inversion Hpanels as [[Hq Hs Hf]].
  split; [reflexivity |]. split; [reflexivity |]. split; [reflexivity |].
  split; [apply reached_completes |]. split.
  - intros before call rest E Hb Hc. split.
    + rewrite E. apply reached_raises; assumption.
    + rewrite Hraise; [reflexivity |].
      rewrite E. unfold completes. rewrite forallb_app. simpl.
      rewrite Hc. simpl. apply andb_false_r.
  - intros k before call old. rewrite lastTruthy_app. simpl. unfold pick.
    destruct (isUpdateUi call); [| reflexivity].
    destruct (truthy (argument k call)); reflexivity.
Qed.

(** Four calls: the question is set by the first, the status twice; the third
    call carries no [args], so the handler raises there and the fourth call's
    question is never shown. *)
Lemma last_truthy_argument_of_a_batch_wins_witness :
  let calls :=
    [ {| call_id := "1"; call_name := "update_ui";
         call_args := Some [("center_panel_question", JsString "Why this role?");
                            ("status_message", JsString "Listening...")] |};
      {| call_id := "2"; call_name := "update_ui";
         call_args := Some [("status_message", JsString "Evaluating...");
                            ("center_panel_question", JsString EmptyString)] |};
      {| call_id := "3"; call_name := "update_ui"; call_args := None |};
      {| call_id := "4"; call_name := "update_ui";
         call_args := Some [("center_panel_question", JsString "Any questions?")] |} ] in
  let o := onmessage (centerPanel initialState) (envAt 0)
             (toolCallMessage calls) initialState in
  question (centerPanel (state o)) = JsString "Why this role?" /\
  status (centerPanel (state o)) = JsString "Evaluating..." /\
  value o = None.
Proof.
  intros calls o.
  destruct (last_truthy_argument_of_a_batch_wins (centerPanel initialState) (envAt 0)
              (toolCallMessage calls) calls initialState eq_refl)
    as (Hq & Hs & _ & _ & Hraise & _).
  destruct (Hraise (firstn 2 calls)
              {| call_id := "3"; call_name := "update_ui"; call_args := None |}
              (skipn 3 calls) eq_refl eq_refl eq_refl) as [_ Hv].
  fold o in Hq, Hs, Hv. rewrite Hq, Hs, Hv. repeat split.
Defined.

(** X17: a tool-call event whose batch holds two [update_ui] calls that both
    carry [args] applies the field updates of both calls, the second after
    the first (question, status, and the feedback replaced whole), and sends
    exactly one batch of exactly two acknowledgments, each a success result
    carrying the id and the name of its own call. *)
Theorem two_update_ui_calls_both_applied_and_acknowledged
  (cp : CenterPanel) (env : Env) (msg : LiveServerMessage)
  (c1 c2 : FunctionCall) (args1 args2 : list (string * JsValue)) (s : AppState) :
  toolCall msg = Some {| functionCalls := Some [c1; c2] |} ->
  call_name c1 = "update_ui" ->
  call_name c2 = "update_ui" ->
  call_args c1 = Some args1 ->
  call_args c2 = Some args2 ->
  let o := onmessage cp env msg s in
  value (handleToolCall msg s) = Some tt /\
  toolResponses (effects o) = [[acknowledgment c1; acknowledgment c2]] /\
  (resp_id (acknowledgment c1) = call_id c1 /\
   resp_name (acknowledgment c1) = call_name c1 /\
   isSuccess (acknowledgment c1)) /\
  (resp_id (acknowledgment c2) = call_id c2 /\
   resp_name (acknowledgment c2) = call_name c2 /\
   isSuccess (acknowledgment c2)) /\
  question (centerPanel (state o)) =
    pick (prop "center_panel_question" args2)
      (pick (prop "center_panel_question" args1) (question (centerPanel s))) /\
  status (centerPanel (state o)) =
    pick (prop "status_message" args2)
      (pick (prop "status_message" args1) (status (centerPanel s))) /\
  feedback (state o) =
    pick (prop "feedback" args2) (pick (prop "feedback" args1) (feedback s)).
Proof.
  intros Hcalls H1 H2 A1 A2 o. subst o.
  destruct (onmessage_toolCall cp env msg _ s Hcalls) as (Hout & Hpanels & _).
  assert (U1 : isUpdateUi c1 = true) by (unfold isUpdateUi; rewrite H1; reflexivity).
  assert (U2 : isUpdateUi c2 = true) by (unfold isUpdateUi; rewrite H2; reflexivity).
  assert (C : completes [c1; c2] = true).
  { simpl. rewrite (raises_args c1 args1 A1), (raises_args c2 args2 A2). reflexivity. }
  split; [| split; [| split; [| split]]].
  - rewrite (handleToolCall_reads_calls msg _ Hcalls), handleToolCall_run, C. reflexivity.
  - rewrite Hout, C. simpl. rewrite U1, U2. reflexivity.
  - repeat split.
  - repeat split.
  - rewrite forCalls_cons, U1, A1, forCalls_cons, U2, A2, !update_ui_run in Hpanels.
    unfold panels, state in Hpanels. simpl in Hpanels.
    inversion Hpanels as [[Hq Hs Hf]]. repeat split.
Qed.

(** A batch that first sets the question and the status, then replaces the
    status and delivers feedback. *)
Lemma two_update_ui_calls_both_applied_and_acknowledged_witness :
  let args1 := [("center_panel_question", JsString "Tell me about yourself");
                ("status_message", JsString "Listening...")] in
  let args2 := [("status_message", JsString "Evaluating...");
                ("feedback", JsObject [("overall_score", JsNumber (7 # 1))])] in
  let c1 := {| call_id := "call-1"; call_name := "update_ui"; call_args := Some args1 |} in
  let c2 := {| call_id := "call-2"; call_name := "update_ui"; call_args := Some args2 |} in
  let o := onmessage (centerPanel initialState) (envAt 0) (toolCallMessage [c1; c2]) initialState in
  map (map resp_id) (toolResponses (effects o)) = [["call-1"; "call-2"]] /\
  question (centerPanel (state o)) = JsString "Tell me about yourself" /\
  status (centerPanel (state o)) = JsString "Evaluating..." /\
  feedback (state o) = JsObject [("overall_score", JsNumber (7 # 1))].
Proof.
  intros args1 args2 c1 c2 o.
  destruct (two_update_ui_calls_both_applied_and_acknowledged
              (centerPanel initialState) (envAt 0) (toolCallMessage [c1; c2]) c1 c2
              args1 args2 initialState eq_refl eq_refl eq_refl eq_refl eq_refl)
    as (_ & Hout & _ & _ & Hq & Hs & Hf).
  fold o in Hout, Hq, Hs, Hf.
  rewrite Hout, Hq, Hs, Hf. repeat split.
Defined.

Lemma handleServerContent_withCalls cp env calls msg :
  handleServerContent cp env (withCalls calls msg) = handleServerContent cp env msg.
Proof. reflexivity. Qed.

(** X18: a call whose name is not ["update_ui"] is skipped: on every batch
    the handler does to the state and sends to the session exactly what it
    would for the batch without such calls.  When every [update_ui] call
    carries [args], the single batch of acknowledgments holds one entry per
    [update_ui] call, in order, so their number is the number of [update_ui]
    calls, not the size of the batch (none at all gives an empty batch, still
    sent); when one of them carries none, the handler raises and no
    acknowledgment is sent.  A batch without any [update_ui] call leaves the
    panels as they were. *)
Theorem calls_with_another_name_are_ignored
  (cp : CenterPanel) (env : Env) (msg : LiveServerMessage)
  (calls : list FunctionCall) (s : AppState) :
  toolCall msg = Some {| functionCalls := Some calls |} ->
  let o := onmessage cp env msg s in
  onmessage cp env (withCalls (filter isUpdateUi calls) msg) s = o /\
  (completes calls = true ->
   exists acks, toolResponses (effects o) = [acks] /\
                acks = map acknowledgment (filter isUpdateUi calls) /\
                List.length acks = List.length (filter isUpdateUi calls)) /\
  (completes calls = false -> value o = None /\ toolResponses (effects o) = []) /\
  (filter isUpdateUi calls = [] ->
   toolResponses (effects o) = [[]] /\ panels (state o) = panels s).
Proof.
  intros Hcalls o. subst o.
  destruct (onmessage_toolCall cp env msg _ s Hcalls) as (Hout & Hpanels & Hraise).
  split; [| split; [| split]].
  - unfold onmessage, bind.
    rewrite (handleToolCall_reads_calls msg calls Hcalls).
    rewrite (handleToolCall_reads_calls (withCalls (filter isUpdateUi calls) msg) _ eq_refl).
    rewrite !handleToolCall_run, filter_idem, <- forCalls_filter, completes_filter.
    rewrite handleServerContent_withCalls. reflexivity.
  - intros C. rewrite C in Hout.
    eexists. split; [exact Hout | split; [reflexivity | apply length_map]].
  - intros C. rewrite C in Hout. split; [rewrite (Hraise C); reflexivity | exact Hout].
  - intros Hnone. split.
    + rewrite Hout, <- completes_filter, Hnone. reflexivity.
    + rewrite Hpanels, forCalls_filter, Hnone. reflexivity.
Qed.

(** A batch of three calls of which one is [update_ui]. *)
Lemma calls_with_another_name_are_ignored_witness :
  let calls := [ {| call_id := "a"; call_name := "open_url"; call_args := None |};
                 {| call_id := "b"; call_name := "update_ui";
                    call_args := Some [("status_message", JsString "Listening...")] |};
                 {| call_id := "c"; call_name := "Update_UI";
                    call_args := Some [("status_message", JsString "ignored")] |} ] in
  let o := onmessage (centerPanel initialState) (envAt 0) (toolCallMessage calls) initialState in
  exists acks, toolResponses (effects o) = [acks] /\
               map resp_id acks = ["b"] /\ List.length acks = 1.
Proof.
  intros calls o.
  destruct (calls_with_another_name_are_ignored
              (centerPanel initialState) (envAt 0) (toolCallMessage calls) calls
              initialState eq_refl)
    as (_ & Hacks & _ & _).
  destruct (Hacks eq_refl) as (acks & Hout & Hmap & Hlen).
  exists acks. fold o in Hout. split; [exact Hout |].
  split; [rewrite Hmap; reflexivity | rewrite Hlen; reflexivity].
Defined.

(** ** The live transcript *)

Lemma onmessage_inputTranscript cp env t s :
  onmessage cp env (inputTranscript t) s =
  (Some tt,
   (if nonEmpty t then state (setCenterPanel (with_transcript t) s) else s),
   []).
Proof.
  unfold onmessage, handleToolCall, handleServerContent, handleAudio,
    handleOutputTranscription, handleInputTranscription, handleTurnComplete,
    inputTranscript, bind, ret, when. simpl.
  destruct (nonEmpty t); reflexivity.
Qed.

(** X3: input-transcript chunks overwrite the live transcript and do nothing
    else: after any run of them in a session the buffer holds the last
    non-empty text (the old content when all were empty, so an empty chunk
    never clears it), the history, the panels and the playback state are as
    before and nothing was sent. *)
Theorem input_transcripts_overwrite_the_buffer
  (texts : list (Env * string)) (s : AppState) (session : Session) :
  sessionRef s = Some session ->
  let s' := run (inputTranscripts texts) s in
  transcript (centerPanel s') = lastNonEmpty (map snd texts) (transcript (centerPanel s)) /\
  s' = state (setCenterPanel (with_transcript (transcript (centerPanel s'))) s) /\
  history s' = history s /\
  output (inputTranscripts texts) s = [].
Proof.
  intros Hs s'. subst s'. revert s Hs.
  induction texts as [| [env t] rest IH]; intros s Hs.
  - simpl. repeat split. destruct s as [a h [q st tr] f v ic oc isr pr sr ns aq al].
    reflexivity.
  - unfold inputTranscripts in *. simpl map. simpl run. simpl output. simpl handle.
    rewrite (withSession_run _ s session Hs), onmessage_inputTranscript.
    unfold state at 1 3 5 7, effects at 1. simpl fst. simpl snd.
    destruct (nonEmpty t) eqn:N.
    + destruct (IH (state (setCenterPanel (with_transcript t) s)) Hs) as (Ht & Hst & Hh & Ho).
      simpl lastNonEmpty. rewrite N. repeat split; assumption.
    + destruct (IH s Hs) as (Ht & Hst & Hh & Ho).
      simpl lastNonEmpty. rewrite N. repeat split; assumption.
Qed.

(** "h", "he", an empty chunk, in a first session. *)
Lemma input_transcripts_overwrite_the_buffer_witness :
  transcript (centerPanel
    (run (inputTranscripts [(envAt 1, "h"); (envAt 2, "he"); (envAt 3, EmptyString)])
         (run [ClickMic true true; SessionOpen] initialState))) = "he".
Proof.
  destruct (input_transcripts_overwrite_the_buffer
              [(envAt 1, "h"); (envAt 2, "he"); (envAt 3, EmptyString)]
              (run [ClickMic true true; SessionOpen] initialState)
              {| closure_centerPanel := centerPanel initialState |} eq_refl)
    as (Ht & _).
  rewrite Ht. reflexivity.
Defined.

(** ** The playback queue *)

Lemma preservesQueue_of_keeps {A} (m : M A) : keeps playback m -> preservesQueue m.
Proof.
  intros K s [Hnd Hlt]. specialize (K s). unfold playback in K.
  injection K as Kq Ka. unfold queueWellFormed. rewrite Kq, Ka. split; assumption.
Qed.

Lemma preservesQueue_bind {A B} (m : M A) (k : A -> M B) :
  preservesQueue m -> (forall a, preservesQueue (k a)) -> preservesQueue (bind m k).
Proof.
  intros Hm Hk s Hs. specialize (Hm s Hs). unfold bind, state in *.
  destruct (m s) as [[[a |] s1] out1]; simpl in *; [| exact Hm].
  specialize (Hk a s1 Hm). unfold state in Hk.
  destruct (k a s1) as [[r s2] out2]. exact Hk.
Qed.

Lemma scheduleChunk_preservesQueue now buffer : preservesQueue (scheduleChunk now buffer).
Proof.
  intros s [Hnd Hlt]. unfold queueWellFormed.
  destruct (scheduleChunk_run now buffer s) as (_ & _ & _ & Hq). rewrite Hq.
  replace (allocated (state (scheduleChunk now buffer s))) with (S (allocated s))
    by reflexivity.
  split.
  - rewrite map_app. simpl. apply NoDup_app; [exact Hnd | repeat constructor; intros [] |].
    intros x Hx [Hy | []]. subst x. apply in_map_iff in Hx.
    destruct Hx as (source & Hid & Hin). rewrite Forall_forall in Hlt.
    specialize (Hlt source Hin). lia.
  - apply Forall_app. split.
    + eapply Forall_impl; [| exact Hlt]. simpl. intros source H. lia.
    + repeat constructor.
Qed.

Lemma removeFirst_incl source queue x : In x (removeFirst source queue) -> In x queue.
Proof.
  induction queue as [| y rest IH]; simpl; [tauto |].
  destruct (Nat.eqb (src_id y) (src_id source)); simpl; [tauto |].
  intros [H | H]; [left; exact H | right; apply IH, H].
Qed.

Lemma removeFirst_filter source queue :
  NoDup (map src_id queue) -> removeFirst source queue = filter (isNot source) queue.
Proof.
  induction queue as [| y rest IH]; simpl; intros Hnd; [reflexivity |].
  inversion Hnd as [| ? ? Hnotin Hrest]; subst. unfold isNot at 1.
  destruct (Nat.eqb_spec (src_id y) (src_id source)) as [E | NE]; simpl.
  - symmetry. apply forallb_filter_id. apply forallb_forall. intros x Hx.
    unfold isNot. destruct (Nat.eqb_spec (src_id x) (src_id source)) as [E' | _];
      [| reflexivity].
    exfalso. apply Hnotin. rewrite E, <- E'. apply in_map, Hx.
  - f_equal. apply IH, Hrest.
Qed.

Lemma onended_preservesQueue source : preservesQueue (onended source).
Proof.
  intros s [Hnd Hlt]. unfold queueWellFormed. simpl.
  rewrite (removeFirst_filter source _ Hnd). split.
  - clear Hlt. induction (audioQueueRef s) as [| y rest IH]; simpl; [constructor |].
    inversion Hnd as [| ? ? Hnotin Hrest]; subst.
    destruct (isNot source y); [| apply IH, Hrest].
    simpl. constructor; [| apply IH, Hrest].
    intros Hin. apply Hnotin. apply in_map_iff in Hin.
    destruct Hin as (x & Hid & Hx). apply filter_In in Hx.
    rewrite <- Hid. apply in_map, Hx.
  - rewrite Forall_forall in *. intros x Hx. apply filter_In in Hx. apply Hlt, Hx.
Qed.

Lemma cleanup_preservesQueue : preservesQueue cleanup.
Proof.
  intros s _. rewrite cleanup_run. unfold queueWellFormed, state, tornDown. simpl.
  split; constructor.
Qed.

Lemma update_ui_keeps_playback args : keeps playback (update_ui args).
Proof. unfold update_ui. frames. Qed.

Lemma onmessage_preservesQueue cp env msg : preservesQueue (onmessage cp env msg).
Proof.
  unfold onmessage. apply preservesQueue_bind.
  { apply preservesQueue_of_keeps, handleToolCall_keeps, update_ui_keeps_playback. }
  intros _. unfold handleServerContent.
  destruct (serverContent msg) as [content |]; [| apply preservesQueue_of_keeps; frames].
  apply preservesQueue_bind.
  - unfold handleAudio.
    destruct (modelTurn_parts content) as [parts |]; [| apply preservesQueue_of_keeps; frames].
    destruct (find _ parts) as [audioPart |]; [| apply preservesQueue_of_keeps; frames].
    destruct (inlineData audioPart) as [blob |]; [| apply preservesQueue_of_keeps; frames].
    apply preservesQueue_bind; [apply preservesQueue_of_keeps; frames |]. intros ctx.
    destruct (isSome ctx); [| apply preservesQueue_of_keeps; frames].
    destruct (decodeAudioData env (data blob)) as [buffer |];
      [apply scheduleChunk_preservesQueue | apply preservesQueue_of_keeps; frames].
  - intros _. apply preservesQueue_of_keeps. open_handlers. frames.
Qed.

Lemma handle_preservesQueue e : preservesQueue (handle e).
Proof.
  destruct e as [apiKey microphone | | env msg | | | inputData | source]; simpl.
  - apply preservesQueue_of_keeps. unfold handleEndSession, connectToGemini. frames.
  - apply preservesQueue_of_keeps. unfold withSession, onopen. frames.
  - unfold withSession. apply preservesQueue_bind; [apply preservesQueue_of_keeps; frames |].
    intros [session |]; [apply onmessage_preservesQueue | apply preservesQueue_of_keeps; frames].
  - unfold withSession. apply preservesQueue_bind; [apply preservesQueue_of_keeps; frames |].
    intros [session |]; [| apply preservesQueue_of_keeps; frames].
    unfold onclose. apply preservesQueue_bind; [apply preservesQueue_of_keeps; frames |].
    intros _. apply preservesQueue_bind; [apply preservesQueue_of_keeps; frames |].
    intros _. apply cleanup_preservesQueue.
  - unfold withSession. apply preservesQueue_bind; [apply preservesQueue_of_keeps; frames |].
    intros [session |]; [| apply preservesQueue_of_keeps; frames].
    unfold onerror. apply preservesQueue_bind; [apply preservesQueue_of_keeps; frames |].
    intros _. apply preservesQueue_bind; [apply preservesQueue_of_keeps; frames |].
    intros _. apply cleanup_preservesQueue.
  - apply preservesQueue_of_keeps. unfold onaudioprocess. frames.
  - apply onended_preservesQueue.
Qed.

Lemma run_preservesQueue events : forall s,
  queueWellFormed s -> queueWellFormed (run events s).
Proof.
  induction events as [| e rest IH]; intros s Hs; simpl; [exact Hs |].
  apply IH, handle_preservesQueue, Hs.
Qed.

Lemma initialState_queueWellFormed : queueWellFormed initialState.
Proof. split; constructor. Qed.

(** X4: the playback queue never holds the same source twice, and holds only
    sources that were created: both are kept by every transition, hence by
    every run of events from a state where they hold, the freshly loaded page
    among them. *)
Theorem playback_queue_holds_distinct_sources (events : list Event) (s : AppState) :
  queueWellFormed s ->
  queueWellFormed (run events s) /\ queueWellFormed (run events initialState).
Proof.
  intros Hs. split; apply run_preservesQueue; [exact Hs | exact initialState_queueWellFormed].
Qed.

Lemma playback_queue_holds_distinct_sources_witness :
  queueWellFormed (run threeChunks initialState).
Proof.
  apply (playback_queue_holds_distinct_sources threeChunks initialState).
  split; constructor.
Defined.

(** X5: when a source ends, [onended] takes exactly that source out of the
    queue and leaves the others in their order; ending a source that is not
    queued (after a teardown, say) changes nothing; scheduling a chunk and
    then ending it gives the queue back as it was. *)
Theorem onended_removes_exactly_the_ended_source
  (source : AudioBufferSourceNode) (s : AppState) :
  queueWellFormed s ->
  audioQueueRef (state (onended source s)) = filter (isNot source) (audioQueueRef s) /\
  (~ In (src_id source) (map src_id (audioQueueRef s)) ->
   audioQueueRef (state (onended source s)) = audioQueueRef s) /\
  (forall now buffer,
     audioQueueRef
       (state (onended {| src_id := allocated s; src_buffer := buffer |}
                 (state (scheduleChunk now buffer s)))) = audioQueueRef s).
Proof.
  intros [Hnd Hlt].
  assert (Hfresh : forall queue id,
            ~ In id (map src_id queue) ->
            forall buffer, filter (isNot {| src_id := id; src_buffer := buffer |}) queue = queue).
  { intros queue id Hnotin buffer. apply forallb_filter_id, forallb_forall.
    intros x Hx. unfold isNot. simpl.
    destruct (Nat.eqb_spec (src_id x) id) as [E | _]; [| reflexivity].
    exfalso. apply Hnotin. rewrite <- E. apply in_map, Hx. }
  split; [| split].
  - simpl. apply removeFirst_filter, Hnd.
  - intros Hnotin. simpl. rewrite (removeFirst_filter source _ Hnd).
    destruct source as [id buffer]. apply Hfresh, Hnotin.
  - intros now buffer.
    destruct (scheduleChunk_preservesQueue now buffer s (conj Hnd Hlt)) as [Hnd' _].
    destruct (scheduleChunk_run now buffer s) as (_ & _ & _ & Hq).
    simpl onended. unfold setAudioQueueRef, modify, state at 1. simpl.
    rewrite (removeFirst_filter _ _ Hnd'), Hq, filter_app. simpl.
    unfold isNot at 2. simpl. rewrite Nat.eqb_refl. simpl. rewrite app_nil_r.
    apply Hfresh. intros Hin. apply in_map_iff in Hin.
    destruct Hin as (x & Hid & Hx). rewrite Forall_forall in Hlt.
    specialize (Hlt x Hx). lia.
Qed.

(** Of the three queued chunks the second ends first. *)
Lemma onended_removes_exactly_the_ended_source_witness :
  map src_id (audioQueueRef
    (state (onended {| src_id := 1; src_buffer := {| buf_length := 12000; buf_sampleRate := 24000 |} |}
              (run threeChunks initialState)))) = [0; 2].
Proof.
  destruct (onended_removes_exactly_the_ended_source
              {| src_id := 1; src_buffer := {| buf_length := 12000; buf_sampleRate := 24000 |} |}
              (run threeChunks initialState)
              (run_preservesQueue threeChunks initialState
                 initialState_queueWellFormed)) as (H & _).
  rewrite H. vm_compute. reflexivity.
Defined.

Lemma queuesOnlyStarted_of_keeps {A} (m : M A) : keeps audioQueueRef m -> queuesOnlyStarted m.
Proof. intros K s source H. rewrite K in H. left. exact H. Qed.

Lemma queuesOnlyStarted_bind {A B} (m : M A) (k : A -> M B) :
  queuesOnlyStarted m -> (forall a, queuesOnlyStarted (k a)) -> queuesOnlyStarted (bind m k).
Proof.
  intros Hm Hk s source. specialize (Hm s source). unfold bind, state, effects in *.
  destruct (m s) as [[[a |] s1] out1]; simpl in *; [| exact Hm].
  specialize (Hk a s1 source). unfold state, effects in Hk.
  destruct (k a s1) as [[r s2] out2]. simpl in *.
  intros H. rewrite collect_app.
  destruct (Hk H) as [H1 | H2]; [| right; apply in_or_app; right; exact H2].
  destruct (Hm H1) as [H0 | H0]; [left; exact H0 | right; apply in_or_app; left; exact H0].
Qed.

Lemma scheduleChunk_queuesOnlyStarted now buffer : queuesOnlyStarted (scheduleChunk now buffer).
Proof.
  intros s source H.
  destruct (scheduleChunk_run now buffer s) as (_ & _ & _ & Hq). rewrite Hq in H.
  apply in_app_or in H. destruct H as [H | [H | []]]; [left; exact H |].
  right. subst source. simpl. left. reflexivity.
Qed.

Lemma cleanup_queuesOnlyStarted : queuesOnlyStarted cleanup.
Proof. intros s source H. rewrite cleanup_run in H. destruct H. Qed.

Lemma onmessage_queuesOnlyStarted cp env msg : queuesOnlyStarted (onmessage cp env msg).
Proof.
  unfold onmessage. apply queuesOnlyStarted_bind.
  { apply queuesOnlyStarted_of_keeps, handleToolCall_keeps. intros args.
    unfold update_ui. frames. }
  intros _. unfold handleServerContent.
  destruct (serverContent msg) as [content |]; [| apply queuesOnlyStarted_of_keeps; frames].
  apply queuesOnlyStarted_bind.
  - unfold handleAudio.
    destruct (modelTurn_parts content) as [parts |];
      [| apply queuesOnlyStarted_of_keeps; frames].
    destruct (find _ parts) as [audioPart |]; [| apply queuesOnlyStarted_of_keeps; frames].
    destruct (inlineData audioPart) as [blob |]; [| apply queuesOnlyStarted_of_keeps; frames].
    apply queuesOnlyStarted_bind; [apply queuesOnlyStarted_of_keeps; frames |]. intros ctx.
    destruct (isSome ctx); [| apply queuesOnlyStarted_of_keeps; frames].
    destruct (decodeAudioData env (data blob)) as [buffer |];
      [apply scheduleChunk_queuesOnlyStarted | apply queuesOnlyStarted_of_keeps; frames].
  - intros _. apply queuesOnlyStarted_of_keeps. open_handlers. frames.
Qed.

Lemma handle_queuesOnlyStarted e : queuesOnlyStarted (handle e).
Proof.
  destruct e as [apiKey microphone | | env msg | | | inputData | source]; simpl.
  - apply queuesOnlyStarted_of_keeps. unfold handleEndSession, connectToGemini. frames.
  - apply queuesOnlyStarted_of_keeps. unfold withSession, onopen. frames.
  - unfold withSession.
    apply queuesOnlyStarted_bind; [apply queuesOnlyStarted_of_keeps; frames |].
    intros [session |];
      [apply onmessage_queuesOnlyStarted | apply queuesOnlyStarted_of_keeps; frames].
  - unfold withSession.
    apply queuesOnlyStarted_bind; [apply queuesOnlyStarted_of_keeps; frames |].
    intros [session |]; [| apply queuesOnlyStarted_of_keeps; frames].
    unfold onclose.
    apply queuesOnlyStarted_bind; [apply queuesOnlyStarted_of_keeps; frames |].
    intros _. apply queuesOnlyStarted_bind; [apply queuesOnlyStarted_of_keeps; frames |].
    intros _. apply cleanup_queuesOnlyStarted.
  - unfold withSession.
    apply queuesOnlyStarted_bind; [apply queuesOnlyStarted_of_keeps; frames |].
    intros [session |]; [| apply queuesOnlyStarted_of_keeps; frames].
    unfold onerror.
    apply queuesOnlyStarted_bind; [apply queuesOnlyStarted_of_keeps; frames |].
    intros _. apply queuesOnlyStarted_bind; [apply queuesOnlyStarted_of_keeps; frames |].
    intros _. apply cleanup_queuesOnlyStarted.
  - apply queuesOnlyStarted_of_keeps. unfold onaudioprocess. frames.
  - intros s x H. left. simpl in H. eapply removeFirst_incl, H.
Qed.

(** X6: a source gets into the playback queue only after [start] was called
    on it: whatever the queue holds after a run of events was in the queue
    before the run or was started during it, so on a page that began with an
    empty queue the [stop] of the teardown only ever meets started sources. *)
Theorem queued_sources_were_started
  (events : list Event) (s : AppState) (source : AudioBufferSourceNode) :
  In source (audioQueueRef (run events s)) ->
  In source (audioQueueRef s) \/ In source (collect asStarted (output events s)).
Proof.
  revert s. induction events as [| e rest IH]; intros s H; simpl in *; [left; exact H |].
  rewrite collect_app.
  destruct (IH _ H) as [H1 | H2]; [| right; apply in_or_app; right; exact H2].
  destruct (handle_queuesOnlyStarted e s source H1) as [H0 | H0];
    [left; exact H0 | right; apply in_or_app; left; exact H0].
Qed.

(** The third chunk of the run is queued, and was started. *)
Lemma queued_sources_were_started_witness :
  In {| src_id := 2; src_buffer := {| buf_length := 12000; buf_sampleRate := 24000 |} |}
     (collect asStarted (output threeChunks initialState)).
Proof.
  destruct (queued_sources_were_started threeChunks initialState
              {| src_id := 2; src_buffer := {| buf_length := 12000; buf_sampleRate := 24000 |} |})
    as [H | H].
  - vm_compute. right. right. left. reflexivity.
  - vm_compute in H. destruct H.
  - exact H.
Defined.

(** ** Runs *)

Lemma run_app events1 : forall events2 s,
  run (events1 ++ events2) s = run events2 (run events1 s).
Proof. induction events1 as [| e rest IH]; intros; simpl; [reflexivity | apply IH]. Qed.

Lemma output_app events1 : forall events2 s,
  output (events1 ++ events2) s = output events1 s ++ output events2 (run events1 s).
Proof.
  induction events1 as [| e rest IH]; intros events2 s; simpl; [reflexivity |].
  rewrite IH, app_assoc. reflexivity.
Qed.

Lemma handle_message s session env msg :
  sessionRef s = Some session ->
  handle (SessionMessage env msg) s = onmessage (closure_centerPanel session) env msg s.
Proof.
  intros H.
  exact (withSession_run (fun s0 => onmessage (closure_centerPanel s0) env msg) s session H).
Qed.

Lemma run_messages_keep_session msgs : forall s session,
  sessionRef s = Some session ->
  active (run (sessionMessages msgs) s) = active s /\
  sessionRef (run (sessionMessages msgs) s) = Some session.
Proof.
  induction msgs as [| [env msg] rest IH]; intros s session Hs; [split; [reflexivity | exact Hs] |].
  unfold sessionMessages in *. cbn [map fst snd run].
  rewrite (handle_message s session env msg Hs).
  pose proof (onmessage_keeps_session (closure_centerPanel session) env msg s) as K.
  simpl in K. injection K as Ka Ks.
  destruct (IH (state (onmessage (closure_centerPanel session) env msg s)) session)
    as [Ha' Hs']; [rewrite Ks; exact Hs |].
  rewrite Ha', Hs', Ka. split; reflexivity.
Qed.

(** ** The cursor across sessions *)

Lemma handle_keeps_cursor_unless_message e :
  isSessionMessage e = false ->
  keeps nextStartTimeRef (handle e) /\ mute asScheduled (handle e).
Proof.
  intros He.
  destruct e as [apiKey microphone | | env msg | | | inputData | source];
    try discriminate He; simpl; split;
    unfold withSession, handleEndSession, connectToGemini, onopen, onclose,
      onerror, onaudioprocess, onended;
    frames; first [apply cleanup_keeps_cursor | apply cleanup_mute_scheduled].
Qed.

Lemma run_keeps_cursor_unless_message events : forall s,
  forallb (fun e => negb (isSessionMessage e)) events = true ->
  nextStartTimeRef (run events s) = nextStartTimeRef s /\
  scheduled (output events s) = [].
Proof.
  induction events as [| e rest IH]; intros s Hall; simpl; [split; reflexivity |].
  simpl in Hall. apply andb_prop in Hall. destruct Hall as [He Hrest].
  apply negb_true_iff in He.
  destruct (handle_keeps_cursor_unless_message e He) as [K Q].
  destruct (IH (state (handle e s)) Hrest) as [Hc Ho].
  unfold scheduled in *. rewrite collect_app, Q, Ho, Hc, K. split; reflexivity.
Qed.

Lemma onclose_state s :
  state (onclose s) =
  mkApp false (history s) (with_status (JsString "Session Ended") (centerPanel s))
    (feedback s) (volume s) None None None None (sessionRef s) (nextStartTimeRef s)
    [] (allocated s).
Proof.
  unfold onclose, bind, setActive, setCenterPanel, modify. rewrite cleanup_run.
  reflexivity.
Qed.

Lemma restart_state s session :
  sessionRef s = Some session ->
  outputAudioContextRef (run restart s) = Some {| ctx_sampleRate := 24000 |} /\
  sessionRef (run restart s)
    = Some {| closure_centerPanel :=
                with_status (JsString "Session Ended") (centerPanel s) |} /\
  active (run restart s) = true.
Proof.
  intros Hs. unfold restart.
  change (run [SessionClosed; ClickMic true true; SessionOpen] s)
    with (run [ClickMic true true; SessionOpen] (state (handle SessionClosed s))).
  simpl handle. rewrite (withSession_run (fun _ => onclose) s session Hs), onclose_state.
  repeat split.
Qed.


(** X7: the playback cursor is written by the scheduling of a chunk and by
    nothing else: every other transition, the teardown and the start of a new
    session among them, leaves it where it is.  After a session is closed and
    a new one opened, the first chunk therefore starts at the end of the last
    chunk of the old session when the clock of the new output context reads
    less. *)
Theorem cursor_survives_teardown_and_restart
  (s : AppState) (session : Session) (env : Env) (payload : string)
  (buffer : AudioBuffer) :
  sessionRef s = Some session ->
  decodeAudioData env payload = Some buffer ->
  (currentTime env <= nextStartTimeRef s)%Q ->
  (forall e s0, isSessionMessage e = false ->
      nextStartTimeRef (state (handle e s0)) = nextStartTimeRef s0) /\
  nextStartTimeRef (run restart s) = nextStartTimeRef s /\
  scheduled (output (restart ++ [SessionMessage env (audioMessage payload)]) s)
    = [(Qmax (currentTime env) (nextStartTimeRef s), duration buffer)] /\
  (Qmax (currentTime env) (nextStartTimeRef s) == nextStartTimeRef s)%Q.
Proof.
  intros Hs Hdec Hnow.
  destruct (run_keeps_cursor_unless_message restart s eq_refl) as [Hc Ho].
  destruct (restart_state s session Hs) as (Hctx & Hsess & _).
  split; [| split; [exact Hc | split]].
  - intros e s0 He. apply (proj1 (handle_keeps_cursor_unless_message e He)).
  - rewrite output_app. unfold scheduled in *. rewrite collect_app, Ho.
    cbn [output app]. rewrite app_nil_r.
    rewrite (handle_message (run restart s) _ env (audioMessage payload) Hsess).
    destruct (onmessage_audioMessage
                (with_status (JsString "Session Ended") (centerPanel s))
                env payload buffer _ (run restart s) Hctx Hdec) as [Hsch _].
    unfold scheduled in Hsch. cbn [closure_centerPanel]. rewrite Hsch, Hc. reflexivity.
  - apply Q.max_r, Hnow.
Qed.

(** A session that played three chunks (cursor at 3.5 s) is closed and a new
    one opened; its first chunk arrives when the new clock reads 0. *)
Lemma cursor_survives_teardown_and_restart_witness :
  scheduled (output (restart ++ [SessionMessage (envPlaying 0) (audioMessage "YWdhaW4=")])
               (run threeChunks initialState))
    = [(Qmax 0 (84000 # 24000), 12000 # 24000)]%Q.
Proof.
  assert (Hnow : (currentTime (envPlaying 0)
                  <= nextStartTimeRef (run threeChunks initialState))%Q)
    by (vm_compute; discriminate).
  destruct (cursor_survives_teardown_and_restart
              (run threeChunks initialState)
              {| closure_centerPanel := centerPanel initialState |}
              (envPlaying 0) "YWdhaW4="
              {| buf_length := 12000; buf_sampleRate := 24000 |}
              eq_refl eq_refl Hnow) as (_ & _ & H & _).
  exact H.
Defined.

(** ** A whole session *)

Lemma start_state s :
  active s = false ->
  active (run [ClickMic true true; SessionOpen] s) = true /\
  sessionRef (run [ClickMic true true; SessionOpen] s)
    = Some {| closure_centerPanel := centerPanel s |}.
Proof.
  intros Ha. destruct s as [a h cp f v ic oc isr pr sr ns aq al].
  simpl in Ha. subst a. split; reflexivity.
Qed.

(** No handler of the page ends a microphone stream. *)
Lemma handle_mute_trackStop e : mute asTrackStop (handle e).
Proof.
  destruct e as [apiKey microphone | | env msg | | | inputData | source]; simpl.
  - unfold handleEndSession, connectToGemini. frames.
  - unfold withSession, onopen. frames.
  - unfold withSession. apply mute_bind; [frames |].
    intros [session |]; [| frames].
    unfold onmessage. apply mute_bind; [apply handleToolCall_mute; reflexivity |].
    intros _. open_handlers. frames.
  - unfold withSession, onclose, cleanup. frames.
  - unfold withSession, onerror, cleanup. frames.
  - unfold onaudioprocess. frames.
  - unfold onended. frames.
Qed.

Lemma output_mute {X} (sel : Effect -> option X) :
  (forall e, mute sel (handle e)) ->
  forall events s, collect sel (output events s) = [].
Proof.
  intros H events. induction events as [| e rest IH]; intros s; simpl; [reflexivity |].
  rewrite collect_app, (H e s), IH. reflexivity.
Qed.

Lemma collect_nil_not_in {X} (sel : Effect -> option X) out e x :
  collect sel out = [] -> sel e = Some x -> ~ In e out.
Proof.
  intros Hc He. induction out as [| e' rest IH]; simpl; [intros [] |].
  simpl in Hc. intros [E | Hin].
  - subst e'. rewrite He in Hc. discriminate Hc.
  - destruct (sel e'); [discriminate Hc | exact (IH Hc Hin)].
Qed.

(** X8: a session that is started from an idle page, receives any messages,
    is stopped with the button and then closed by the transport ends with the
    page inactive and showing "Session Ended", the four audio refs (processor,
    input source, the two contexts) null and the playback queue empty; the
    stop click is what asks the session to close, and the session handle
    itself stays in its ref.  The microphone stream obtained at the start is
    not among what is released: the start asks for it, and no handler of the
    run ends it, so it outlives the session. *)
Theorem whole_session_closes_the_audio_graph_but_not_the_microphone
  (msgs : list (Env * LiveServerMessage)) (s : AppState) :
  active s = false ->
  let final := run (wholeSession msgs) s in
  let out := output (wholeSession msgs) s in
  active final = false /\
  status (centerPanel final) = JsString "Session Ended" /\
  processorRef final = None /\
  inputSourceRef final = None /\
  inputAudioContextRef final = None /\
  outputAudioContextRef final = None /\
  audioQueueRef final = [] /\
  sessionRef final = Some {| closure_centerPanel := centerPanel s |} /\
  In SessionClose out /\
  In GetUserMedia out /\
  ~ In TrackStop out.
Proof.
  intros Ha final out. subst final out.
  destruct (start_state s Ha) as [Ha1 Hs1].
  set (s1 := run [ClickMic true true; SessionOpen] s) in *.
  destruct (run_messages_keep_session msgs s1 _ Hs1) as [Ha2 Hs2].
  rewrite Ha1 in Ha2.
  set (s2 := run (sessionMessages msgs) s1) in *.
  assert (E3 : handle (ClickMic true true) s2 =
               (Some tt, state (setActive false s2), [SessionClose])).
  { unfold handle, handleEndSession, bind, gets, when, emit. rewrite Ha2, Hs2. reflexivity. }
  assert (Hs3 : sessionRef (state (setActive false s2))
                = Some {| closure_centerPanel := centerPanel s |}) by exact Hs2.
  assert (Hfinal : run (wholeSession msgs) s = state (onclose (state (setActive false s2)))).
  { unfold wholeSession. rewrite !run_app. fold s1. fold s2. cbn [run]. rewrite E3.
    change (state (Some tt, state (setActive false s2), [SessionClose]))
      with (state (setActive false s2)).
    cbn [handle]. rewrite (withSession_run (fun _ => onclose) _ _ Hs3). reflexivity. }
  rewrite Hfinal, onclose_state.
  split; [reflexivity |]. split; [reflexivity |]. split; [reflexivity |].
  split; [reflexivity |]. split; [reflexivity |]. split; [reflexivity |].
  split; [reflexivity |]. split; [exact Hs3 |].
  split; [| split].
  - unfold wholeSession. rewrite !output_app. fold s1. fold s2.
    apply in_or_app. right. apply in_or_app. right.
    cbn [output]. rewrite E3. left. reflexivity.
  - unfold wholeSession. rewrite output_app. apply in_or_app. left.
    cbn [output]. apply in_or_app. left.
    unfold handle, connectToGemini, bind, gets, effects. rewrite Ha. simpl.
    left. reflexivity.
  - apply (collect_nil_not_in asTrackStop _ TrackStop tt); [| reflexivity].
    apply output_mute, handle_mute_trackStop.
Qed.

(** A session in which two chunks were scheduled and are still queued when
    the user stops. *)
Lemma whole_session_closes_the_audio_graph_but_not_the_microphone_witness :
  audioQueueRef (run (wholeSession [ (envPlaying 0, audioMessage "Zmlyc3Q=");
                                     (envPlaying (1 # 10), audioMessage "c2Vjb25k") ])
                     initialState) = [] /\
  active (run (wholeSession [ (envPlaying 0, audioMessage "Zmlyc3Q=");
                              (envPlaying (1 # 10), audioMessage "c2Vjb25k") ])
              initialState) = false /\
  In GetUserMedia (output (wholeSession [ (envPlaying 0, audioMessage "Zmlyc3Q=");
                                          (envPlaying (1 # 10), audioMessage "c2Vjb25k") ])
                     initialState).
Proof.
  destruct (whole_session_closes_the_audio_graph_but_not_the_microphone
              [ (envPlaying 0, audioMessage "Zmlyc3Q=");
                (envPlaying (1 # 10), audioMessage "c2Vjb25k") ]
              initialState eq_refl) as (Ha & _ & _ & _ & _ & _ & Hq & _ & _ & Hm & _).
  split; [exact Hq |]. split; [exact Ha | exact Hm].
Defined.


(** ** Failed attempts *)

(** X9: an attempt to start a session without the API key or without the
    microphone raises exactly one alert and installs no session: the page
    stays inactive and the session ref, history, panels, feedback, queue and
    cursor are as before.  Without the key nothing at all changes; with the key
    but no microphone the two audio contexts (16 kHz capture, 24 kHz playback)
    have been created and stay in their refs.  If there was no session before,
    session events that follow find no callback. *)
Theorem failed_attempt_installs_no_session
  (apiKey microphone : bool) (s : AppState) :
  active s = false ->
  apiKey && microphone = false ->
  let o := handle (ClickMic apiKey microphone) s in
  value o = Some tt /\
  (exists text, effects o = [Alert text]) /\
  active (state o) = false /\
  sessionRef (state o) = sessionRef s /\
  history (state o) = history s /\
  centerPanel (state o) = centerPanel s /\
  feedback (state o) = feedback s /\
  audioQueueRef (state o) = audioQueueRef s /\
  nextStartTimeRef (state o) = nextStartTimeRef s /\
  (apiKey = false -> state o = s) /\
  (apiKey = true ->
     inputAudioContextRef (state o) = Some {| ctx_sampleRate := 16000 |} /\
     outputAudioContextRef (state o) = Some {| ctx_sampleRate := 24000 |}) /\
  (sessionRef s = None ->
     forall e, isSessionEvent e = true -> handle e (state o) = (Some tt, state o, [])).
Proof.
  intros Ha Hfail o. subst o.
  destruct s as [a h cp f v ic oc isr pr sr ns aq al]. simpl in Ha. subst a.
  destruct apiKey, microphone; try discriminate Hfail;
    (repeat split; try reflexivity; try discriminate;
     [eexists; reflexivity |
      intros Hnone e He; simpl in Hnone; subst sr;
      destruct e; try discriminate He; reflexivity]).
Qed.

(** No microphone, on the freshly loaded page. *)
Lemma failed_attempt_installs_no_session_witness :
  effects (handle (ClickMic true false) initialState)
    = [Alert "Could not access microphone or connect."] /\
  sessionRef (state (handle (ClickMic true false) initialState)) = None /\
  outputAudioContextRef (state (handle (ClickMic true false) initialState))
    = Some {| ctx_sampleRate := 24000 |} /\
  handle SessionOpen (state (handle (ClickMic true false) initialState))
    = (Some tt, state (handle (ClickMic true false) initialState), []).
Proof.
  destruct (failed_attempt_installs_no_session true false initialState eq_refl eq_refl)
    as (_ & _ & _ & Hs & _ & _ & _ & _ & _ & _ & Hctx & Hev).
  split; [reflexivity |]. split; [exact Hs |].
  split; [exact (proj2 (Hctx eq_refl)) |].
  exact (Hev eq_refl SessionOpen eq_refl).
Defined.

(** ** Audio that cannot be played *)

Lemma update_ui_keeps_context args : keeps outputAudioContextRef (update_ui args).
Proof. unfold update_ui. frames. Qed.

Lemma update_ui_keeps_transcript args :
  keeps (fun s => transcript (centerPanel s)) (update_ui args).
Proof. unfold update_ui. frames. Qed.

Lemma handleAudio_failed_decoding env content blob ctx s :
  firstInline content = Some blob ->
  outputAudioContextRef s = Some ctx ->
  decodeAudioData env (data blob) = None ->
  handleAudio env content s = (None, s, []).
Proof.
  unfold firstInline, handleAudio. intros Hin Hctx Hdec.
  destruct (modelTurn_parts content) as [parts |]; [| discriminate Hin].
  destruct (find _ parts) as [audioPart |]; [| discriminate Hin].
  rewrite Hin. unfold bind, gets. rewrite Hctx. simpl. rewrite Hdec. reflexivity.
Qed.

(** X10: when the inline audio of a message cannot be decoded (the output
    context being there), the handler ends at that point with an exception:
    what the tool-call block did stays done (the calls of the message applied
    and acknowledged), but its output transcript is not added to the history,
    its input transcript does not reach the buffer, its turn-complete signal
    is not acted on and nothing is scheduled. *)
Theorem failed_decoding_drops_the_rest_of_the_message
  (cp : CenterPanel) (env : Env) (msg : LiveServerMessage) (content : ServerContent)
  (blob : AudioBlob) (ctx : AudioContext) (s : AppState) :
  serverContent msg = Some content ->
  firstInline content = Some blob ->
  outputAudioContextRef s = Some ctx ->
  decodeAudioData env (data blob) = None ->
  onmessage cp env msg s =
    (None, state (handleToolCall msg s), effects (handleToolCall msg s)) /\
  history (state (onmessage cp env msg s)) = history s /\
  transcript (centerPanel (state (onmessage cp env msg s))) = transcript (centerPanel s) /\
  scheduled (effects (onmessage cp env msg s)) = [].
Proof.
  intros Hcontent Hin Hctx Hdec.
  assert (Hctx1 : outputAudioContextRef (state (handleToolCall msg s)) = Some ctx).
  { rewrite (handleToolCall_keeps outputAudioContextRef msg update_ui_keeps_context s).
    exact Hctx. }
  assert (E : onmessage cp env msg s =
              (None, state (handleToolCall msg s), effects (handleToolCall msg s))).
  { unfold onmessage, bind. revert Hctx1.
    destruct (handleToolCall msg s) as [[[u |] s1] out1]; [| reflexivity].
    unfold state, effects. simpl fst. simpl snd. intros Hctx1.
    assert (R : handleServerContent cp env msg s1 = (None, s1, [])).
    { unfold handleServerContent. rewrite Hcontent. unfold bind at 1.
      rewrite (handleAudio_failed_decoding env content blob ctx _ Hin Hctx1 Hdec).
      reflexivity. }
    rewrite R, app_nil_r. reflexivity. }
  split; [exact E |]. rewrite E. unfold state at 1 3, effects at 1. simpl fst. simpl snd.
  split; [apply (handleToolCall_keeps history msg update_ui_keeps_history s) |].
  split; [apply (handleToolCall_keeps (fun s0 => transcript (centerPanel s0)) msg
                   update_ui_keeps_transcript s) |].
  exact (handleToolCall_mute asScheduled msg (fun _ => eq_refl) s).
Qed.

(** A last chunk of a turn whose audio is broken, in a running session. *)
Lemma failed_decoding_drops_the_rest_of_the_message_witness :
  let content := {| modelTurn_parts := Some [ {| inlineData := Some {| data := "%%%";
                                                mimeType := "audio/pcm;rate=24000" |} |} ];
                    outputTranscription_text := Some "Good.";
                    inputTranscription_text := Some "hello";
                    turnComplete := true |} in
  let msg := {| toolCall := None; serverContent := Some content |} in
  let s := run [ClickMic true true; SessionOpen] initialState in
  value (onmessage (centerPanel initialState) (envAt 5) msg s) = None /\
  history (state (onmessage (centerPanel initialState) (envAt 5) msg s)) = [].
Proof.
  intros content msg s.
  destruct (failed_decoding_drops_the_rest_of_the_message
              (centerPanel initialState) (envAt 5) msg content
              {| data := "%%%"; mimeType := "audio/pcm;rate=24000" |}
              {| ctx_sampleRate := 24000 |} s eq_refl eq_refl eq_refl eq_refl)
    as (E & Hh & _).
  split; [rewrite E; reflexivity | exact Hh].
Defined.

Lemma bind_congr {A B} (m : M A) (k k' : A -> M B) s :
  (forall a, k a (state (m s)) = k' a (state (m s))) -> bind m k s = bind m k' s.
Proof.
  unfold bind, state. destruct (m s) as [[[a |] s1] out1]; simpl; intros H;
    [rewrite H |]; reflexivity.
Qed.

Lemma handleAudio_without_context env content s :
  outputAudioContextRef s = None -> handleAudio env content s = (Some tt, s, []).
Proof.
  unfold handleAudio. intros Hctx.
  destruct (modelTurn_parts content) as [parts |]; [| reflexivity].
  destruct (find _ parts) as [audioPart |]; [| reflexivity].
  destruct (inlineData audioPart) as [blob |]; [| reflexivity].
  unfold bind, gets. rewrite Hctx. reflexivity.
Qed.

(** X11: while there is no output context (before a session is started, and
    again after the teardown) the audio of a message is skipped without being
    decoded: the handler does to the state and sends to the session exactly
    what it does for the same message without its model turn, so transcripts
    and tool calls of a late message still take effect, nothing is scheduled
    and a payload that would not decode raises nothing. *)
Theorem audio_is_skipped_without_output_context
  (cp : CenterPanel) (env : Env) (msg : LiveServerMessage) (s : AppState) :
  outputAudioContextRef s = None ->
  onmessage cp env msg s = onmessage cp env (withoutAudio msg) s /\
  scheduled (effects (onmessage cp env msg s)) = [] /\
  nextStartTimeRef (state (onmessage cp env msg s)) = nextStartTimeRef s /\
  audioQueueRef (state (onmessage cp env msg s)) = audioQueueRef s.
Proof.
  intros Hctx.
  assert (Hctx1 : outputAudioContextRef (state (handleToolCall msg s)) = None).
  { rewrite (handleToolCall_keeps outputAudioContextRef msg update_ui_keeps_context s).
    exact Hctx. }
  assert (E : onmessage cp env msg s = onmessage cp env (withoutAudio msg) s).
  { unfold onmessage.
    change (handleToolCall (withoutAudio msg)) with (handleToolCall msg).
    apply bind_congr. intros _.
    unfold handleServerContent, withoutAudio. simpl serverContent.
    destruct (serverContent msg) as [content |]; [| reflexivity].
    unfold bind. rewrite !handleAudio_without_context by exact Hctx1.
    reflexivity. }
  split; [exact E |].
  destruct (onmessage_schedulesAtMostOne cp env (withoutAudio msg) s)
    as [[Hsch Hcur] | (now & buffer & Hsch & _)].
  - rewrite E. split; [exact Hsch |]. split; [exact Hcur |].
    assert (K : keeps audioQueueRef (onmessage cp env (withoutAudio msg))).
    { unfold onmessage. apply keeps_bind.
      - apply handleToolCall_keeps. intros args. unfold update_ui. frames.
      - intros _. unfold handleServerContent, withoutAudio. simpl serverContent.
        destruct (serverContent msg) as [content |]; [| frames].
        unfold handleAudio. simpl modelTurn_parts.
        unfold handleOutputTranscription, handleInputTranscription, handleTurnComplete.
        frames. }
    apply K.
  - exfalso.
    assert (Q : mute asScheduled (onmessage cp env (withoutAudio msg))).
    { unfold onmessage. apply mute_bind.
      - apply handleToolCall_mute. reflexivity.
      - intros _. unfold handleServerContent, withoutAudio. simpl serverContent.
        destruct (serverContent msg) as [content |]; [| frames].
        unfold handleAudio. simpl modelTurn_parts.
        unfold handleOutputTranscription, handleInputTranscription, handleTurnComplete.
        frames. }
    unfold scheduled in Hsch. rewrite Q in Hsch. discriminate Hsch.
Qed.

(** After the session of three chunks has been closed, a late message with
    audio and an output transcript arrives. *)
Lemma audio_is_skipped_without_output_context_witness :
  let late := {| toolCall := None;
                 serverContent := Some
                   {| modelTurn_parts := Some [ {| inlineData := Some {| data := "bGF0ZQ==";
                                                   mimeType := "audio/pcm;rate=24000" |} |} ];
                      outputTranscription_text := Some "Goodbye.";
                      inputTranscription_text := None;
                      turnComplete := false |} |} in
  let s := run (threeChunks ++ [SessionClosed]) initialState in
  scheduled (effects (onmessage (centerPanel initialState) (envPlaying 9) late s)) = [] /\
  history (state (onmessage (centerPanel initialState) (envPlaying 9) late s))
    = [entry (envPlaying 9) model "Goodbye."].
Proof.
  intros late s.
  destruct (audio_is_skipped_without_output_context
              (centerPanel initialState) (envPlaying 9) late s eq_refl) as (E & Hs & _).
  split; [exact Hs |]. rewrite E. vm_compute. reflexivity.
Defined.


(** ** Configuration *)

Lemma readKey_assign k k' v o :
  readKey k (assign k' v o) = if k =? k' then Some v else readKey k o.
Proof.
  induction o as [| [k0 v0] rest IH]; simpl.
  - destruct (k =? k'); reflexivity.
  - destruct (String.eqb_spec k' k0) as [E | NE]; simpl.
    + subst k0. destruct (k =? k'); reflexivity.
    + rewrite IH. destruct (String.eqb_spec k k0) as [E0 | NE0]; [| reflexivity].
      subst k0. destruct (String.eqb_spec k k') as [E1 | _]; [| reflexivity].
      subst k'. contradiction NE. reflexivity.
Qed.

Lemma keys_assign k v o : In k (map fst o) -> map fst (assign k v o) = map fst o.
Proof.
  induction o as [| [k0 v0] rest IH]; simpl; [tauto |].
  intros Hin. destruct (String.eqb_spec k k0) as [E | NE]; simpl; [reflexivity |].
  f_equal. apply IH. destruct Hin as [H | H]; [| exact H]. subst k0. contradiction NE.
  reflexivity.
Qed.

(** X12: after any sequence of configuration changes a key reads as the
    value of the last change that named it, or as before when none did; as
    long as the changes name keys the configuration has (the three selects
    do), no key is added, removed or moved. *)
Theorem config_reads_the_last_change
  (changes : list (string * string)) (config : Config) (k : string) :
  readKey k (changeAll changes config) = lastChange k changes (readKey k config) /\
  (Forall (fun change => In (fst change) (map fst config)) changes ->
   map fst (changeAll changes config) = map fst config).
Proof.
  split.
  - revert config. induction changes as [| [name value] rest IH]; intros config;
      [reflexivity |].
    unfold changeAll, lastChange in *. simpl. rewrite IH.
    unfold handleConfigChange. rewrite readKey_assign. reflexivity.
  - revert config. induction changes as [| [name value] rest IH]; intros config Hall;
      [reflexivity |].
    inversion Hall as [| ? ? Hname Hrest]; subst. simpl in Hname.
    unfold changeAll in *. simpl. unfold handleConfigChange at 2.
    rewrite IH; rewrite (keys_assign name value config Hname); [reflexivity | exact Hrest].
Qed.

(** The difficulty is changed twice and the mode once. *)
Lemma config_reads_the_last_change_witness :
  readKey "difficulty"
    (changeAll [("difficulty", "Hard"); ("mode", "group_discussion"); ("difficulty", "Easy")]
               initialConfig) = Some "Easy" /\
  map fst (changeAll [("difficulty", "Hard"); ("mode", "group_discussion");
                      ("difficulty", "Easy")] initialConfig)
    = ["role"; "difficulty"; "mode"].
Proof.
  destruct (config_reads_the_last_change
              [("difficulty", "Hard"); ("mode", "group_discussion"); ("difficulty", "Easy")]
              initialConfig "difficulty") as [Hread Hkeys].
  split; [rewrite Hread; reflexivity |].
  rewrite Hkeys; [reflexivity |].
  repeat constructor; simpl; tauto.
Defined.


(** ** The visualizer *)

Module VisualizerFacts.
Import Visualizer.

Local Open Scope Q_scope.

Lemma randomize_inBand random height bars : forall i,
  0 <= height -> unitInterval random ->
  Forall (inBand height) (randomize random i height bars) /\
  List.length (randomize random i height bars) = List.length bars.
Proof.
  induction bars as [| b rest IH]; intros i Hh Hr; simpl; [split; [constructor | reflexivity] |].
  destruct (IH (S i) Hh Hr) as [IHb IHl]. split; [| rewrite IHl; reflexivity].
  constructor; [| exact IHb].
  destruct (Hr i) as [Hlo Hhi]. unfold inBand.
  assert (H0 : 0 <= height * (8 # 10)) by lra.
  pose proof (Qmult_le_0_compat _ _ Hlo H0) as Hpos.
  assert (Hle : random i * (height * (8 # 10)) <= 1 * (height * (8 # 10)))
    by (apply Qmult_le_compat_r; [lra | exact H0]).
  lra.
Qed.

Lemma decay_inBand height bars :
  0 <= height -> Forall (inBand height) bars ->
  Forall (inBand height) (decay bars) /\ List.length (decay bars) = List.length bars.
Proof.
  intros Hh Hb. unfold decay. split; [| apply length_map].
  induction Hb as [| b rest [Hlo Hhi] _ IH]; simpl; constructor; [| exact IH].
  unfold inBand. split; [apply Q.le_max_l |].
  apply Q.max_lub; lra.
Qed.

Lemma decay_never_grows bars :
  Forall (fun h => 4 <= h) bars -> Forall2 Qle (decay bars) bars.
Proof.
  unfold decay. induction 1 as [| b rest Hb _ IH]; simpl; constructor; [| exact IH].
  apply Q.max_lub; lra.
Qed.

Lemma animate_inBand isActive random width height bars :
  0 <= height -> unitInterval random -> Forall (inBand height) bars ->
  Forall (inBand height) (fst (animate isActive random width height bars)) /\
  List.length (fst (animate isActive random width height bars)) = List.length bars.
Proof.
  intros Hh Hr Hb. unfold animate. simpl. destruct isActive.
  - apply randomize_inBand; assumption.
  - apply decay_inBand; assumption.
Qed.

Lemma initialBars_inBand height : 25 # 4 <= height -> Forall (inBand height) initialBars.
Proof.
  intros Hh. unfold initialBars. apply Forall_forall. intros b Hb.
  apply repeat_spec in Hb. subst b. unfold inBand. lra.
Qed.

Lemma animateAll_inBand ticks : forall width height isActive bars,
  25 # 4 <= height -> Forall (inBand height) bars -> List.length bars = 20%nat ->
  Forall (fun tick => unitInterval (draws tick)) ticks ->
  Forall (inBand height) (animateAll ticks width height isActive bars) /\
  List.length (animateAll ticks width height isActive bars) = 20%nat.
Proof.
  induction ticks as [| [isActive' random | random] rest IH];
    intros width height isActive bars Hh Hb Hl Hf; [split; assumption | |];
    inversion Hf as [| ? ? Hr Hrest]; subst; simpl in Hr;
    assert (Hh0 : 0 <= height) by lra.
  - destruct (animate_inBand isActive' random width height initialBars Hh0 Hr
                (initialBars_inBand height Hh)) as [Hb1 Hl1].
    change (animateAll (EffectStart isActive' random :: rest) width height isActive bars)
      with (animateAll rest width height isActive'
              (fst (animate isActive' random width height initialBars))).
    apply IH; [exact Hh | exact Hb1 | rewrite Hl1; reflexivity | exact Hrest].
  - destruct (animate_inBand isActive random width height bars Hh0 Hr Hb) as [Hb1 Hl1].
    change (animateAll (NextFrame random :: rest) width height isActive bars)
      with (animateAll rest width height isActive
              (fst (animate isActive random width height bars))).
    apply IH; [exact Hh | exact Hb1 | rewrite Hl1; exact Hl | exact Hrest].
Qed.

Lemma nth_draw bars : forall k barWidth height i r,
  nth_error (draw k barWidth height bars) i = Some r ->
  exists h, nth_error bars i = Some h /\
            r = {| rect_x := inject_Z (Z.of_nat (k + i)) * (barWidth + 4) + 2;
                   rect_y := (height - h) / 2;
                   rect_w := barWidth;
                   rect_h := h |}.
Proof.
  induction bars as [| b rest IH]; intros k barWidth height i r H;
    [destruct i; discriminate H |].
  destruct i as [| i]; simpl in H.
  - injection H as <-. exists b. rewrite Nat.add_0_r. split; reflexivity.
  - destruct (IH (S k) barWidth height i r H) as (h & Hn & Hr).
    exists h. split; [exact Hn |]. rewrite Hr. rewrite <- plus_n_Sm. reflexivity.
Qed.

Lemma inject_nat_succ i : inject_Z (Z.of_nat (S i)) == inject_Z (Z.of_nat i) + 1.
Proof. rewrite Nat2Z.inj_succ. unfold Z.succ. rewrite inject_Z_plus. reflexivity. Qed.

Lemma inject_nat_lt i n : (i < n)%nat -> inject_Z (Z.of_nat i) + 1 <= inject_Z (Z.of_nat n).
Proof.
  intros H. rewrite <- inject_nat_succ. rewrite <- Zle_Qle. lia.
Qed.

Lemma inject_nat_nonneg i : 0 <= inject_Z (Z.of_nat i).
Proof. change 0 with (inject_Z 0). rewrite <- Zle_Qle. lia. Qed.

(** Where the [i]-th bar of a row of [n] lies on a canvas [width] wide. *)
Lemma bar_position width n i :
  0 <= width -> (i < n)%nat ->
  let barWidth := width / inject_Z (Z.of_nat n) - 4 in
  let x := inject_Z (Z.of_nat i) * (barWidth + 4) + 2 in
  0 <= x /\ x + barWidth <= width /\
  (4 * inject_Z (Z.of_nat n) <= width -> 0 <= barWidth).
Proof.
  intros Hw Hi barWidth x. subst x barWidth.
  pose proof (inject_nat_lt i n Hi) as Hlt.
  pose proof (inject_nat_nonneg i) as Hi0.
  set (iq := inject_Z (Z.of_nat i)) in *.
  set (nq := inject_Z (Z.of_nat n)) in *.
  assert (Hn : 0 < nq) by lra.
  assert (Hc : 0 <= width / nq).
  { apply Qle_shift_div_l; [exact Hn | lra]. }
  assert (Hw' : nq * (width / nq) == width).
  { field. intros E. rewrite E in Hn. apply (Qlt_irrefl 0 Hn). }
  set (c := width / nq) in *.
  pose proof (Qmult_le_0_compat _ _ Hi0 Hc) as Hic.
  assert (Hmul : (iq + 1) * c <= nq * c) by (apply Qmult_le_compat_r; assumption).
  split; [lra |]. split; [lra |].
  intros H4.
  assert (H4c : 4 * nq <= nq * c) by lra.
  assert (Hgoal : 4 <= c).
  { apply Qnot_lt_le. intros Hlt4.
    assert (nq * c < nq * 4) by (apply Qmult_lt_l; assumption). lra. }
  lra.
Qed.

End VisualizerFacts.

(** X13: the heights of the visualizer's bars stay in a fixed band: on a
    canvas at least 6.25 high, from the start of the effect on and through any
    sequence of further frames and restarts of the effect, there are twenty
    bars, each between 4 and [0.8 * height + 5]; an idle frame never makes a
    bar of height 4 or more taller. *)
Theorem visualizer_bars_stay_in_band
  (ticks : list Visualizer.Tick) (width height : Q)
  (isActive : bool) (random : nat -> Q) :
  (25 # 4 <= height)%Q ->
  Visualizer.unitInterval random ->
  Forall (fun tick => Visualizer.unitInterval (Visualizer.draws tick)) ticks ->
  let bars := Visualizer.animateAll (Visualizer.EffectStart isActive random :: ticks)
                width height false [] in
  Forall (Visualizer.inBand height) bars /\
  List.length bars = 20 /\
  (forall bars0, Forall (fun h => (4 <= h)%Q) bars0 ->
                 Forall2 Qle (Visualizer.decay bars0) bars0).
Proof.
  intros Hh Hr Hf bars. subst bars.
  assert (Hh0 : (0 <= height)%Q) by lra.
  destruct (VisualizerFacts.animate_inBand isActive random width height
              Visualizer.initialBars Hh0 Hr (VisualizerFacts.initialBars_inBand height Hh))
    as [Hb1 Hl1].
  destruct (VisualizerFacts.animateAll_inBand ticks width height isActive
              (fst (Visualizer.animate isActive random width height Visualizer.initialBars))
              Hh Hb1 Hl1 Hf) as [Hb Hl].
  split; [exact Hb |]. split; [exact Hl |].
  exact VisualizerFacts.decay_never_grows.
Qed.

(** The effect starts active with all draws 1/2, one more frame follows, then
    the effect restarts idle, on the 300 by 60 canvas of the component. *)
Lemma visualizer_bars_stay_in_band_witness :
  Forall (Visualizer.inBand 60)
    (Visualizer.animateAll
       [ Visualizer.EffectStart true (fun _ => 1 # 2);
         Visualizer.NextFrame (fun _ => 1 # 2);
         Visualizer.EffectStart false (fun _ => 0) ]%Q
       300 60 false []).
Proof.
  assert (Hh : (25 # 4 <= 60)%Q) by (unfold Qle; simpl; lia).
  assert (Hhalf : Visualizer.unitInterval (fun _ => 1 # 2)%Q)
    by (intros i; split; [unfold Qle | unfold Qlt]; simpl; lia).
  assert (Hzero : Visualizer.unitInterval (fun _ => 0)%Q)
    by (intros i; split; [unfold Qle | unfold Qlt]; simpl; lia).
  assert (Hticks : Forall (fun tick => Visualizer.unitInterval (Visualizer.draws tick))
                     [ Visualizer.NextFrame (fun _ => 1 # 2);
                       Visualizer.EffectStart false (fun _ => 0) ]%Q).
  { apply Forall_cons; [exact Hhalf |]. apply Forall_cons; [exact Hzero | apply Forall_nil]. }
  exact (proj1 (visualizer_bars_stay_in_band
                  [ Visualizer.NextFrame (fun _ => 1 # 2);
                    Visualizer.EffectStart false (fun _ => 0) ]%Q
                  300 60 true (fun _ => 1 # 2)%Q Hh Hhalf Hticks)).
Defined.

(** X14: every bar is drawn inside the canvas.  On a canvas at least 25
    high, with bars in the band, each rectangle of a frame lies between the
    left and the right edge and between the top and the bottom edge, is
    centred on the middle line, and the next rectangle begins 4 to the right
    of its right side; its width is not negative when the canvas is at least
    four times as wide as there are bars. *)
Theorem visualizer_draws_inside_the_canvas
  (isActive : bool) (random : nat -> Q) (width height : Q) (bars : list Q)
  (i : nat) (r : Visualizer.Rect) :
  (25 <= height)%Q ->
  (0 <= width)%Q ->
  Visualizer.unitInterval random ->
  Forall (Visualizer.inBand height) bars ->
  nth_error (snd (Visualizer.animate isActive random width height bars)) i = Some r ->
  ((0 <= Visualizer.rect_x r)%Q /\
   (Visualizer.rect_x r + Visualizer.rect_w r <= width)%Q /\
   (0 <= Visualizer.rect_y r)%Q /\
   (Visualizer.rect_y r + Visualizer.rect_h r <= height)%Q /\
   (Visualizer.rect_y r + Visualizer.rect_h r / 2 == height / 2)%Q /\
   ((4 * lengthQ bars <= width)%Q -> (0 <= Visualizer.rect_w r)%Q) /\
   (forall r',
      nth_error (snd (Visualizer.animate isActive random width height bars)) (S i) = Some r' ->
      (Visualizer.rect_x r' == Visualizer.rect_x r + Visualizer.rect_w r + 4)%Q)).
Proof.
  intros Hh Hw Hr Hb Hnth.
  assert (Hh0 : (0 <= height)%Q) by lra.
  destruct (VisualizerFacts.animate_inBand isActive random width height bars Hh0 Hr Hb)
    as [Hband Hlen].
  unfold Visualizer.animate in *. cbn [fst snd] in *.
  set (bars' := if isActive then Visualizer.randomize random 0 height bars
                else Visualizer.decay bars) in *.
  destruct (VisualizerFacts.nth_draw bars' 0 _ height i r Hnth) as (h & Hn & Er).
  assert (Hi : i < List.length bars).
  { rewrite <- Hlen. apply nth_error_Some. rewrite Hn. discriminate. }
  rewrite Forall_forall in Hband.
  destruct (Hband h (nth_error_In _ _ Hn)) as [Hlo Hhi].
  destruct (VisualizerFacts.bar_position width (List.length bars) i Hw Hi)
    as (Hx0 & Hx1 & Hw0).
  cbv zeta in Hx0, Hx1, Hw0. fold (lengthQ bars) in Hx0, Hx1, Hw0.
  subst r. cbn [Visualizer.rect_x Visualizer.rect_y Visualizer.rect_w Visualizer.rect_h
                Nat.add].
  split; [exact Hx0 |]. split; [exact Hx1 |].
  unfold Qdiv at 1 2 3 4. change (/ 2)%Q with (1 # 2)%Q.
  split; [lra |]. split; [lra |]. split; [unfold Qdiv; change (/ 2)%Q with (1 # 2)%Q; lra |].
  split; [exact Hw0 |].
  intros r' Hnth'.
  destruct (VisualizerFacts.nth_draw bars' 0 _ height (S i) r' Hnth') as (h' & _ & Er').
  subst r'. cbn [Visualizer.rect_x Nat.add].
  rewrite VisualizerFacts.inject_nat_succ. lra.
Qed.

(** The last of the twenty bars of an idle frame on the 300 by 60 canvas. *)
Lemma visualizer_draws_inside_the_canvas_witness :
  exists r,
    nth_error (snd (Visualizer.animate false (fun _ => 0%Q) 300 60 Visualizer.initialBars)) 19
      = Some r /\
    (Visualizer.rect_x r + Visualizer.rect_w r <= 300)%Q /\
    (Visualizer.rect_y r + Visualizer.rect_h r <= 60)%Q.
Proof.
  assert (Hh : (25 <= 60)%Q) by (unfold Qle; simpl; lia).
  assert (Hw : (0 <= 300)%Q) by (unfold Qle; simpl; lia).
  assert (Hzero : Visualizer.unitInterval (fun _ => 0)%Q)
    by (intros i; split; [unfold Qle | unfold Qlt]; simpl; lia).
  assert (Hb : Forall (Visualizer.inBand 60) Visualizer.initialBars)
    by (apply VisualizerFacts.initialBars_inBand; unfold Qle; simpl; lia).
  eexists. split; [vm_compute; reflexivity |].
  destruct (visualizer_draws_inside_the_canvas false (fun _ => 0%Q) 300 60
              Visualizer.initialBars 19 _ Hh Hw Hzero Hb
              ltac:(vm_compute; reflexivity)) as (_ & Hx & _ & Hy & _).
  split; [exact Hx | exact Hy].
Defined.


(** ** When the message handler raises *)

Lemma bind_threw {A B} (m : M A) (k : A -> M B) s :
  value (bind m k s) = None ->
  value (m s) = None \/ exists a, value (m s) = Some a /\ value (k a (state (m s))) = None.
Proof.
  unfold bind, value, state. destruct (m s) as [[[a |] s1] out1]; simpl.
  - intros H. right. exists a. split; [reflexivity |].
    destruct (k a s1) as [[r s2] out2]. exact H.
  - intros _. left. reflexivity.
Qed.

Lemma handleAudio_threw env content s :
  value (handleAudio env content s) = None ->
  exists blob, firstInline content = Some blob /\
               isSome (outputAudioContextRef s) = true /\
               decodeAudioData env (data blob) = None.
Proof.
  unfold handleAudio, firstInline.
  destruct (modelTurn_parts content) as [parts |]; [| discriminate].
  destruct (find _ parts) as [audioPart |]; [| discriminate].
  destruct (inlineData audioPart) as [blob |]; [| discriminate].
  unfold bind, gets, value. simpl.
  destruct (isSome (outputAudioContextRef s)) eqn:C; [| discriminate].
  destruct (decodeAudioData env (data blob)) as [buffer |] eqn:D; [discriminate |].
  intros _. exists blob. repeat split. exact D.
Qed.

Lemma completes_false calls :
  completes calls = false <->
  exists call, In call calls /\ call_name call = "update_ui" /\ call_args call = None.
Proof.
  induction calls as [| c rest IH]; simpl.
  - split; [discriminate | intros (call & [] & _)].
  - destruct (raises c) eqn:R; simpl.
    + split; [intros _ | reflexivity].
      unfold raises, carriesArgs, isUpdateUi in R. apply andb_prop in R. destruct R as [U A].
      exists c. split; [left; reflexivity |]. split; [apply String.eqb_eq, U |].
      destruct (call_args c); [discriminate A | reflexivity].
    + rewrite IH. split.
      * intros (call & Hin & H). exists call. split; [right; exact Hin | exact H].
      * intros (call & [E | Hin] & Hu & Ha).
        -- subst call. unfold raises, carriesArgs, isUpdateUi in R.
           rewrite Hu, Ha in R. discriminate R.
        -- exists call. repeat split; assumption.
Qed.

Lemma handleToolCall_threw msg s :
  value (handleToolCall msg s) = None ->
  toolCall msg = Some {| functionCalls := None |} \/
  exists calls, toolCall msg = Some {| functionCalls := Some calls |} /\
                completes calls = false.
Proof.
  unfold handleToolCall. destruct (toolCall msg) as [[[calls |]] |].
  - intros H. right. exists calls. split; [reflexivity |].
    change (value (handleToolCall (toolCallMessage calls) s) = None) in H.
    rewrite handleToolCall_run in H. unfold value in H. simpl in H.
    destruct (completes calls); [discriminate H | reflexivity].
  - intros _. left. reflexivity.
  - discriminate.
Qed.

Lemma transcripts_return cp env content s :
  value (bind (handleOutputTranscription env content)
           (fun _ => bind (handleInputTranscription content)
                       (fun _ => handleTurnComplete cp env content)) s) = Some tt.
Proof.
  unfold handleOutputTranscription, handleInputTranscription, handleTurnComplete,
    bind, when, value.
  destruct (outputTranscription_text content) as [t |]; [destruct (nonEmpty t) |];
    (destruct (inputTranscription_text content) as [t' |]; [destruct (nonEmpty t') |]);
    destruct (turnComplete content && nonEmpty (transcript cp)); reflexivity.
Qed.

(** X15: [onmessage] raises in exactly three situations: the tool call of
    the message has no [functionCalls]; an [update_ui] call of its batch
    carries no [args]; or the message carries inline audio that does not
    decode while the output context exists (and the tool-call block did not
    raise before).  Every other message is handled to the end, whatever
    transcripts or flags it carries. *)
Theorem onmessage_raises_in_three_situations_only
  (cp : CenterPanel) (env : Env) (msg : LiveServerMessage) (s : AppState) :
  value (onmessage cp env msg s) = None <->
  (toolCall msg = Some {| functionCalls := None |}) \/
  (exists calls call,
      toolCall msg = Some {| functionCalls := Some calls |} /\
      In call calls /\ call_name call = "update_ui" /\ call_args call = None) \/
  (exists content blob,
      serverContent msg = Some content /\
      firstInline content = Some blob /\
      isSome (outputAudioContextRef s) = true /\
      decodeAudioData env (data blob) = None).
Proof.
  split.
  - intros H. unfold onmessage in H.
    destruct (bind_threw _ _ _ H) as [Ht | (a & _ & Hrest)].
    + destruct (handleToolCall_threw msg s Ht) as [Hn | (calls & Hc & Hf)].
      * left. exact Hn.
      * right. left. apply completes_false in Hf. destruct Hf as (call & Hin & Hu & Ha).
        exists calls, call. repeat split; assumption.
    + right. right. unfold handleServerContent in Hrest.
      destruct (serverContent msg) as [content |]; [| discriminate Hrest].
      destruct (bind_threw _ _ _ Hrest) as [Ha | (a' & _ & Hafter)].
      * destruct (handleAudio_threw env content _ Ha) as (blob & Hb & Hc & Hd).
        exists content, blob. repeat split; try assumption.
        rewrite (handleToolCall_keeps outputAudioContextRef msg update_ui_keeps_context s)
          in Hc.
        exact Hc.
      * rewrite transcripts_return in Hafter. discriminate Hafter.
  - intros [Hn | [(calls & call & Hc & Hin & Hu & Ha) | (content & blob & Hc & Hb & Hctx & Hd)]].
    + unfold onmessage, bind, handleToolCall. rewrite Hn. reflexivity.
    + assert (C : completes calls = false).
      { apply completes_false. exists call. repeat split; assumption. }
      destruct (onmessage_toolCall cp env msg calls s Hc) as (_ & _ & Hraise).
      rewrite (Hraise C). reflexivity.
    + destruct (outputAudioContextRef s) as [ctx |] eqn:E; [| discriminate Hctx].
      assert (Hctx1 : outputAudioContextRef (state (handleToolCall msg s)) = Some ctx).
      { rewrite (handleToolCall_keeps outputAudioContextRef msg update_ui_keeps_context s).
        exact E. }
      unfold onmessage, bind. revert Hctx1.
      destruct (handleToolCall msg s) as [[[u |] s1] out1]; [| reflexivity].
      unfold state. simpl fst. simpl snd. intros Hctx1.
      unfold handleServerContent. rewrite Hc. unfold bind at 1.
      rewrite (handleAudio_failed_decoding env content blob ctx _ Hb Hctx1 Hd).
      reflexivity.
Qed.

(** The broken last chunk again: the handler raises, no tool call being
    there, so the payload is one that does not decode. *)
Lemma onmessage_raises_in_three_situations_only_witness :
  exists content blob,
    serverContent
      {| toolCall := None;
         serverContent := Some
           {| modelTurn_parts := Some [ {| inlineData := Some {| data := "%%%";
                                           mimeType := "audio/pcm;rate=24000" |} |} ];
              outputTranscription_text := Some "Good.";
              inputTranscription_text := None;
              turnComplete := true |} |} = Some content /\
    firstInline content = Some blob /\
    decodeAudioData (envAt 5) (data blob) = None.
Proof.
  destruct (proj1 (onmessage_raises_in_three_situations_only
              (centerPanel initialState) (envAt 5)
              {| toolCall := None;
                 serverContent := Some
                   {| modelTurn_parts := Some [ {| inlineData := Some {| data := "%%%";
                                                   mimeType := "audio/pcm;rate=24000" |} |} ];
                      outputTranscription_text := Some "Good.";
                      inputTranscription_text := None;
                      turnComplete := true |} |}
              (run [ClickMic true true; SessionOpen] initialState)) eq_refl)
    as [Hn | [(calls & call & Hc & _) | (content & blob & Hc & Hb & _ & Hd)]].
  - discriminate Hn.
  - discriminate Hc.
  - exists content, blob. repeat split; assumption.
Defined.

(** ** The volume meter *)

Local Open Scope R_scope.

Lemma sumOfSquares_bounds xs :
  Forall (fun x => -1 <= x <= 1) xs ->
  0 <= sumOfSquares xs <= INR (List.length xs).
Proof.
  induction 1 as [| x rest Hx _ IH]; simpl sumOfSquares.
  - simpl. lra.
  - change (List.length (x :: rest)) with (S (List.length rest)). rewrite S_INR.
    assert (0 <= x * x <= 1) by nra. lra.
Qed.

Lemma sumOfSquares_zero xs : Forall (fun x => x = 0) xs -> sumOfSquares xs = 0.
Proof.
  induction 1 as [| x rest Hx _ IH]; simpl; [reflexivity |]. rewrite IH, Hx. ring.
Qed.

Lemma volume_is_rms inputData s :
  inputData <> [] ->
  volume (state (onaudioprocess inputData s)) = rootMeanSquare (map Q2R inputData).
Proof.
  intros Hne. unfold onaudioprocess, bind, setVolume, modify, emit, state. simpl.
  unfold rootMeanSquare. f_equal.
  rewrite Q2R_div by (apply lengthQ_nonzero, Hne).
  rewrite Q2R_sumLoop, Q2R_lengthQ, length_map, RMicromega.Q2R_0. f_equal. ring.
Qed.

(** X16: for a non-empty window of samples in [-1, 1] the volume set by the
    microphone callback lies between 0 and 1, and it is 0 for a window of
    silence. *)
Theorem volume_of_a_window_in_range_is_between_0_and_1
  (inputData : list Q) (s : AppState) :
  inputData <> [] ->
  Forall inRange inputData ->
  0 <= volume (state (onaudioprocess inputData s)) <= 1 /\
  (Forall (fun x => (x == 0)%Q) inputData ->
   volume (state (onaudioprocess inputData s)) = 0).
Proof.
  intros Hne Hin. rewrite (volume_is_rms inputData s Hne). unfold rootMeanSquare.
  assert (Hn : 0 < INR (List.length (map Q2R inputData))).
  { rewrite length_map. apply lt_0_INR. destruct inputData; [contradiction | simpl; lia]. }
  assert (Hb : Forall (fun x => -1 <= x <= 1) (map Q2R inputData)).
  { apply Forall_map. eapply Forall_impl; [| exact Hin]. intros x [Hlo Hhi].
    apply Qle_Rle in Hlo. apply Qle_Rle in Hhi.
    replace (Q2R (-1)) with (-1) in Hlo by (unfold Q2R; simpl; lra).
    replace (Q2R 1) with 1 in Hhi by (unfold Q2R; simpl; lra).
    split; assumption. }
  pose proof (sumOfSquares_bounds _ Hb) as [S0 S1].
  set (S := sumOfSquares (map Q2R inputData)) in *.
  set (N := INR (List.length (map Q2R inputData))) in *.
  assert (Hq0 : 0 <= S / N) by (apply Rmult_le_pos; [exact S0 | left; apply Rinv_0_lt_compat, Hn]).
  assert (Hq1 : S / N <= 1).
  { apply (Rmult_le_reg_r N); [exact Hn |]. unfold Rdiv.
    rewrite Rmult_assoc, Rinv_l by lra. lra. }
  split.
  - split; [apply sqrt_pos |]. rewrite <- sqrt_1. apply sqrt_le_1_alt, Hq1.
  - intros Hz. subst S.
    rewrite sumOfSquares_zero.
    + unfold Rdiv. rewrite Rmult_0_l. apply sqrt_0.
    + apply Forall_map. eapply Forall_impl; [| exact Hz]. intros x Hx.
      rewrite (Qeq_eqR _ _ Hx). apply RMicromega.Q2R_0.
Qed.

(** A window of two samples at half scale. *)
Lemma volume_of_a_window_in_range_is_between_0_and_1_witness :
  0 <= volume (state (onaudioprocess [1 # 2; - (1 # 2)]%Q initialState)) <= 1.
Proof.
  assert (Hne : [1 # 2; - (1 # 2)]%Q <> []) by discriminate.
  assert (Hin : Forall inRange [1 # 2; - (1 # 2)]%Q).
  { repeat apply Forall_cons; try apply Forall_nil;
      (split; unfold Qle; simpl; lia). }
  exact (proj1 (volume_of_a_window_in_range_is_between_0_and_1
                  [1 # 2; - (1 # 2)]%Q initialState Hne Hin)).
Defined.

Local Close Scope R_scope.
